(** * FileShare: chunk protocol, flow control, transfer engines, session registry

    A shallow embedding of the transfer core of the FileShare repository
    (TypeScript front end, Java signalling back end) and the properties
    its specification states about it.

    Conventions of the embedding.
    - A JavaScript [number] that holds an index, a size or a count is a [Z].
    - An [ArrayBuffer] is the list of its bytes; a [Uint8Array] is a view
      (buffer, byte offset, byte length) onto such a buffer, as in the
      language: two views may share one buffer.
    - A JavaScript [Map] and a Redis keyspace are finite maps ([gmap]).
    - A thrown exception is the left injection of a sum; [try]/[catch]
      is a match on it.
    - Wall-clock readings ([Date.now()]) are parameters of the operation
      that takes them. *)

From Stdlib Require Import ZArith Lia Bool.
From Stdlib Require Import Strings.Byte Strings.Ascii.
From stdpp Require Import gmap strings list fin_maps sorting.

Local Open Scope Z_scope.

(** ** Exceptions and the error monad *)

Inductive exn : Type :=
| RangeError
| TypeError
| InvalidStateError
| Error (message : string)
(* Java, on the signalling side *)
| NullPointerException
| JsonProcessingException
| JedisDataException.

Definition result : Type -> Type := sum exn.

Definition throw {A} (e : exn) : result A := inl e.

#[global] Instance result_ret : MRet result := fun A a => inr a.
#[global] Instance result_bind : MBind result := fun A B k m =>
  match m with
  | inl e => inl e
  | inr a => k a
  end.

Definition ret {A} (a : A) : result A := mret a.

(** Stateful code that may throw: the state at the throw is kept, as
    the mutations a JavaScript method made before it threw are. *)
Definition ST (S A : Type) : Type := S -> result A * S.

#[global] Instance ST_ret {S} : MRet (ST S) := fun A a s => (inr a, s).
#[global] Instance ST_bind {S} : MBind (ST S) := fun A B k m s =>
  match m s with
  | (inl e, s') => (inl e, s')
  | (inr a, s') => k a s'
  end.

Definition get {S} : ST S S := fun s => (inr s, s).
Definition gets {S A} (f : S -> A) : ST S A := fun s => (inr (f s), s).
Definition modify {S} (f : S -> S) : ST S unit := fun s => (inr tt, f s).
Definition raise {S A} (e : exn) : ST S A := fun s => (inl e, s).
Definition lift {S A} (r : result A) : ST S A := fun s => (r, s).
Definition skip {S} : ST S unit := mret tt.

(** [try { m } catch { }] with a handler that only logs. *)
Definition try_catch {S} (m : ST S unit) : ST S unit := fun s =>
  match m s with
  | (inl _, s') => (inr tt, s')
  | (inr u, s') => (inr u, s')
  end.

(** A call of an [async] method whose promise is dropped: the body runs,
    an exception in it rejects the dropped promise and reaches nobody. *)
Definition detached {S} (m : ST S unit) : ST S unit := try_catch m.

(** A call of an [async] method whose promise is dropped, run up to its
    first [await]: [true] when the call is suspended there, [false] when
    it has ended; an exception in it rejects the dropped promise and
    reaches nobody. *)
Definition started {S} (m : ST S bool) : ST S bool := fun s =>
  match m s with
  | (inl _, s') => (inr false, s')
  | (inr b, s') => (inr b, s')
  end.

(** The rest [m] of a handler, and then what the calls it left suspended
    do when their promises settle: [k b] after [m] returned [b], [k false]
    after [m] threw.  The exception of [m] is the handler's. *)
Definition settled {S} (m : ST S bool) (k : bool -> ST S unit) : ST S unit := fun s =>
  match m s with
  | (inl e, s') => (inl e, (k false s').2)
  | (inr b, s') => (inr tt, (k b s').2)
  end.

(** [for (const x of l) body(x)]. *)
Fixpoint for_of {S A} (l : list A) (body : A -> ST S unit) : ST S unit :=
  match l with
  | [] => skip
  | x :: l' => _ ← body x; for_of l' body
  end.

Definition exec {S A} (m : ST S A) (s : S) : S := snd (m s).

(** ** ChunkProtocol.ts *)

Module ChunkProtocol.

Abbreviation ArrayBuffer := (list byte).

Definition CHUNK_SIZE : Z := 64 * 1024.
Definition HEADER_SIZE : Z := 8.

(** [new ArrayBuffer(n)]: [n] zero bytes. *)
Definition new_ArrayBuffer (n : nat) : ArrayBuffer := replicate n x00.

(** A typed-array view.  [new Uint8Array(buffer)] views the whole buffer,
    [new Uint8Array(buffer, off, len)] a window of it. *)
Record Uint8Array : Type := mkUint8Array {
  buffer : ArrayBuffer;
  byteOffset : nat;
  byteLength : nat
}.

Definition new_Uint8Array (b : ArrayBuffer) : Uint8Array :=
  {| buffer := b; byteOffset := 0; byteLength := length b |}.

Definition new_Uint8Array_at (b : ArrayBuffer) (off len : nat) : result Uint8Array :=
  if decide (off + len <= length b)%nat
  then ret {| buffer := b; byteOffset := off; byteLength := len |}
  else throw RangeError.

(** The bytes a view denotes. *)
Definition contents (a : Uint8Array) : list byte :=
  take (byteLength a) (drop (byteOffset a) (buffer a)).

(** The byte with value [z mod 256]. *)
Definition byte_of_Z (z : Z) : byte :=
  match Byte.of_N (Z.to_N (z mod 256)) with
  | Some b => b
  | None => x00
  end.

Definition Z_of_byte (b : byte) : Z := Z.of_N (Byte.to_N b).

(** [ToUint32] on an integral number. *)
Definition ToUint32 (v : Z) : Z := v mod 2 ^ 32.

(** The four bytes [DataView.setUint32(_, v, false)] stores, most
    significant first. *)
Definition be32 (v : Z) : list byte :=
  let u := ToUint32 v in
  [ byte_of_Z (Z.land (Z.shiftr u 24) 255);
    byte_of_Z (Z.land (Z.shiftr u 16) 255);
    byte_of_Z (Z.land (Z.shiftr u 8) 255);
    byte_of_Z (Z.land u 255) ].

(** Overwrite [length src] bytes of [buf] from position [off]; a write
    that does not fit raises [RangeError], as [DataView] and
    [TypedArray.prototype.set] do. *)
Definition blit (off : nat) (src : list byte) (buf : ArrayBuffer) : result ArrayBuffer :=
  if decide (off + length src <= length buf)%nat
  then ret (take off buf ++ src ++ drop (off + length src) buf)
  else throw RangeError.

Definition setUint32 (off : nat) (v : Z) (buf : ArrayBuffer) : result ArrayBuffer :=
  blit off (be32 v) buf.

Definition getUint32 (off : nat) (buf : ArrayBuffer) : result Z :=
  match drop off buf with
  | b0 :: b1 :: b2 :: b3 :: _ =>
      ret (Z_of_byte b0 * 2 ^ 24 + Z_of_byte b1 * 2 ^ 16
           + Z_of_byte b2 * 2 ^ 8 + Z_of_byte b3)
  | _ => throw RangeError
  end.

(** [encodeChunk(chunkIndex, payload)]. *)
Definition encodeChunk (chunkIndex : Z) (payload : Uint8Array) : result ArrayBuffer :=
  let buffer0 := new_ArrayBuffer (Z.to_nat HEADER_SIZE + byteLength payload) in
  buffer1 ← setUint32 0 chunkIndex buffer0;
  buffer2 ← setUint32 4 (Z.of_nat (byteLength payload)) buffer1;
  blit (Z.to_nat HEADER_SIZE) (contents payload) buffer2.

Record DecodedChunk : Type := mkDecodedChunk {
  chunkIndex : Z;
  payload : Uint8Array
}.

(** [decodeChunk(buffer)]. *)
Definition decodeChunk (buf : ArrayBuffer) : result DecodedChunk :=
  chunkIndex ← getUint32 0 buf;
  payloadLength ← getUint32 4 buf;
  if decide (payloadLength = Z.of_nat (length buf) - HEADER_SIZE)
  then
    payload ← new_Uint8Array_at buf (Z.to_nat HEADER_SIZE) (Z.to_nat payloadLength);
    ret {| chunkIndex := chunkIndex; payload := payload |}
  else throw (Error "Payload length mismatch").

(** [calculateTotalChunks(fileSize)]: [Math.ceil(fileSize / CHUNK_SIZE)]
    on a non-negative integral size. *)
Definition calculateTotalChunks (fileSize : Z) : Z :=
  (fileSize + CHUNK_SIZE - 1) / CHUNK_SIZE.

Record FileMetadata : Type := mkFileMetadata {
  name : string;
  size : Z;
  mimeType : string;
  totalChunks : Z
}.

Inductive ControlAction : Type := ready | pause | resume.

(** The closed set of JSON control messages. *)
Inductive ProtocolMessage : Type :=
| MFileMeta (meta : FileMetadata)
| MAck (chunkIndex : Z)
| MNack (missingChunks : list Z)
| MTransferComplete (success : bool) (bytesReceived : Z)
| MReceivedRanges (ranges : list (Z * Z))
| MControl (action : ControlAction).

(** What travels on the data channel: a binary frame or a JSON text. *)
Inductive Frame : Type :=
| Binary (data : ArrayBuffer)
| Text (message : ProtocolMessage).

End ChunkProtocol.

(** ** FlowControl.ts *)

Module FlowControl.

Record FlowControlConfig : Type := mkFlowControlConfig {
  maxOutstandingBytes : Z;
  chunkSize : Z
}.

Definition DEFAULT_CONFIG : FlowControlConfig :=
  {| maxOutstandingBytes := 8 * 1024 * 1024;
     chunkSize := ChunkProtocol.CHUNK_SIZE |}.

(** A suspended [waitForSpace] call: the [resolve] callback of its
    promise, named by a token. *)
Definition Waiter : Type := nat.

(** *** class SlidingWindow *)

Record SlidingWindow : Type := mkSlidingWindow {
  config : FlowControlConfig;
  maxChunksInFlight : Z;
  (* chunkIndex -> timestamp of the send *)
  outstandingChunks : gmap Z Z;
  waitQueue : list Waiter;
  paused : bool
}.

(** The constructor; [Math.floor(a / b)] is [a / b] on integers with
    [0 < b]. *)
Definition new_SlidingWindow (cfg : FlowControlConfig) : SlidingWindow :=
  {| config := cfg;
     maxChunksInFlight := maxOutstandingBytes cfg / chunkSize cfg;
     outstandingChunks := ∅;
     waitQueue := [];
     paused := false |}.

Definition outstandingSize (w : SlidingWindow) : Z :=
  Z.of_nat (size (outstandingChunks w)).

Definition outstandingBytes (w : SlidingWindow) : Z :=
  outstandingSize w * chunkSize (config w).

Definition canSend (w : SlidingWindow) : bool :=
  negb (paused w) && bool_decide (outstandingSize w < maxChunksInFlight w).

Definition set_outstandingChunks (m : gmap Z Z) (w : SlidingWindow) : SlidingWindow :=
  {| config := config w; maxChunksInFlight := maxChunksInFlight w;
     outstandingChunks := m; waitQueue := waitQueue w; paused := paused w |}.

Definition set_waitQueue (q : list Waiter) (w : SlidingWindow) : SlidingWindow :=
  {| config := config w; maxChunksInFlight := maxChunksInFlight w;
     outstandingChunks := outstandingChunks w; waitQueue := q; paused := paused w |}.

Definition set_paused (b : bool) (w : SlidingWindow) : SlidingWindow :=
  {| config := config w; maxChunksInFlight := maxChunksInFlight w;
     outstandingChunks := outstandingChunks w; waitQueue := waitQueue w; paused := b |}.

(** [markSent(chunkIndex)], at time [now]. *)
Definition markSent (chunkIndex now : Z) (w : SlidingWindow) : result SlidingWindow :=
  if bool_decide (outstandingSize w >= maxChunksInFlight w)
  then throw (Error "Window full - should not call markSent when canSend() is false")
  else ret (set_outstandingChunks (<[chunkIndex := now]> (outstandingChunks w)) w).

(** The loop of [notifyWaiters] over the queue [q]: the waiters it leaves
    queued and the waiters it calls, in call order.  Calling a waiter
    resolves a promise; the continuation runs later, so the window does
    not change while the loop runs. *)
Fixpoint notifyWaiters_loop (w : SlidingWindow) (q : list Waiter) : list Waiter * list Waiter :=
  match q with
  | [] => ([], [])
  | waiter :: rest =>
      if canSend w
      then let '(queued, called) := notifyWaiters_loop w rest in (queued, waiter :: called)
      else (q, [])
  end.

(** [notifyWaiters()]: the new window and the waiters called. *)
Definition notifyWaiters (w : SlidingWindow) : SlidingWindow * list Waiter :=
  let '(queued, called) := notifyWaiters_loop w (waitQueue w) in
  (set_waitQueue queued w, called).

Definition onAck (chunkIndex : Z) (w : SlidingWindow) : SlidingWindow * list Waiter :=
  notifyWaiters (set_outstandingChunks (delete chunkIndex (outstandingChunks w)) w).

Definition onAckBatch (chunkIndices : list Z) (w : SlidingWindow) : SlidingWindow * list Waiter :=
  notifyWaiters
    (set_outstandingChunks
       (foldl (fun m idx => delete idx m) (outstandingChunks w) chunkIndices) w).

Definition getChunksForRetransmit (missingChunks : list Z) (w : SlidingWindow) : list Z :=
  filter (fun idx => is_Some (outstandingChunks w !! idx)) missingChunks.

Definition pause (w : SlidingWindow) : SlidingWindow := set_paused true w.

Definition resume (w : SlidingWindow) : SlidingWindow * list Waiter :=
  notifyWaiters (set_paused false w).

(** [waitForSpace()]: [None] when the promise is already resolved on
    return, [Some waiter] when the caller is suspended on [waiter]. *)
Definition waitForSpace (waiter : Waiter) (w : SlidingWindow) : SlidingWindow * option Waiter :=
  if canSend w then (w, None)
  else (set_waitQueue (waitQueue w ++ [waiter]) w, Some waiter).

(** [clear()].  The callback of the [forEach] over the queue has an
    empty body: it leaves the list of called waiters as it is. *)
Definition clear (w : SlidingWindow) : SlidingWindow * list Waiter :=
  let called := foldl (fun (called : list Waiter) (_ : Waiter) => called) [] (waitQueue w) in
  (set_waitQueue [] (set_paused false (set_outstandingChunks ∅ w)), called).

Record Stats : Type := mkStats {
  stat_outstandingChunks : Z;
  stat_outstandingBytes : Z;
  stat_paused : bool
}.

Definition getStats (w : SlidingWindow) : Stats :=
  {| stat_outstandingChunks := outstandingSize w;
     stat_outstandingBytes := outstandingBytes w;
     stat_paused := paused w |}.

(** *** class ReceivedRanges *)

Record ReceivedRanges : Type := mkReceivedRanges {
  ranges : list (Z * Z);
  receivedSet : gset Z;
  rr_totalChunks : Z
}.

Definition new_ReceivedRanges (totalChunks : Z) : ReceivedRanges :=
  {| ranges := []; receivedSet := ∅; rr_totalChunks := totalChunks |}.

(** The loop of [updateRanges] over the sorted indices after the first. *)
Fixpoint compress (rangeStart rangeEnd : Z) (sorted : list Z) (newRanges : list (Z * Z))
  : list (Z * Z) :=
  match sorted with
  | [] => newRanges ++ [(rangeStart, rangeEnd)]
  | x :: sorted' =>
      if decide (x = rangeEnd + 1)
      then compress rangeStart x sorted' newRanges
      else compress x x sorted' (newRanges ++ [(rangeStart, rangeEnd)])
  end.

Definition updateRanges (r : ReceivedRanges) : ReceivedRanges :=
  let sorted := merge_sort Z.le (elements (receivedSet r)) in
  {| ranges := match sorted with
               | [] => []
               | x :: sorted' => compress x x sorted' []
               end;
     receivedSet := receivedSet r;
     rr_totalChunks := rr_totalChunks r |}.

Definition hasChunk (chunkIndex : Z) (r : ReceivedRanges) : bool :=
  bool_decide (chunkIndex ∈ receivedSet r).

Definition markReceived (chunkIndex : Z) (r : ReceivedRanges) : ReceivedRanges :=
  if hasChunk chunkIndex r then r
  else updateRanges
         {| ranges := ranges r;
            receivedSet := {[chunkIndex]} ∪ receivedSet r;
            rr_totalChunks := rr_totalChunks r |}.

Definition getMissingChunks (r : ReceivedRanges) : list Z :=
  filter (fun i => i ∉ receivedSet r) (seqZ 0 (rr_totalChunks r)).

Definition getRanges (r : ReceivedRanges) : list (Z * Z) := ranges r.

Definition loadFromRanges (rs : list (Z * Z)) (r : ReceivedRanges) : ReceivedRanges :=
  updateRanges
    {| ranges := ranges r;
       receivedSet :=
         foldl (fun s '(start, end_) =>
                  foldl (fun s i => {[i]} ∪ s) s (seqZ start (end_ - start + 1)))
               (receivedSet r) rs;
       rr_totalChunks := rr_totalChunks r |}.

Definition isComplete (r : ReceivedRanges) : bool :=
  bool_decide (Z.of_nat (size (receivedSet r)) >= rr_totalChunks r).

End FlowControl.

(** ** The environment: data channel and file sink *)

Module Transport.
Import ChunkProtocol.

Inductive ReadyState : Type := rs_connecting | rs_open | rs_closing | rs_closed.

#[global] Instance ReadyState_eq_dec : EqDecision ReadyState.
Proof. solve_decision. Defined.

(** An [RTCDataChannel], seen from the engine that owns it: [outbox] is
    what [send] was given, oldest first.  [bufferedAmount] is read by the
    sender and moved by the browser. *)
Record RTCDataChannel : Type := mkRTCDataChannel {
  readyState : ReadyState;
  bufferedAmount : Z;
  bufferedAmountLowThreshold : Z;
  outbox : list Frame
}.

(** [send]: [InvalidStateError] unless the channel is open. *)
Definition send (f : Frame) (c : RTCDataChannel) : result RTCDataChannel :=
  if decide (readyState c = rs_open)
  then ret {| readyState := readyState c;
              bufferedAmount := bufferedAmount c;
              bufferedAmountLowThreshold := bufferedAmountLowThreshold c;
              outbox := outbox c ++ [f] |}
  else throw InvalidStateError.

(** A [FileSystemWritableFileStream]: the cursor and the log of
    [(offset, bytes)] writes.  An operation takes effect when it is
    called; a stream on which [close()] was called takes no further
    operation. *)
Record FileSystemWritableFileStream : Type := mkStream {
  position : Z;
  written : list (Z * list byte);
  closed : bool
}.

Definition new_stream : FileSystemWritableFileStream :=
  {| position := 0; written := []; closed := false |}.

Definition seek (pos : Z) (w : FileSystemWritableFileStream)
  : result FileSystemWritableFileStream :=
  if closed w then throw TypeError
  else ret {| position := pos; written := written w; closed := false |}.

(** [write(view)] stores the bytes the view denotes at the cursor. *)
Definition write (data : Uint8Array) (w : FileSystemWritableFileStream)
  : result FileSystemWritableFileStream :=
  if closed w then throw TypeError
  else ret {| position := position w + Z.of_nat (length (contents data));
              written := written w ++ [(position w, contents data)];
              closed := false |}.

Definition close (w : FileSystemWritableFileStream)
  : result FileSystemWritableFileStream :=
  if closed w then throw TypeError
  else ret {| position := position w; written := written w; closed := true |}.

End Transport.

(** ** TransferState.ts *)

Module TransferState.

Inductive TransferStatus : Type :=
| idle | connecting | waiting_for_peer | transferring | paused | completed | failed.

(** A progress snapshot, without its clock-derived fields (speeds, eta). *)
Record TransferProgress : Type := mkTransferProgress {
  status : TransferStatus;
  bytesTransferred : Z;
  totalBytes : Z;
  chunksTransferred : Z;
  totalChunks : Z;
  error : option string
}.

End TransferState.

(** ** transport/Receiver.ts *)

Module Receiver.
Import ChunkProtocol Transport TransferState.

Record ReceiverConfig : Type := mkReceiverConfig {
  ackBatchSize : Z;
  nackTimeoutMs : Z
}.

Definition DEFAULT_CONFIG : ReceiverConfig :=
  {| ackBatchSize := 4; nackTimeoutMs := 2000 |}.

(** The fields of [class Receiver].  [onProgress] is the callback with
    the snapshots it was given; [downloads] is what [assembleAndDownload]
    handed to the browser (file name, bytes of the blob); [nackTimer]
    says whether the interval is set.  The [SpeedCalculator] is left out
    with the clock-derived fields of the snapshot. *)
Record Receiver : Type := mkReceiver {
  config : ReceiverConfig;
  dataChannel : option RTCDataChannel;
  onProgress : option (list TransferProgress);
  fileMeta : option FileMetadata;
  receivedRanges : option FlowControl.ReceivedRanges;
  chunks : gmap Z Uint8Array;
  receivedBytes : Z;
  startTime : option Z;
  writableStream : option FileSystemWritableFileStream;
  pendingAcks : list Z;
  nackTimer : bool;
  downloads : list (string * list byte)
}.

Definition new_Receiver (cfg : ReceiverConfig) : Receiver :=
  {| config := cfg; dataChannel := None; onProgress := None;
     fileMeta := None; receivedRanges := None; chunks := ∅;
     receivedBytes := 0; startTime := None; writableStream := None;
     pendingAcks := []; nackTimer := false; downloads := [] |}.

Definition set_dataChannel (v : option RTCDataChannel) (r : Receiver) : Receiver :=
  mkReceiver (config r) v (onProgress r) (fileMeta r) (receivedRanges r) (chunks r)
    (receivedBytes r) (startTime r) (writableStream r) (pendingAcks r) (nackTimer r)
    (downloads r).

Definition set_onProgress (v : option (list TransferProgress)) (r : Receiver) : Receiver :=
  mkReceiver (config r) (dataChannel r) v (fileMeta r) (receivedRanges r) (chunks r)
    (receivedBytes r) (startTime r) (writableStream r) (pendingAcks r) (nackTimer r)
    (downloads r).

Definition set_fileMeta (v : option FileMetadata) (r : Receiver) : Receiver :=
  mkReceiver (config r) (dataChannel r) (onProgress r) v (receivedRanges r) (chunks r)
    (receivedBytes r) (startTime r) (writableStream r) (pendingAcks r) (nackTimer r)
    (downloads r).

Definition set_receivedRanges (v : option FlowControl.ReceivedRanges) (r : Receiver) : Receiver :=
  mkReceiver (config r) (dataChannel r) (onProgress r) (fileMeta r) v (chunks r)
    (receivedBytes r) (startTime r) (writableStream r) (pendingAcks r) (nackTimer r)
    (downloads r).

Definition set_chunks (v : gmap Z Uint8Array) (r : Receiver) : Receiver :=
  mkReceiver (config r) (dataChannel r) (onProgress r) (fileMeta r) (receivedRanges r) v
    (receivedBytes r) (startTime r) (writableStream r) (pendingAcks r) (nackTimer r)
    (downloads r).

Definition set_receivedBytes (v : Z) (r : Receiver) : Receiver :=
  mkReceiver (config r) (dataChannel r) (onProgress r) (fileMeta r) (receivedRanges r)
    (chunks r) v (startTime r) (writableStream r) (pendingAcks r) (nackTimer r)
    (downloads r).

Definition set_startTime (v : option Z) (r : Receiver) : Receiver :=
  mkReceiver (config r) (dataChannel r) (onProgress r) (fileMeta r) (receivedRanges r)
    (chunks r) (receivedBytes r) v (writableStream r) (pendingAcks r) (nackTimer r)
    (downloads r).

Definition set_writableStream (v : option FileSystemWritableFileStream) (r : Receiver) : Receiver :=
  mkReceiver (config r) (dataChannel r) (onProgress r) (fileMeta r) (receivedRanges r)
    (chunks r) (receivedBytes r) (startTime r) v (pendingAcks r) (nackTimer r)
    (downloads r).

Definition set_pendingAcks (v : list Z) (r : Receiver) : Receiver :=
  mkReceiver (config r) (dataChannel r) (onProgress r) (fileMeta r) (receivedRanges r)
    (chunks r) (receivedBytes r) (startTime r) (writableStream r) v (nackTimer r)
    (downloads r).

Definition set_nackTimer (v : bool) (r : Receiver) : Receiver :=
  mkReceiver (config r) (dataChannel r) (onProgress r) (fileMeta r) (receivedRanges r)
    (chunks r) (receivedBytes r) (startTime r) (writableStream r) (pendingAcks r) v
    (downloads r).

Definition set_downloads (v : list (string * list byte)) (r : Receiver) : Receiver :=
  mkReceiver (config r) (dataChannel r) (onProgress r) (fileMeta r) (receivedRanges r)
    (chunks r) (receivedBytes r) (startTime r) (writableStream r) (pendingAcks r)
    (nackTimer r) v.

(** [this.dataChannel.send(frame)]. *)
Definition channel_send (f : Frame) : ST Receiver unit := fun r =>
  match dataChannel r with
  | None => (inl TypeError, r)
  | Some c =>
      match send f c with
      | inl e => (inl e, r)
      | inr c' => (inr tt, set_dataChannel (Some c') r)
      end
  end.

(** An operation of the sink, applied to [this.writableStream]. *)
Definition stream_op
  (op : FileSystemWritableFileStream -> result FileSystemWritableFileStream)
  : ST Receiver unit := fun r =>
  match writableStream r with
  | None => (inl TypeError, r)
  | Some w =>
      match op w with
      | inl e => (inl e, r)
      | inr w' => (inr tt, set_writableStream (Some w') r)
      end
  end.

Definition initialize (dc : RTCDataChannel) (r : Receiver) : Receiver :=
  set_onProgress (Some []) (set_dataChannel (Some dc) r).

(** [updateProgress(status)]; [x?.f || 0] is [0] when [x] is null. *)
Definition updateProgress (st : TransferStatus) : ST Receiver unit := fun r =>
  match onProgress r with
  | None => (inr tt, r)
  | Some given =>
      let progress :=
        {| status := st;
           bytesTransferred := receivedBytes r;
           totalBytes := from_option ChunkProtocol.size 0 (fileMeta r);
           chunksTransferred :=
             from_option (fun rr => Z.of_nat (length (FlowControl.getRanges rr))) 0
                         (receivedRanges r);
           totalChunks := from_option ChunkProtocol.totalChunks 0 (fileMeta r);
           error := None |} in
      (inr tt, set_onProgress (Some (given ++ [progress])) r)
  end.

(** [sendAcks()]. *)
Definition sendAcks : ST Receiver unit :=
  r ← get;
  if bool_decide (dataChannel r = None) || bool_decide (pendingAcks r = [])
  then skip
  else
    _ ← for_of (pendingAcks r) (fun chunkIndex => channel_send (Text (MAck chunkIndex)));
    modify (set_pendingAcks []).

(** [sendControl(action)]. *)
Definition sendControl (action : ControlAction) : ST Receiver unit :=
  r ← get;
  if bool_decide (dataChannel r = None) then skip
  else channel_send (Text (MControl action)).

(** [writeChunkToDisk(chunkIndex, payload)] up to [await seek(position)]:
    [seek] is called and the call is suspended ([true]), or the guard
    returns ([false]). *)
Definition writeChunkToDisk_start (chunkIndex : Z) : ST Receiver bool :=
  r ← get;
  if bool_decide (writableStream r = None) || bool_decide (fileMeta r = None)
  then mret false
  else
    let position := chunkIndex * CHUNK_SIZE in
    _ ← stream_op (seek position);
    mret true.

(** [writeChunkToDisk] after [seek] has settled: the view handed to
    [write] is [new Uint8Array(payload.buffer)]. *)
Definition writeChunkToDisk_rest (payload : Uint8Array) : ST Receiver unit :=
  stream_op (write (new_Uint8Array (buffer payload))).

(** A whole [writeChunkToDisk(chunkIndex, payload)] call, with nothing
    else run while it is suspended. *)
Definition writeChunkToDisk (chunkIndex : Z) (payload : Uint8Array) : ST Receiver unit :=
  suspended ← writeChunkToDisk_start chunkIndex;
  if suspended : bool then writeChunkToDisk_rest payload else skip.

(** [assembleAndDownload()]. *)
Definition assembleAndDownload : ST Receiver unit :=
  r ← get;
  match fileMeta r with
  | None => skip
  | Some meta =>
      let sortedIndices := merge_sort Z.le (fst <$> map_to_list (chunks r)) in
      let parts := omap (fun i => chunks r !! i) sortedIndices in
      let blob := concat (contents <$> parts) in
      _ ← modify (fun r => set_downloads (downloads r ++ [(name meta, blob)]) r);
      _ ← modify (set_chunks ∅);
      updateProgress completed
  end.

(** The end of [completeTransfer()], "Notify sender". *)
Definition completeTransfer_notify : ST Receiver unit :=
  r ← get;
  if bool_decide (dataChannel r = None) || bool_decide (fileMeta r = None)
  then skip
  else channel_send (Text (MTransferComplete true (receivedBytes r))).

(** [completeTransfer()] up to [await close()]: with a sink [close] is
    called and the call is suspended ([true]); without one the call has
    no [await] and runs to its end ([false]). *)
Definition completeTransfer_start : ST Receiver bool :=
  _ ← sendAcks;
  _ ← modify (set_nackTimer false);
  r ← get;
  if bool_decide (writableStream r = None)
  then _ ← assembleAndDownload; _ ← completeTransfer_notify; mret false
  else _ ← stream_op close; mret true.

(** [completeTransfer()] after [close()] has settled. *)
Definition completeTransfer_rest : ST Receiver unit :=
  _ ← updateProgress completed;
  completeTransfer_notify.

(** A whole [completeTransfer()] call, with nothing else run while it
    is suspended. *)
Definition completeTransfer : ST Receiver unit :=
  suspended ← completeTransfer_start;
  if suspended : bool then completeTransfer_rest else skip.

(** The body of [handleBinaryChunk] inside its [try], after the frame
    was decoded, followed by what the two [async] calls it starts do
    after it: [writeChunkToDisk] is suspended at its [seek] while the
    handler goes on, so that on the chunk that completes the transfer
    [close()] is called before the suspended call reaches its [write].
    The promises of the sink are taken to settle, in the order of the
    calls, before the next event arrives. *)
Definition acceptChunk (ranges : FlowControl.ReceivedRanges) (d : DecodedChunk)
  : ST Receiver unit :=
  (* Skip duplicates *)
  if FlowControl.hasChunk (chunkIndex d) ranges then skip
  else
    r ← get;
    writing ← (if bool_decide (writableStream r = None)
               then _ ← modify (fun r => set_chunks (<[chunkIndex d := payload d]> (chunks r)) r);
                    mret false
               else started (writeChunkToDisk_start (chunkIndex d)));
    settled
      (let ranges' := FlowControl.markReceived (chunkIndex d) ranges in
       _ ← modify (set_receivedRanges (Some ranges'));
       _ ← modify (fun r => set_receivedBytes
                              (receivedBytes r + Z.of_nat (byteLength (payload d))) r);
       (* Queue ACK *)
       _ ← modify (fun r => set_pendingAcks (pendingAcks r ++ [chunkIndex d]) r);
       r ← get;
       _ ← (if bool_decide (Z.of_nat (length (pendingAcks r)) >= ackBatchSize (config r))
            then sendAcks else skip);
       _ ← updateProgress transferring;
       if FlowControl.isComplete ranges'
       then started completeTransfer_start
       else mret false)
      (fun closing =>
         _ ← (if writing : bool
              then detached (writeChunkToDisk_rest (payload d)) else skip);
         if closing then detached completeTransfer_rest else skip).

(** [handleBinaryChunk(buffer)]: the state it leaves and how it ends
    ([inr tt]: it returns; [inl e]: [e] escapes it). *)
Definition handleBinaryChunk (buf : ArrayBuffer) : ST Receiver unit := fun r =>
  match fileMeta r, receivedRanges r with
  | Some _, Some ranges =>
      try_catch (fun r =>
        match decodeChunk buf with
        | inl e => (inl e, r)
        | inr d => acceptChunk ranges d r
        end) r
  | _, _ => (inr tt, r)     (* 'Received chunk before metadata' *)
  end.

(** [startNackTimer()]. *)
Definition startNackTimer : ST Receiver unit := modify (set_nackTimer true).

(** [handleFileMetadata(meta)], at time [now].  [tryGetFileHandle] is
    started and dropped; its outcome arrives with [fileHandleGranted]. *)
Definition handleFileMetadata (meta : FileMetadata) (now : Z) : ST Receiver unit :=
  _ ← modify (set_fileMeta (Some meta));
  _ ← modify (set_receivedRanges (Some (FlowControl.new_ReceivedRanges (ChunkProtocol.totalChunks meta))));
  _ ← modify (set_chunks ∅);
  _ ← modify (set_receivedBytes 0);
  _ ← modify (set_startTime (Some now));
  _ ← updateProgress transferring;
  _ ← startNackTimer;
  sendControl ready.

(** The user picked a file and [createWritable()] resolved. *)
Definition fileHandleGranted (w : FileSystemWritableFileStream) (r : Receiver) : Receiver :=
  set_writableStream (Some w) r.

(** [handleProtocolMessage(message)]. *)
Definition handleProtocolMessage (message : ProtocolMessage) (now : Z) : ST Receiver unit :=
  match message with
  | MFileMeta meta => handleFileMetadata meta now
  | _ => skip
  end.

(** The [data] of a [MessageEvent]: an [ArrayBuffer], a string (with the
    message [JSON.parse] yields, if it parses), or something else. *)
Inductive MessageData : Type :=
| DArrayBuffer (buf : ArrayBuffer)
| DString (parsed : option ProtocolMessage)
| DOther.

(** [handleDataChannelMessage(event)]. *)
Definition handleDataChannelMessage (data : MessageData) (now : Z) : ST Receiver unit :=
  match data with
  | DArrayBuffer buf => handleBinaryChunk buf
  | DString parsed =>
      try_catch
        match parsed with
        | None => raise (Error "SyntaxError")
        | Some message => handleProtocolMessage message now
        end
  | DOther => skip
  end.

(** [sendNack()]. *)
Definition sendNack : ST Receiver unit :=
  r ← get;
  match dataChannel r, receivedRanges r with
  | Some dc, Some ranges =>
      let missing := FlowControl.getMissingChunks ranges in
      if bool_decide (missing = []) || bool_decide (100 <= length missing)%nat then skip
      else if bool_decide (readyState dc ≠ rs_open) then skip
      else try_catch (channel_send (Text (MNack (take 20 missing))))
  | _, _ => skip
  end.

(** One firing of the interval set by [startNackTimer]. *)
Definition nackTick : ST Receiver unit :=
  r ← get;
  match receivedRanges r with
  | Some ranges => if FlowControl.isComplete ranges then skip else sendNack
  | None => skip
  end.

Definition pause : ST Receiver unit :=
  _ ← sendControl ChunkProtocol.pause; updateProgress paused.

Definition resume : ST Receiver unit :=
  _ ← sendControl ChunkProtocol.resume; updateProgress transferring.

End Receiver.

(** ** transport/Sender.ts *)

Module Sender.
Import ChunkProtocol Transport TransferState.

Record SenderConfig : Type := mkSenderConfig {
  maxOutstandingBytes : Z;
  bufferedAmountLowThreshold : Z
}.

Definition DEFAULT_CONFIG : SenderConfig :=
  {| maxOutstandingBytes := 8 * 1024 * 1024;
     bufferedAmountLowThreshold := 256 * 1024 |}.

(** A [File]: its name, MIME type and bytes. *)
Record File : Type := mkFile {
  file_name : string;
  file_type : string;
  file_bytes : list byte
}.

Definition file_size (f : File) : Z := Z.of_nat (length (file_bytes f)).

(** The bytes of the blob [file.slice(start, end)], for [0 <= start]:
    what its [arrayBuffer()] yields when the read settles. *)
Definition slice (start end_ : Z) (f : File) : ArrayBuffer :=
  take (Z.to_nat (end_ - start)) (drop (Z.to_nat start) (file_bytes f)).

(** [createFileMetadata(file)]. *)
Definition createFileMetadata (f : File) : FileMetadata :=
  {| name := file_name f;
     size := file_size f;
     mimeType := if bool_decide (file_type f = EmptyString) then "application/octet-stream"
                 else file_type f;
     ChunkProtocol.totalChunks := calculateTotalChunks (file_size f) |}.

(** The promise [sendFile] returned. *)
Inductive PromiseState : Type :=
| Pending
| Resolved
| Rejected (reason : exn).

(** A [sendChunk] call suspended at [await blob.arrayBuffer()]: its
    chunk, the bytes of its blob (a slice of the file the sender had
    when the call was made), the length [end - start], and whether a
    [sendLoop] awaits the call ([handleNack] drops the promise). *)
Record PendingRead : Type := mkPendingRead {
  read_chunkIndex : Z;
  read_blob : ArrayBuffer;
  read_chunkBytes : Z;
  read_awaited : bool
}.

(** The points at which the [async] method [sendLoop] resumes when a
    promise it awaits was resolved by the sender itself. *)
Inductive ResumePoint : Type :=
| AtTop              (* the [while] test *)
| AfterSpace         (* after [await this.window.waitForSpace()] *)
| AfterBufferLow.    (* after [await this.waitForBufferLow()] *)

(** Where [sendLoop] stands between two events. *)
Inductive LoopState : Type :=
| NotRunning                             (* not started, returned, or threw *)
| AwaitSpace (waiter : FlowControl.Waiter) (* its promise is in the window's queue *)
| AwaitBufferLow                         (* its promise is [bufferLowResolver] *)
| AwaitRead                              (* it awaits a [sendChunk] that reads *)
| Ready (pc : ResumePoint).              (* its promise was resolved: runs next *)

(** The fields of [class Sender], the promise [sendFile] returned, the
    state of its [sendLoop] and the [sendChunk] calls whose read has not
    settled, oldest first.  [transferResolver], [transferRejecter] and
    [bufferLowResolver] say whether the field is non-null.  One
    [sendLoop] is followed: that of the last [sendFile]. *)
Record Sender : Type := mkSender {
  config : SenderConfig;
  window : FlowControl.SlidingWindow;
  dataChannel : option RTCDataChannel;
  file : option File;
  currentChunkIndex : Z;
  totalChunks : Z;
  sentBytes : Z;
  startTime : option Z;
  onProgress : option (list TransferProgress);
  sending : bool;
  cancelled : bool;
  transferResolver : bool;
  transferRejecter : bool;
  bufferLowResolver : bool;
  promise : PromiseState;
  loop : LoopState;
  reads : list PendingRead
}.

Definition new_Sender (cfg : SenderConfig) : Sender :=
  {| config := cfg;
     window := FlowControl.new_SlidingWindow
                 {| FlowControl.maxOutstandingBytes := maxOutstandingBytes cfg;
                    FlowControl.chunkSize := FlowControl.chunkSize FlowControl.DEFAULT_CONFIG |};
     dataChannel := None; file := None; currentChunkIndex := 0; totalChunks := 0;
     sentBytes := 0; startTime := None; onProgress := None;
     sending := false; cancelled := false;
     transferResolver := false; transferRejecter := false; bufferLowResolver := false;
     promise := Pending; loop := NotRunning; reads := [] |}.

Definition set_window (v : FlowControl.SlidingWindow) (s : Sender) : Sender :=
  mkSender (config s) v (dataChannel s) (file s) (currentChunkIndex s) (totalChunks s)
    (sentBytes s) (startTime s) (onProgress s) (sending s) (cancelled s)
    (transferResolver s) (transferRejecter s) (bufferLowResolver s) (promise s) (loop s) (reads s).

Definition set_dataChannel (v : option RTCDataChannel) (s : Sender) : Sender :=
  mkSender (config s) (window s) v (file s) (currentChunkIndex s) (totalChunks s)
    (sentBytes s) (startTime s) (onProgress s) (sending s) (cancelled s)
    (transferResolver s) (transferRejecter s) (bufferLowResolver s) (promise s) (loop s) (reads s).

Definition set_file (v : option File) (s : Sender) : Sender :=
  mkSender (config s) (window s) (dataChannel s) v (currentChunkIndex s) (totalChunks s)
    (sentBytes s) (startTime s) (onProgress s) (sending s) (cancelled s)
    (transferResolver s) (transferRejecter s) (bufferLowResolver s) (promise s) (loop s) (reads s).

Definition set_currentChunkIndex (v : Z) (s : Sender) : Sender :=
  mkSender (config s) (window s) (dataChannel s) (file s) v (totalChunks s)
    (sentBytes s) (startTime s) (onProgress s) (sending s) (cancelled s)
    (transferResolver s) (transferRejecter s) (bufferLowResolver s) (promise s) (loop s) (reads s).

Definition set_totalChunks (v : Z) (s : Sender) : Sender :=
  mkSender (config s) (window s) (dataChannel s) (file s) (currentChunkIndex s) v
    (sentBytes s) (startTime s) (onProgress s) (sending s) (cancelled s)
    (transferResolver s) (transferRejecter s) (bufferLowResolver s) (promise s) (loop s) (reads s).

Definition set_sentBytes (v : Z) (s : Sender) : Sender :=
  mkSender (config s) (window s) (dataChannel s) (file s) (currentChunkIndex s)
    (totalChunks s) v (startTime s) (onProgress s) (sending s) (cancelled s)
    (transferResolver s) (transferRejecter s) (bufferLowResolver s) (promise s) (loop s) (reads s).

Definition set_startTime (v : option Z) (s : Sender) : Sender :=
  mkSender (config s) (window s) (dataChannel s) (file s) (currentChunkIndex s)
    (totalChunks s) (sentBytes s) v (onProgress s) (sending s) (cancelled s)
    (transferResolver s) (transferRejecter s) (bufferLowResolver s) (promise s) (loop s) (reads s).

Definition set_onProgress (v : option (list TransferProgress)) (s : Sender) : Sender :=
  mkSender (config s) (window s) (dataChannel s) (file s) (currentChunkIndex s)
    (totalChunks s) (sentBytes s) (startTime s) v (sending s) (cancelled s)
    (transferResolver s) (transferRejecter s) (bufferLowResolver s) (promise s) (loop s) (reads s).

Definition set_sending (v : bool) (s : Sender) : Sender :=
  mkSender (config s) (window s) (dataChannel s) (file s) (currentChunkIndex s)
    (totalChunks s) (sentBytes s) (startTime s) (onProgress s) v (cancelled s)
    (transferResolver s) (transferRejecter s) (bufferLowResolver s) (promise s) (loop s) (reads s).

Definition set_cancelled (v : bool) (s : Sender) : Sender :=
  mkSender (config s) (window s) (dataChannel s) (file s) (currentChunkIndex s)
    (totalChunks s) (sentBytes s) (startTime s) (onProgress s) (sending s) v
    (transferResolver s) (transferRejecter s) (bufferLowResolver s) (promise s) (loop s) (reads s).

(** [this.transferResolver = a; this.transferRejecter = b]. *)
Definition set_transferCallbacks (a b : bool) (s : Sender) : Sender :=
  mkSender (config s) (window s) (dataChannel s) (file s) (currentChunkIndex s)
    (totalChunks s) (sentBytes s) (startTime s) (onProgress s) (sending s) (cancelled s)
    a b (bufferLowResolver s) (promise s) (loop s) (reads s).

Definition set_bufferLowResolver (v : bool) (s : Sender) : Sender :=
  mkSender (config s) (window s) (dataChannel s) (file s) (currentChunkIndex s)
    (totalChunks s) (sentBytes s) (startTime s) (onProgress s) (sending s) (cancelled s)
    (transferResolver s) (transferRejecter s) v (promise s) (loop s) (reads s).

Definition set_promise (v : PromiseState) (s : Sender) : Sender :=
  mkSender (config s) (window s) (dataChannel s) (file s) (currentChunkIndex s)
    (totalChunks s) (sentBytes s) (startTime s) (onProgress s) (sending s) (cancelled s)
    (transferResolver s) (transferRejecter s) (bufferLowResolver s) v (loop s) (reads s).

Definition set_loop (v : LoopState) (s : Sender) : Sender :=
  mkSender (config s) (window s) (dataChannel s) (file s) (currentChunkIndex s)
    (totalChunks s) (sentBytes s) (startTime s) (onProgress s) (sending s) (cancelled s)
    (transferResolver s) (transferRejecter s) (bufferLowResolver s) (promise s) v (reads s).

Definition set_reads (v : list PendingRead) (s : Sender) : Sender :=
  mkSender (config s) (window s) (dataChannel s) (file s) (currentChunkIndex s)
    (totalChunks s) (sentBytes s) (startTime s) (onProgress s) (sending s) (cancelled s)
    (transferResolver s) (transferRejecter s) (bufferLowResolver s) (promise s) (loop s) v.

(** Settling a promise: only a pending promise changes. *)
Definition settle (v : PromiseState) (s : Sender) : Sender :=
  match promise s with
  | Pending => set_promise v s
  | _ => s
  end.

(** The window called [called]: a [sendLoop] suspended on one of them
    will run next. *)
Definition wake (called : list FlowControl.Waiter) (s : Sender) : Sender :=
  match loop s with
  | AwaitSpace w => if bool_decide (w ∈ called) then set_loop (Ready AfterSpace) s else s
  | _ => s
  end.

(** A window operation that may call waiters. *)
Definition window_notify
  (op : FlowControl.SlidingWindow -> FlowControl.SlidingWindow * list FlowControl.Waiter)
  : ST Sender unit :=
  modify (fun s => let '(w, called) := op (window s) in wake called (set_window w s)).

Definition channel_send (f : Frame) : ST Sender unit := fun s =>
  match dataChannel s with
  | None => (inl TypeError, s)
  | Some c =>
      match send f c with
      | inl e => (inl e, s)
      | inr c' => (inr tt, set_dataChannel (Some c') s)
      end
  end.

(** [initialize(dataChannel, onProgress)]. *)
Definition initialize (dc : RTCDataChannel) (s : Sender) : Sender :=
  set_onProgress (Some [])
    (set_dataChannel
       (Some (mkRTCDataChannel (readyState dc) (bufferedAmount dc)
                (bufferedAmountLowThreshold (config s)) (outbox dc))) s).

(** [updateProgress(status, error?)]. *)
Definition updateProgress (st : TransferStatus) (err : option string) : ST Sender unit :=
  fun s =>
  match onProgress s, file s with
  | Some given, Some f =>
      let progress :=
        {| status := st;
           bytesTransferred := sentBytes s;
           totalBytes := file_size f;
           chunksTransferred := currentChunkIndex s;
           TransferState.totalChunks := totalChunks s;
           error := err |} in
      (inr tt, set_onProgress (Some (given ++ [progress])) s)
  | _, _ => (inr tt, s)
  end.

(** [cancel()]. *)
Definition cancel : ST Sender unit :=
  _ ← modify (set_cancelled true);
  _ ← modify (set_sending false);
  _ ← window_notify FlowControl.clear;
  _ ← updateProgress failed (Some "Transfer cancelled");
  s ← get;
  if transferRejecter s
  then _ ← modify (settle (Rejected (Error "Transfer cancelled")));
       modify (set_transferCallbacks false false)
  else skip.

(** [sendChunk(chunkIndex)] up to its [await]: [false] when it returned
    at its guard, [true] when it is suspended on the read of the blob.
    [awaited] says whether the caller awaits the call. *)
Definition sendChunk_start (chunkIndex : Z) (awaited : bool) : ST Sender bool :=
  s ← get;
  match file s, dataChannel s with
  | Some f, Some _ =>
      let start := chunkIndex * CHUNK_SIZE in
      let end_ := Z.min (start + CHUNK_SIZE) (file_size f) in
      let blob := slice start end_ f in
      _ ← modify (set_reads (reads s ++ [{| read_chunkIndex := chunkIndex;
                                            read_blob := blob;
                                            read_chunkBytes := end_ - start;
                                            read_awaited := awaited |}]));
      mret true
  | _, _ => mret false
  end.

(** [sendChunk] from the point where its read has settled, at time
    [now]: nothing is tested before the chunk is sent and marked. *)
Definition sendChunk_rest (r : PendingRead) (now : Z) : ST Sender unit :=
  let payload := new_Uint8Array (read_blob r) in
  encodedChunk ← lift (encodeChunk (read_chunkIndex r) payload);
  _ ← channel_send (Binary encodedChunk);
  s ← get;
  w ← lift (FlowControl.markSent (read_chunkIndex r) now (window s));
  _ ← modify (set_window w);
  let chunkBytes := read_chunkBytes r in
  _ ← modify (fun s => set_sentBytes (sentBytes s + chunkBytes) s);
  updateProgress transferring None.

(** One turn of the [while] of [sendLoop], entered at [pc]: [true] when
    the loop goes round again, [false] when it ended or is suspended. *)
Definition sendLoop_turn (pc : ResumePoint) (now : Z) : ST Sender bool :=
  let after_buffer : ST Sender bool :=
    s ← get;
    if cancelled s then _ ← modify (set_loop NotRunning); mret false
    else
      suspended ← sendChunk_start (currentChunkIndex s) true;
      if suspended : bool
      then _ ← modify (set_loop AwaitRead); mret false
      else
        _ ← modify (fun s => set_currentChunkIndex (currentChunkIndex s + 1) s);
        mret true in
  let after_space : ST Sender bool :=
    s ← get;
    if cancelled s then _ ← modify (set_loop NotRunning); mret false
    else
      (* waitForBufferLow() *)
      match dataChannel s with
      | None => after_buffer
      | Some dc =>
          if bool_decide (bufferedAmount dc <= bufferedAmountLowThreshold (config s))
          then after_buffer
          else _ ← modify (set_bufferLowResolver true);
               _ ← modify (set_loop AwaitBufferLow);
               mret false
      end in
  match pc with
  | AtTop =>
      s ← get;
      if bool_decide (currentChunkIndex s < totalChunks s) && sending s && negb (cancelled s)
      then
        (* window.waitForSpace() *)
        let waiter := length (FlowControl.waitQueue (window s)) in
        let '(w, suspended) := FlowControl.waitForSpace waiter (window s) in
        _ ← modify (set_window w);
        match suspended with
        | None => after_space
        | Some waiter => _ ← modify (set_loop (AwaitSpace waiter)); mret false
        end
      else _ ← modify (set_loop NotRunning); mret false
  | AfterSpace => after_space
  | AfterBufferLow => after_buffer
  end.

(** [sendLoop()] from [pc] until it ends, throws or is suspended.  Each
    turn that goes round again has passed one chunk; [turns] bounds
    them. *)
Fixpoint sendLoop_run (turns : nat) (pc : ResumePoint) (now : Z) : ST Sender unit :=
  again ← sendLoop_turn pc now;
  if again : bool
  then match turns with
       | O => skip
       | S turns' => sendLoop_run turns' AtTop now
       end
  else skip.

(** The [catch] of [sendLoop().catch(error => { this.cancel();
    reject(error); })] around what [sendLoop] does when it runs. *)
Definition caught (body : ST Sender unit) : ST Sender unit := fun s =>
  match body s with
  | (inr _, s') => (inr tt, s')
  | (inl error, s') =>
      (_ ← modify (set_loop NotRunning);
       _ ← cancel;
       modify (settle (Rejected error))) s'
  end.

(** The turns [sendLoop] can still go round: at most
    [totalChunks - currentChunkIndex] chunks remain, and a loop that
    resumes in the middle of a turn ends that turn first. *)
Definition turnsLeft (s : Sender) : nat :=
  S (Z.to_nat (totalChunks s - currentChunkIndex s)).

(** [sendLoop()] with its [catch], entered at [pc]. *)
Definition sendLoop (pc : ResumePoint) (now : Z) : ST Sender unit := fun s =>
  caught (sendLoop_run (turnsLeft s) pc now) s.

(** [sendLoop] with its [catch], resumed when the read of the
    [sendChunk] call [r] it awaits has settled: the call runs to its
    end, the index is advanced and the [while] goes on. *)
Definition sendLoop_resumed (r : PendingRead) (now : Z) : ST Sender unit :=
  caught (_ ← sendChunk_rest r now;
          _ ← modify (fun s => set_currentChunkIndex (currentChunkIndex s + 1) s);
          s ← get;
          sendLoop_run (turnsLeft s) AtTop now).

(** [sendFile(file)], at time [now]: an [async] method, so an exception
    in its body rejects the promise it returns. *)
Definition sendFile (f : File) (now : Z) : ST Sender unit := fun s =>
  let s := set_promise Pending s in
  match
    (s ← get;
     match dataChannel s with
     | Some dc =>
         if bool_decide (readyState dc = rs_open) then
           _ ← modify (set_file (Some f));
           _ ← modify (set_totalChunks (calculateTotalChunks (file_size f)));
           _ ← modify (set_currentChunkIndex 0);
           _ ← modify (set_sentBytes 0);
           _ ← modify (set_startTime (Some now));
           _ ← modify (set_sending true);
           _ ← modify (set_cancelled false);
           (* Send file metadata first *)
           _ ← channel_send (Text (MFileMeta (createFileMetadata f)));
           _ ← updateProgress transferring None;
           _ ← modify (set_transferCallbacks true true);
           (* Start the send loop *)
           sendLoop AtTop now
         else raise (Error "Data channel not ready")
     | None => raise (Error "Data channel not ready")
     end) s
  with
  | (inr _, s') => (inr tt, s')
  | (inl e, s') => (inr tt, settle (Rejected e) s')
  end.

(** [handleAck(ack)]. *)
Definition handleAck (chunkIndex : Z) : ST Sender unit :=
  _ ← window_notify (FlowControl.onAck chunkIndex);
  s ← get;
  if bool_decide (currentChunkIndex s >= totalChunks s)
     && bool_decide (FlowControl.stat_outstandingChunks
                       (FlowControl.getStats (window s)) = 0)
  then
    _ ← modify (set_sending false);
    _ ← updateProgress completed None;
    s ← get;
    if transferResolver s
    then _ ← modify (settle Resolved); modify (set_transferCallbacks false false)
    else skip
  else skip.

(** [handleNack(nack)]: each [sendChunk] call runs up to its read and
    its promise is dropped; the chunks are sent when the reads settle. *)
Definition handleNack (missingChunks : list Z) : ST Sender unit :=
  s ← get;
  let toRetransmit := FlowControl.getChunksForRetransmit missingChunks (window s) in
  for_of toRetransmit (fun chunkIndex => _ ← sendChunk_start chunkIndex false; skip).

(** The read of the [k]-th suspended [sendChunk] call settles with the
    bytes of its blob, at time [now]: the call runs on, and the
    [sendLoop] that awaits it, if one does.  An exception in a call
    nobody awaits reaches nobody. *)
Definition readSettled (k : nat) (now : Z) : ST Sender unit :=
  s ← get;
  match reads s !! k with
  | None => skip
  | Some r =>
      _ ← modify (set_reads (delete k (reads s)));
      if read_awaited r
      then sendLoop_resumed r now
      else detached (sendChunk_rest r now)
  end.

(** [handleControl(control)]. *)
Definition handleControl (action : ControlAction) : ST Sender unit :=
  match action with
  | ready => window_notify FlowControl.resume
  | ChunkProtocol.pause =>
      _ ← modify (fun s => set_window (FlowControl.pause (window s)) s);
      updateProgress paused None
  | ChunkProtocol.resume =>
      _ ← window_notify FlowControl.resume;
      updateProgress transferring None
  end.

(** [handleMessage(message)], at time [now]. *)
Definition handleMessage (message : ProtocolMessage) (now : Z) : ST Sender unit :=
  match message with
  | MAck chunkIndex => handleAck chunkIndex
  | MNack missingChunks => handleNack missingChunks
  | MControl action => handleControl action
  | MTransferComplete _ _ => skip
  | _ => skip
  end.

(** The [onbufferedamountlow] handler installed by [initialize]. *)
Definition onbufferedamountlow : ST Sender unit :=
  s ← get;
  if bufferLowResolver s
  then _ ← modify (fun s => match loop s with
                            | AwaitBufferLow => set_loop (Ready AfterBufferLow) s
                            | _ => s
                            end);
       modify (set_bufferLowResolver false)
  else skip.

(** After an event handler returns, a [sendLoop] whose promise was
    resolved runs on. *)
Definition run_ready (now : Z) : ST Sender unit :=
  s ← get;
  match loop s with
  | Ready pc => sendLoop pc now
  | _ => skip
  end.

(** What happens to the sender: the calls of its owner, the messages
    and buffer events of its channel, and the reads of its file that
    settle. *)
Inductive Event : Type :=
| ESendFile (f : File)
| EMessage (message : ProtocolMessage)
| EBufferedAmountLow
| ECancel
| EReadSettled (k : nat).

Definition step (ev : Event) (now : Z) (s : Sender) : Sender :=
  exec (_ ← match ev with
            | ESendFile f => sendFile f now
            | EMessage message => handleMessage message now
            | EBufferedAmountLow => onbufferedamountlow
            | ECancel => cancel
            | EReadSettled k => readSettled k now
            end;
        run_ready now) s.

End Sender.

(** ** Characters and strings of the PIN surface

    A PIN string is read as a sequence of code points of the Basic Latin
    block (U+0000 to U+007F).  On such strings Unicode normalisation
    (NFKC) changes nothing, and the character classes of
    [java.lang.Character] and of ECMAScript are the ones written out
    here. *)

Module Chars.

Definition code (c : ascii) : N := N_of_ascii c.

Definition between (lo hi : N) (c : ascii) : bool :=
  (lo <=? code c)%N && (code c <=? hi)%N.

(** The strings the definitions of this module stand for: every
    character is below U+0080. *)
Definition isBasicLatin (c : ascii) : bool := (code c <? 128)%N.

(** [Normalizer.normalize(s, Form.NFKC)] and [s.normalize('NFKC')] on a
    Basic Latin string: every such string is in normal form.  Beyond
    Basic Latin normalisation changes characters (U+00B2 becomes 2,
    U+00A0 a space); theorems about arbitrary strings assume
    [basicLatin]. *)
Definition NFKC (s : string) : string := s.

(** [Character.isWhitespace]: TAB to CR, FS to US, and SPACE. *)
Definition isWhitespace (c : ascii) : bool :=
  between 9 13 c || between 28 31 c || (code c =? 32)%N.

(** [Character.isISOControl]. *)
Definition isISOControl (c : ascii) : bool :=
  between 0 31 c || between 127 159 c.

(** [Character.isSurrogate]: U+D800 to U+DFFF. *)
Definition isSurrogate (c : ascii) : bool := between 55296 57343 c.

Definition isUpperCase (c : ascii) : bool := between 65 90 c.
Definition isLowerCase (c : ascii) : bool := between 97 122 c.
Definition isLetter (c : ascii) : bool := isUpperCase c || isLowerCase c.

(** ECMAScript white space and line terminators of Basic Latin: TAB,
    LF, VT, FF, CR and SPACE.  (Beyond Basic Latin [trim()] also strips
    U+00A0, U+FEFF, U+2028, U+2029 and the space separators.) *)
Definition isJsWhiteSpace (c : ascii) : bool :=
  between 9 13 c || (code c =? 32)%N.

Definition toUpperChar (c : ascii) : ascii :=
  if isLowerCase c then ascii_of_N (code c - 32) else c.

Definition toLowerChar (c : ascii) : ascii :=
  if isUpperCase c then ascii_of_N (code c + 32) else c.

Fixpoint map_string (f : ascii -> ascii) (s : string) : string :=
  match s with
  | EmptyString => EmptyString
  | String c s' => String (f c) (map_string f s')
  end.

(** [toUpperCase()], also with [Locale.ROOT]. *)
Definition toUpperCase (s : string) : string := map_string toUpperChar s.

(** [toLowerCase()]: the lower-case rendition of a string. *)
Definition toLowerCase (s : string) : string := map_string toLowerChar s.

Fixpoint all_chars (p : ascii -> bool) (s : string) : bool :=
  match s with
  | EmptyString => true
  | String c s' => p c && all_chars p s'
  end.

Fixpoint any_char (p : ascii -> bool) (s : string) : bool :=
  match s with
  | EmptyString => false
  | String c s' => p c || any_char p s'
  end.

Fixpoint contains (c : ascii) (s : string) : bool :=
  match s with
  | EmptyString => false
  | String c' s' => bool_decide (c = c') || contains c s'
  end.

Fixpoint trim_start (blank : ascii -> bool) (s : string) : string :=
  match s with
  | EmptyString => EmptyString
  | String c s' => if blank c then trim_start blank s' else s
  end.

Fixpoint trim_end (blank : ascii -> bool) (s : string) : string :=
  match s with
  | EmptyString => EmptyString
  | String c s' =>
      match trim_end blank s' with
      | EmptyString => if blank c then EmptyString else String c EmptyString
      | t => String c t
      end
  end.

(** Java's [String.trim()]: strips the characters up to U+0020 at both
    ends. *)
Definition trim (s : string) : string :=
  trim_end (between 0 32) (trim_start (between 0 32) s).

(** ECMAScript's [String.prototype.trim()]. *)
Definition js_trim (s : string) : string :=
  trim_end isJsWhiteSpace (trim_start isJsWhiteSpace s).

(** Java's [String.isBlank()]. *)
Definition isBlank (s : string) : bool := all_chars isWhitespace s.

(** The string is over Basic Latin. *)
Definition basicLatin (s : string) : bool := all_chars isBasicLatin s.

End Chars.

(** ** service/PinValidator.java *)

Module PinValidator.
Import Chars.

Definition PIN_CHARACTERS : string := "ABCDEFGHJKLMNPQRSTUVWXYZ23456789".
Definition PIN_LENGTH : nat := 6.

(** Membership in [ALLOWED_CHARACTER_SET]. *)
Definition allowed (c : ascii) : bool := contains c PIN_CHARACTERS.

(** [normalize(pin)]: no case mutation happens here. *)
Definition normalize (pin : string) : string := trim (NFKC pin).

(** The [for] loop of [isValid] over the normalised string. *)
Fixpoint check_characters (normalized : string) : bool :=
  match normalized with
  | EmptyString => true
  | String character rest =>
      if isWhitespace character then false
      else if isISOControl character || isSurrogate character then false
      else if isLetter character && isLowerCase character then false
      else if negb (allowed character) then false
      else check_characters rest
  end.

(** [isValid(pin)]; [None] is [null]. *)
Definition isValid (pin : option string) : bool :=
  match pin with
  | None => false
  | Some pin =>
      if isBlank pin then false
      else
        let normalized := normalize pin in
        if negb (String.length normalized =? PIN_LENGTH)%nat then false
        else check_characters normalized
  end.

(** [canonicalize(pin)]. *)
Definition canonicalize (pin : string) : string :=
  toUpperCase (trim (NFKC pin)).

End PinValidator.

(** ** lib/ValidatePin.ts *)

Module ValidatePin.
Import Chars.

Definition DEFAULT_PIN_CHARS : string := "ABCDEFGHJKLMNPQRSTUVWXYZ23456789".
Definition PIN_LENGTH : nat := 6.

(** [validatePin(pin)]. *)
Definition validatePin (pin : string) : bool :=
  let candidate := NFKC (toUpperCase (js_trim pin)) in
  if negb (String.length candidate =? PIN_LENGTH)%nat then false
  else all_chars (fun c => contains c DEFAULT_PIN_CHARS) candidate.

End ValidatePin.

(** ** The key-value store behind the registry *)

Module Redis.

(** What a key holds: a hash or a string. *)
Inductive Value : Type :=
| VHash (fields : gmap string string)
| VString (s : string).

(** A key's value and its time to live in seconds, if one was set.  The
    passing of time is not part of the model. *)
Record Entry : Type := mkEntry {
  value : Value;
  ttl : option Z
}.

Abbreviation Store := (gmap string Entry).

Definition exists_ (key : string) (db : Store) : bool :=
  bool_decide (is_Some (db !! key)).

(** [HSET key field value ...] with the fields of [m]; a key that holds
    a string makes Jedis throw. *)
Definition hset_all (key : string) (m : gmap string string) (db : Store) : result Store :=
  match db !! key with
  | None => ret (<[key := {| value := VHash m; ttl := None |}]> db)
  | Some {| value := VHash h; ttl := t |} =>
      ret (<[key := {| value := VHash (m ∪ h); ttl := t |}]> db)
  | Some {| value := VString _ |} => throw JedisDataException
  end.

Definition hset (key field v : string) (db : Store) : result Store :=
  hset_all key {[field := v]} db.

Definition expire (key : string) (seconds : Z) (db : Store) : Store :=
  match db !! key with
  | Some e => <[key := {| value := value e; ttl := Some seconds |}]> db
  | None => db
  end.

Definition setex (key : string) (seconds : Z) (v : string) (db : Store) : Store :=
  <[key := {| value := VString v; ttl := Some seconds |}]> db.

(** [GET key]: [None] is Java's [null]. *)
Definition get (key : string) (db : Store) : result (option string) :=
  match db !! key with
  | None => ret None
  | Some {| value := VString s |} => ret (Some s)
  | Some {| value := VHash _ |} => throw JedisDataException
  end.

Definition hgetAll (key : string) (db : Store) : result (gmap string string) :=
  match db !! key with
  | None => ret ∅
  | Some {| value := VHash h |} => ret h
  | Some {| value := VString _ |} => throw JedisDataException
  end.

Definition del (key : string) (db : Store) : Store := delete key db.

End Redis.

(** ** service/PinGenerator.java *)

Module PinGenerator.

Definition PIN_CHARS : string := "ABCDEFGHJKLMNPQRSTUVWXYZ23456789".
Definition PIN_LENGTH : nat := 6.

(** The [SecureRandom]: [rnd k] stands for what its [k]-th draw yields,
    and [nextInt(bound)] brings it into [[0, bound)]. *)
Definition nextInt (rnd : nat -> nat) (k : nat) (bound : nat) : nat :=
  (rnd k mod bound)%nat.

Definition charAt (s : string) (i : nat) : ascii :=
  default "000"%char (String.get i s).

(** The loop of [generate()]: [n] characters from draw [k] on. *)
Fixpoint generate_from (rnd : nat -> nat) (k n : nat) : string :=
  match n with
  | O => EmptyString
  | S n' =>
      String (charAt PIN_CHARS (nextInt rnd k (String.length PIN_CHARS)))
             (generate_from rnd (S k) n')
  end.

(** [generate()] when [k] draws were made before; it makes
    [PIN_LENGTH] more. *)
Definition generate (rnd : nat -> nat) (k : nat) : string :=
  generate_from rnd k PIN_LENGTH.

End PinGenerator.

(** ** repository/RedisSessionRepository.java *)

Module RedisSessionRepository.
Import Redis.

Definition TTL_SECONDS : Z := 600.
Definition PIN_KEY_PREFIX : string := "pin:".
Definition CONN_KEY_PREFIX : string := "connection:".

(** The repository: the store and the number of draws its generator has
    made. *)
Record Repo : Type := mkRepo {
  jedis : Store;
  draws : nat
}.

(** The [do ... while (jedis.exists(...))] of [createSession]: [None]
    when it is still going round after [turns] candidates. *)
Fixpoint freshPin (turns : nat) (rnd : nat -> nat) (k : nat) (db : Store)
  : option (string * nat) :=
  match turns with
  | O => None
  | S turns' =>
      let pin := PinGenerator.generate rnd k in
      let k' := (k + PinGenerator.PIN_LENGTH)%nat in
      if exists_ (PIN_KEY_PREFIX +:+ pin) db
      then freshPin turns' rnd k' db
      else Some (pin, k')
  end.

(** [createSession(senderConnectionId)], its loop run for at most
    [turns] candidates. *)
Definition createSession (turns : nat) (rnd : nat -> nat)
  (senderConnectionId : string) (r : Repo) : option (result (string * Repo)) :=
  match freshPin turns rnd (draws r) (jedis r) with
  | None => None
  | Some (pin, k') =>
      Some
        (let pinKey := PIN_KEY_PREFIX +:+ pin in
         let sessionData : gmap string string := {["senderConnId" := senderConnectionId]} in
         db1 ← hset_all pinKey sessionData (jedis r);
         let db2 := expire pinKey TTL_SECONDS db1 in
         (* Store reverse mapping *)
         let db3 := setex (CONN_KEY_PREFIX +:+ senderConnectionId) TTL_SECONDS pin db2 in
         ret (pin, {| jedis := db3; draws := k' |}))
  end.

Definition getSession (pin : string) (r : Repo) : result (gmap string string) :=
  hgetAll (PIN_KEY_PREFIX +:+ pin) (jedis r).

(** [joinSession(pin, receiverConnectionId)]. *)
Definition joinSession (pin receiverConnectionId : string) (r : Repo)
  : result (bool * Repo) :=
  let pinKey := PIN_KEY_PREFIX +:+ pin in
  if negb (exists_ pinKey (jedis r)) then ret (false, r)
  else
    db1 ← hset pinKey "receiverConnId" receiverConnectionId (jedis r);
    let db2 := expire pinKey TTL_SECONDS db1 in   (* Refresh TTL *)
    (* Store reverse mapping *)
    let db3 := setex (CONN_KEY_PREFIX +:+ receiverConnectionId) TTL_SECONDS pin db2 in
    ret (true, {| jedis := db3; draws := draws r |}).

Definition getPinByConnectionId (connectionId : string) (r : Repo)
  : result (option string) :=
  get (CONN_KEY_PREFIX +:+ connectionId) (jedis r).

(** [removeSession(pin)]; [None] is [null]. *)
Definition removeSession (pin : option string) (r : Repo) : result Repo :=
  match pin with
  | None => ret r
  | Some pin =>
      session ← getSession pin r;
      let db1 := match session !! "senderConnId" with
                 | Some sender => del (CONN_KEY_PREFIX +:+ sender) (jedis r)
                 | None => jedis r
                 end in
      let db2 := match session !! "receiverConnId" with
                 | Some receiver => del (CONN_KEY_PREFIX +:+ receiver) db1
                 | None => db1
                 end in
      ret {| jedis := del (PIN_KEY_PREFIX +:+ pin) db2; draws := draws r |}
  end.

End RedisSessionRepository.

(** ** WebSocketHandler.java *)

Module WebSocketHandler.
Import RedisSessionRepository.

(** The fields of an inbound JSON message the handler reads; the node
    as a whole is what a relay forwards. *)
Record JsonNode : Type := mkJsonNode {
  j_type : option string;
  j_action : option string;
  j_pin : option string;
  j_payload : option string
}.

(** The body of a [$default] event: [null], a text Jackson cannot
    parse, or a JSON object. *)
Inductive Body : Type :=
| NullBody
| Malformed
| Json (message : JsonNode).

(** The texts the handler posts to a connection.  [SError message] is
    [{"type": "error", "message": message}]: the object has no [code]
    field. *)
Inductive ServerMessage : Type :=
| SRegister (pin : string)
| SPeerJoined
| SJoined
| SError (message : string)
| SPeerLeft
| SRelayed (message : JsonNode).

(** The handler: its repository and its management-API client ([None]
    is [null]) with what was posted through it, oldest first. *)
Record Handler : Type := mkHandler {
  sessionRepository : Repo;
  apiClient : option (list (string * ServerMessage))
}.

Definition set_sessionRepository (r : Repo) (h : Handler) : Handler :=
  {| sessionRepository := r; apiClient := apiClient h |}.

(** [sendMessage(connectionId, data)]; a [null] connection id makes the
    post fail, which is caught and logged. *)
Definition sendMessage (connectionId : option string) (data : ServerMessage)
  : ST Handler unit := fun h =>
  match apiClient h, connectionId with
  | Some posted, Some c =>
      (inr tt, {| sessionRepository := sessionRepository h;
                  apiClient := Some (posted ++ [(c, data)]) |})
  | _, _ => (inr tt, h)
  end.

(** A repository call that may throw and leaves a new repository. *)
Definition repo_call {A} (call : Repo -> result (A * Repo)) : ST Handler A := fun h =>
  match call (sessionRepository h) with
  | inl e => (inl e, h)
  | inr (a, r) => (inr a, set_sessionRepository r h)
  end.

(** A repository call that only reads. *)
Definition repo_read {A} (call : Repo -> result A) : ST Handler A := fun h =>
  (call (sessionRepository h), h).

(** [targetId = connectionId.equals(sender) ? receiver : sender]. *)
Definition otherParty (connectionId : string) (session : gmap string string)
  : option string :=
  let sender := session !! "senderConnId" in
  let receiver := session !! "receiverConnId" in
  if bool_decide (sender = Some connectionId) then receiver else sender.

(** [relayMessage(fromConnectionId, messageData, type)]. *)
Definition relayMessage (fromConnectionId : string) (messageData : JsonNode)
  : ST Handler unit :=
  pin ← repo_read (getPinByConnectionId fromConnectionId);
  if PinValidator.isValid pin
  then
    session ← repo_read (getSession (default EmptyString pin));
    match otherParty fromConnectionId session with
    | Some targetId => sendMessage (Some targetId) (SRelayed messageData)
    | None => skip
    end
  else skip.

(** [handleDisconnect(connectionId)]. *)
Definition handleDisconnect (connectionId : string) : ST Handler unit :=
  pin ← repo_read (getPinByConnectionId connectionId);
  match pin with
  | Some p =>
      session ← repo_read (getSession p);
      (* Notify the other party *)
      _ ← match otherParty connectionId session with
          | Some targetId => sendMessage (Some targetId) SPeerLeft
          | None => skip
          end;
      repo_call (fun r => r' ← removeSession (Some p) r; ret (tt, r'))
  | None => skip
  end.

(** The route the handler takes: ["type"] if present, else ["action"],
    else ["unknown"]. *)
Definition messageType (message : JsonNode) : string :=
  match j_type message with
  | Some t => t
  | None => default "unknown" (j_action message)
  end.

(** [handleMessage(connectionId, body)], the loop of [createSession] run
    for at most [turns] candidates ([None]: it is still going round). *)
Definition handleMessage (turns : nat) (rnd : nat -> nat)
  (connectionId : string) (body : Body) (h : Handler)
  : option (result unit * Handler) :=
  match body with
  | NullBody => Some (inr tt, h)
  | Malformed => Some (inl JsonProcessingException, h)
  | Json message =>
      let type := messageType message in
      if bool_decide (type = "register") then
        match createSession turns rnd connectionId (sessionRepository h) with
        | None => None
        | Some created =>
            Some ((pin ← repo_call (fun _ => created);
                   sendMessage (Some connectionId) (SRegister pin)) h)
        end
      else if bool_decide (type = "join") then
        Some
          ((joinPin ← lift (match j_pin message with
                            | Some p => ret p
                            | None => throw NullPointerException
                            end);
            success ← repo_call (joinSession joinPin connectionId);
            if success : bool then
              session ← repo_read (getSession joinPin);
              let sender := session !! "senderConnId" in
              _ ← sendMessage sender SPeerJoined;
              sendMessage (Some connectionId) SJoined
            else
              sendMessage (Some connectionId) (SError "Invalid PIN")) h)
      else if bool_decide (type = "offer") || bool_decide (type = "answer")
              || bool_decide (type = "candidate") then
        Some (relayMessage connectionId message h)
      else Some (inr tt, h)
  end.

(** The events API Gateway delivers. *)
Inductive Route : Type :=
| Connect
| Disconnect
| Default (body : Body)
| OtherRoute.

(** [handleRequest(event, context)]: the status code of the response. *)
Definition handleRequest (turns : nat) (rnd : nat -> nat)
  (connectionId : string) (route : Route) (h : Handler) : option (Z * Handler) :=
  let respond (out : result unit * Handler) : Z * Handler :=
    match out with
    | (inr _, h') => (200, h')
    | (inl _, h') => (500, h')
    end in
  match route with
  | Connect => Some (200, h)
  | Disconnect => Some (respond (handleDisconnect connectionId h))
  | Default body => respond <$> handleMessage turns rnd connectionId body h
  | OtherRoute => Some (404, h)
  end.

End WebSocketHandler.

(** ** Histories of a sliding window *)

Module WindowTrace.
Import FlowControl.

(** The windows a [SlidingWindow] built with [cfg] can be after any
    sequence of its public operations, [markSent] being called only when
    [canSend()] holds. *)
Inductive reachable (cfg : FlowControlConfig) : SlidingWindow -> Prop :=
| reach_new : reachable cfg (new_SlidingWindow cfg)
| reach_markSent w chunkIndex now w' :
    reachable cfg w -> canSend w = true ->
    markSent chunkIndex now w = inr w' -> reachable cfg w'
| reach_onAck w chunkIndex :
    reachable cfg w -> reachable cfg (onAck chunkIndex w).1
| reach_onAckBatch w chunkIndices :
    reachable cfg w -> reachable cfg (onAckBatch chunkIndices w).1
| reach_pause w :
    reachable cfg w -> reachable cfg (pause w)
| reach_resume w :
    reachable cfg w -> reachable cfg (resume w).1
| reach_waitForSpace w waiter :
    reachable cfg w -> reachable cfg (waitForSpace waiter w).1
| reach_clear w :
    reachable cfg w -> reachable cfg (clear w).1.

(** What every reachable window satisfies. *)
Definition window_inv (cfg : FlowControlConfig) (w : SlidingWindow) : Prop :=
  config w = cfg
  /\ maxChunksInFlight w = maxOutstandingBytes cfg / chunkSize cfg
  /\ outstandingSize w <= maxChunksInFlight w.

(** A paused window on which the caller of [waitForSpace] with token 7
    is suspended. *)
Definition paused_with_waiter : SlidingWindow :=
  (waitForSpace 7%nat (pause (new_SlidingWindow DEFAULT_CONFIG))).1.

End WindowTrace.

(** ** Concrete sender states used below *)

Module SenderScenario.
Import ChunkProtocol Transport.

Definition open_channel : RTCDataChannel :=
  {| readyState := rs_open; bufferedAmount := 0;
     bufferedAmountLowThreshold := 0; outbox := [] |}.

Definition fresh_sender : Sender.Sender :=
  Sender.initialize open_channel (Sender.new_Sender Sender.DEFAULT_CONFIG).

Definition empty_file : Sender.File :=
  {| Sender.file_name := "empty.txt"; Sender.file_type := "text/plain";
     Sender.file_bytes := [] |}.

Definition one_byte_file : Sender.File :=
  {| Sender.file_name := "one.bin"; Sender.file_type := EmptyString;
     Sender.file_bytes := [xaa] |}.

(** The sender after [sendFile(empty_file)] at time 0 and everything
    that runs without a further event. *)
Definition sent_empty : Sender.Sender :=
  Sender.step (Sender.ESendFile empty_file) 0 fresh_sender.

(** The sender after [sendFile(one_byte_file)] at time 0: the read of
    chunk 0 is pending. *)
Definition reading_one_byte : Sender.Sender :=
  Sender.step (Sender.ESendFile one_byte_file) 0 fresh_sender.

(** The same sender after the read settled at time 1: chunk 0 is sent
    and awaits its ACK. *)
Definition sent_one_byte : Sender.Sender :=
  Sender.step (Sender.EReadSettled 0) 1 reading_one_byte.

(** A sender whose receiver asked for a pause before [sendFile] was
    called: its [sendLoop] is suspended in [waitForSpace]. *)
Definition suspended_sender : Sender.Sender :=
  Sender.step (Sender.ESendFile one_byte_file) 1
    (Sender.step (Sender.EMessage (MControl ChunkProtocol.pause)) 0 fresh_sender).

End SenderScenario.

(** ** Concrete receiver states used below *)

Module ReceiverScenario.
Import ChunkProtocol Transport.

(** An open channel with nothing sent yet. *)
Definition open_channel : RTCDataChannel :=
  {| readyState := rs_open; bufferedAmount := 0;
     bufferedAmountLowThreshold := 0; outbox := [] |}.

(** A receiver that was initialised and has handled the [file-meta]
    [meta] at time 0; no sink was granted (in-memory path). *)
Definition receiving (meta : FileMetadata) : Receiver.Receiver :=
  exec (Receiver.handleFileMetadata meta 0)
       (Receiver.initialize open_channel (Receiver.new_Receiver Receiver.DEFAULT_CONFIG)).

(** The same receiver after the user granted a file sink. *)
Definition streaming (meta : FileMetadata) : Receiver.Receiver :=
  Receiver.fileHandleGranted new_stream (receiving meta).

Definition two_chunk_meta : FileMetadata :=
  {| name := "a.bin"; size := 65537; mimeType := "application/octet-stream";
     totalChunks := 2 |}.

Definition one_chunk_meta : FileMetadata :=
  {| name := "a.bin"; size := 1; mimeType := "application/octet-stream";
     totalChunks := 1 |}.

(** The frame of chunk 0 with the one-byte payload [aa]. *)
Definition frame0 : ArrayBuffer := [x00; x00; x00; x00; x00; x00; x00; x01; xaa].

(** The in-memory receiver after it accepted [frame0]. *)
Definition after_chunk0 : Receiver.Receiver :=
  exec (Receiver.handleBinaryChunk frame0) (receiving two_chunk_meta).

Definition is_ack_for (i : Z) (f : Frame) : bool :=
  match f with
  | Text (MAck j) => bool_decide (j = i)
  | _ => false
  end.

(** The ACKs for index [i] the receiver has queued or sent so far. *)
Definition acks_for (i : Z) (r : Receiver.Receiver) : nat :=
  (length (filter (fun j => j = i) (Receiver.pendingAcks r))
   + length (filter (fun f => is_ack_for i f)
                    (from_option outbox [] (Receiver.dataChannel r))))%nat.

(** "Delivering [buf], a frame for [i], makes the receiver queue or send
    one more ACK for [i]". *)
Definition another_ack_sent (buf : ArrayBuffer) (i : Z) (r : Receiver.Receiver) : Prop :=
  (acks_for i r < acks_for i (exec (Receiver.handleBinaryChunk buf) r))%nat.

End ReceiverScenario.

(** ** Concrete registry states used below *)

Module RegistryScenario.
Import Redis RedisSessionRepository WebSocketHandler.

(** The first [6 * n] draws give index 0 (the letter A), the later ones
    index 1 (the letter B): [n] candidates AAAAAA, then BBBBBB. *)
Definition rnd_after (n : nat) (k : nat) : nat :=
  if (k <? PinGenerator.PIN_LENGTH * n)%nat then 0%nat else 1%nat.

(** A store in which the PIN AAAAAA is taken by a session of [sender]. *)
Definition taken_AAAAAA (sender : string) : Repo :=
  {| jedis := {[ PIN_KEY_PREFIX +:+ "AAAAAA" :=
                   {| value := VHash {[ "senderConnId" := sender ]};
                      ttl := Some TTL_SECONDS |} ]};
     draws := 0 |}.

(** The [j]-th candidate [createSession] draws on repository [r]. *)
Definition candidate (rnd : nat -> nat) (r : Repo) (j : nat) : string :=
  PinGenerator.generate rnd (draws r + PinGenerator.PIN_LENGTH * j).

Definition collides (rnd : nat -> nat) (r : Repo) (j : nat) : Prop :=
  exists_ (PIN_KEY_PREFIX +:+ candidate rnd r j) (jedis r) = true.

(** "After [budget] colliding candidates [createSession] gives up: if it
    ends at all, it ends with an exception". *)
Definition retry_budget_enforced (budget : nat) : Prop :=
  forall (turns : nat) (rnd : nat -> nat) (sender : string) (r : Repo)
         (out : result (string * Repo)),
    (forall j, (j < budget)%nat -> collides rnd r j) ->
    createSession turns rnd sender r = Some out ->
    exists e, out = inl e.

Definition empty_handler : Handler :=
  {| sessionRepository := {| jedis := ∅; draws := 0 |}; apiClient := Some [] |}.

Definition json (type : string) (pin : option string) : Body :=
  Json {| j_type := Some type; j_action := None; j_pin := pin; j_payload := None |}.

(** The handler after [event]; it stays as it is while the event is
    still being handled. *)
Definition after (connectionId : string) (body : Body) (h : Handler) : Handler :=
  match handleMessage 1 (rnd_after 1) connectionId body h with
  | Some (_, h') => h'
  | None => h
  end.

(** [conn-S] registered (and got AAAAAA), then [conn-R1] joined. *)
Definition paired : Handler :=
  after "conn-R1" (json "join" (Some "AAAAAA"))
    (after "conn-S" (json "register" None) empty_handler).

(** A field of the session stored under [pin]. *)
Definition sessionField (pin field : string) (h : Handler) : option string :=
  match getSession pin (sessionRepository h) with
  | inr session => session !! field
  | inl _ => None
  end.

(** What was posted to [connectionId]. *)
Definition postedTo (connectionId : string) (h : Handler) : list ServerMessage :=
  snd <$> filter (fun p => p.1 = connectionId) (default [] (apiClient h)).

Definition isError (m : ServerMessage) : bool :=
  match m with
  | SError _ => true
  | _ => false
  end.

(** "A join by [connectionId] on the paired [pin] is rejected: the
    stored receiver stays and the joiner is sent an error". *)
Definition join_rejected (connectionId pin : string) (h : Handler) : Prop :=
  let h' := after connectionId (json "join" (Some pin)) h in
  sessionField pin "receiverConnId" h' = sessionField pin "receiverConnId" h
  /\ exists m, m ∈ postedTo connectionId h' /\ isError m = true.

End RegistryScenario.

(** ** Histories of a received-ranges tracker *)

Module TrackerTrace.
Import FlowControl.

(** The trackers a [ReceivedRanges] built for [totalChunks] can be after
    any sequence of [markReceived] and [loadFromRanges]. *)
Inductive built (totalChunks : Z) : ReceivedRanges -> Prop :=
| built_new : built totalChunks (new_ReceivedRanges totalChunks)
| built_markReceived r chunkIndex :
    built totalChunks r -> built totalChunks (markReceived chunkIndex r)
| built_loadFromRanges r rs :
    built totalChunks r -> built totalChunks (loadFromRanges rs r).

(** [i] lies in one of the inclusive ranges of [rs]. *)
Definition in_ranges (i : Z) (rs : list (Z * Z)) : Prop :=
  exists a b, (a, b) ∈ rs /\ a <= i <= b.

(** The ranges are ascending, none is empty, and two neighbours are
    neither overlapping nor adjacent. *)
Fixpoint maximal_ranges (rs : list (Z * Z)) : Prop :=
  match rs with
  | [] => True
  | (a, b) :: rs' =>
      a <= b
      /\ match rs' with
         | [] => True
         | (a', _) :: _ => b + 1 < a'
         end
      /\ maximal_ranges rs'
  end.

End TrackerTrace.

(** ** Relating the state before and after stateful code *)

Module Hoare.

(** Whatever the outcome of [m], the state it leaves is related by [R]
    to the state it started from. *)
Definition preserves {S A : Type} (R : S -> S -> Prop) (m : ST S A) : Prop :=
  forall s, R s (m s).2.

End Hoare.

(** ** Observations on a receiver *)

Module ReceiverView.
Import ChunkProtocol Transport.

Definition ackOf (f : Frame) : option Z :=
  match f with
  | Text (MAck chunkIndex) => Some chunkIndex
  | _ => None
  end.

(** What the receiver's channel was given so far. *)
Definition sent (r : Receiver.Receiver) : list Frame :=
  from_option outbox [] (Receiver.dataChannel r).

(** The indices acknowledged or waiting to be: the ACKs sent, oldest
    first, then the pending ones. *)
Definition ackSequence (r : Receiver.Receiver) : list Z :=
  omap ackOf (sent r) ++ Receiver.pendingAcks r.

(** [r'] has the transfer bookkeeping of [r]: metadata, configuration,
    received ranges, byte count and acknowledgement sequence. *)
Definition same_bookkeeping (r r' : Receiver.Receiver) : Prop :=
  Receiver.config r' = Receiver.config r
  /\ Receiver.fileMeta r' = Receiver.fileMeta r
  /\ Receiver.receivedRanges r' = Receiver.receivedRanges r
  /\ Receiver.receivedBytes r' = Receiver.receivedBytes r
  /\ ackSequence r' = ackSequence r.

(** The receiver has a channel and it is open. *)
Definition channelOpen (r : Receiver.Receiver) : bool :=
  match Receiver.dataChannel r with
  | Some dc => bool_decide (readyState dc = rs_open)
  | None => false
  end.

(** The channel [dc] after it was given [fs]. *)
Definition given (fs : list Frame) (dc : RTCDataChannel) : RTCDataChannel :=
  {| readyState := readyState dc;
     bufferedAmount := bufferedAmount dc;
     bufferedAmountLowThreshold := bufferedAmountLowThreshold dc;
     outbox := outbox dc ++ fs |}.

End ReceiverView.

(** ** Histories of a sender *)

Module SenderTrace.
Import FlowControl.

(** The senders a [Sender] constructed with [cfg] can be after any
    sequence of [initialize] calls and events. *)
Inductive reachable (cfg : Sender.SenderConfig) : Sender.Sender -> Prop :=
| reach_new : reachable cfg (Sender.new_Sender cfg)
| reach_initialize s dc :
    reachable cfg s -> reachable cfg (Sender.initialize dc s)
| reach_step s ev now :
    reachable cfg s -> reachable cfg (Sender.step ev now s).

(** The sender after the events of [evs], each with its time. *)
Definition run (evs : list (Sender.Event * Z)) (s : Sender.Sender) : Sender.Sender :=
  foldl (fun s '(ev, now) => Sender.step ev now s) s evs.

Definition isSendFile (ev : Sender.Event) : bool :=
  match ev with
  | Sender.ESendFile _ => true
  | _ => false
  end.

(** The window holds no more chunks than may be in flight. *)
Definition bounded (w : SlidingWindow) : Prop :=
  outstandingSize w <= maxChunksInFlight w.

(** [w'] has the configuration of [w] and is bounded if [w] is. *)
Definition window_kept (w w' : SlidingWindow) : Prop :=
  config w' = config w
  /\ maxChunksInFlight w' = maxChunksInFlight w
  /\ (bounded w -> bounded w').

Definition sender_window_kept (s s' : Sender.Sender) : Prop :=
  window_kept (Sender.window s) (Sender.window s').

(** If [s] is cancelled then so is [s'], with the same pending reads
    and a channel that was given nothing. *)
Definition cancelled_kept (s s' : Sender.Sender) : Prop :=
  Sender.cancelled s = true ->
  Sender.cancelled s' = true
  /\ Sender.reads s' = Sender.reads s
  /\ Sender.dataChannel s' = Sender.dataChannel s.

(** The sender has a channel and it is open. *)
Definition channelOpen (s : Sender.Sender) : bool :=
  match Sender.dataChannel s with
  | Some dc => bool_decide (Transport.readyState dc = Transport.rs_open)
  | None => false
  end.

(** What the sender's channel was given so far. *)
Definition sent (s : Sender.Sender) : list ChunkProtocol.Frame :=
  from_option Transport.outbox [] (Sender.dataChannel s).

(** The sender was cancelled, nothing is in flight and no read is
    pending. *)
Definition quiet (s : Sender.Sender) : Prop :=
  Sender.cancelled s = true /\ outstandingChunks (Sender.window s) = ∅
  /\ Sender.reads s = [].

(** If [s] is quiet then so is [s'], and its channel was given nothing. *)
Definition quiet_kept (s s' : Sender.Sender) : Prop :=
  quiet s -> quiet s' /\ Sender.dataChannel s' = Sender.dataChannel s.

End SenderTrace.

(** ** Observations on the registry *)

Module RegistryView.
Import Redis RedisSessionRepository WebSocketHandler.

(** The store with the session [pin] of [sender] and the reverse entry
    of [sender] written, as [createSession] writes them. *)
Definition created (pin sender : string) (db : Store) : Store :=
  <[CONN_KEY_PREFIX +:+ sender := {| value := VString pin; ttl := Some TTL_SECONDS |}]>
    (<[PIN_KEY_PREFIX +:+ pin :=
         {| value := VHash {["senderConnId" := sender]}; ttl := Some TTL_SECONDS |}]> db).

(** The store with [receiver] written into the session [pin], whose
    fields were [fields], and the reverse entry of [receiver]. *)
Definition joined (pin receiver : string) (fields : gmap string string) (db : Store) : Store :=
  <[CONN_KEY_PREFIX +:+ receiver := {| value := VString pin; ttl := Some TTL_SECONDS |}]>
    (<[PIN_KEY_PREFIX +:+ pin :=
         {| value := VHash (<["receiverConnId" := receiver]> fields);
            ttl := Some TTL_SECONDS |}]> db).

(** The handler with [message] posted to [connectionId]. *)
Definition posts (connectionId : string) (message : ServerMessage) (h : Handler) : Handler :=
  {| sessionRepository := sessionRepository h;
     apiClient := (fun posted => posted ++ [(connectionId, message)]) <$> apiClient h |}.

(** The message types the handler relays. *)
Definition relayed (message : JsonNode) : Prop :=
  messageType message = "offer" \/ messageType message = "answer"
  \/ messageType message = "candidate".

(** The messages of [ms], each with the connection it came from, handled
    one after the other: how the last one ended, or the first that did
    not return normally. *)
Fixpoint handleMessages (turns : nat) (rnd : nat -> nat)
  (ms : list (string * JsonNode)) (h : Handler) : option (result unit * Handler) :=
  match ms with
  | [] => Some (inr tt, h)
  | (connectionId, message) :: ms' =>
      match handleMessage turns rnd connectionId (Json message) h with
      | Some (inr _, h') => handleMessages turns rnd ms' h'
      | other => other
      end
  end.

(** The handler with the messages of [l] posted, in this order. *)
Definition posts_all (l : list (string * ServerMessage)) (h : Handler) : Handler :=
  {| sessionRepository := sessionRepository h;
     apiClient := (fun posted => posted ++ l) <$> apiClient h |}.

(** The party of the session of [sender] and [receiver] that is not
    [connectionId]. *)
Definition peer (sender receiver connectionId : string) : string :=
  if bool_decide (connectionId = sender) then receiver else sender.

(** An [offer] with no payload. *)
Definition an_offer : JsonNode :=
  {| j_type := Some "offer"; j_action := None; j_pin := None; j_payload := None |}.

(** The connections whose reverse entry [removeSession] deletes with the
    session [fields]. *)
Definition parties (fields : gmap string string) (connectionId : string) : Prop :=
  fields !! "senderConnId" = Some connectionId
  \/ fields !! "receiverConnId" = Some connectionId.

(** The repository after [removeSession(pin)]; it stays as it is when
    the call throws. *)
Definition exec_remove (pin : string) (r : Repo) : Repo :=
  match removeSession (Some pin) r with
  | inr r' => r'
  | inl _ => r
  end.

End RegistryView.

(** ** Histories of a receiver *)

Module ReceiverTrace.
Import ChunkProtocol Transport.

(** The receiver after the binary frames [bufs] arrived, in this
    order. *)
Definition receive (bufs : list ArrayBuffer) (r : Receiver.Receiver) : Receiver.Receiver :=
  foldl (fun r buf => exec (Receiver.handleBinaryChunk buf) r) r bufs.

(** The frame [buf] is well formed and carries chunk [i] of the file
    whose chunks are [parts]. *)
Definition carries (parts : list (list byte)) (buf : ArrayBuffer) (i : nat) : Prop :=
  exists d, decodeChunk buf = inr d
            /\ chunkIndex d = Z.of_nat i
            /\ parts !! i = Some (contents (payload d)).

(** The channel, if there is one, is open. *)
Definition usable (r : Receiver.Receiver) : Prop :=
  forall dc, Receiver.dataChannel r = Some dc -> readyState dc = rs_open.

(** [r'] has the metadata, the sink, the stored chunks, the downloads
    and the received ranges of [r], and a usable channel if [r] has. *)
Definition keeps (r r' : Receiver.Receiver) : Prop :=
  Receiver.fileMeta r' = Receiver.fileMeta r
  /\ Receiver.writableStream r' = Receiver.writableStream r
  /\ Receiver.chunks r' = Receiver.chunks r
  /\ Receiver.downloads r' = Receiver.downloads r
  /\ Receiver.receivedRanges r' = Receiver.receivedRanges r
  /\ (usable r -> usable r').

(** The blob [assembleAndDownload] builds from the stored chunks. *)
Definition blob (chunks : gmap Z Uint8Array) : list byte :=
  concat (contents <$> omap (fun i => chunks !! i)
                            (merge_sort Z.le (fst <$> map_to_list chunks))).

(** Index [i] is marked as received. *)
Definition got (r : Receiver.Receiver) (i : Z) : Prop :=
  exists rr, Receiver.receivedRanges r = Some rr /\ i ∈ FlowControl.receivedSet rr.

(** A receiver without a sink that is taking in the file [meta] whose
    chunks are [parts], [ds] being what it downloaded before: until the
    file is complete it stores the chunks it has marked; once it is, it
    has downloaded the file. *)
Definition assembling (meta : FileMetadata) (parts : list (list byte))
  (ds : list (string * list byte)) (r : Receiver.Receiver) : Prop :=
  Receiver.fileMeta r = Some meta
  /\ Receiver.writableStream r = None
  /\ usable r
  /\ exists rr,
       Receiver.receivedRanges r = Some rr
       /\ FlowControl.rr_totalChunks rr = Z.of_nat (length parts)
       /\ (forall i, i ∈ FlowControl.receivedSet rr -> 0 <= i < Z.of_nat (length parts))
       /\ if FlowControl.isComplete rr
          then Receiver.downloads r = ds ++ [(name meta, concat parts)]
          else Receiver.downloads r = ds
               /\ forall i, contents <$> (Receiver.chunks r !! i)
                            = if bool_decide (i ∈ FlowControl.receivedSet rr)
                              then parts !! Z.to_nat i else None.

(** The frame of chunk 1 with the two-byte payload [bb cc]. *)
Definition frame1 : ArrayBuffer :=
  [x00; x00; x00; x01; x00; x00; x00; x02; xbb; xcc].

End ReceiverTrace.

(** * Properties *)

(** ** Codec lemmas *)

Section CodecFacts.
Import ChunkProtocol.

Lemma Z_of_byte_of_Z (z : Z) : Z_of_byte (byte_of_Z z) = z mod 256.
Proof.
  unfold Z_of_byte, byte_of_Z.
  assert (Hr : 0 <= z mod 256 < 256) by (apply Z.mod_pos_bound; lia).
  destruct (Byte.of_N (Z.to_N (z mod 256))) as [b|] eqn:E.
  - apply Byte.to_of_N in E. rewrite E. lia.
  - apply Byte.of_N_None_iff in E. lia.
Qed.

Lemma byte_of_Z_of_byte (b : byte) : byte_of_Z (Z_of_byte b) = b.
Proof. by destruct b. Qed.

Lemma be32_length (v : Z) : length (be32 v) = 4%nat.
Proof. reflexivity. Qed.

Lemma getUint32_be32 (v : Z) (tl : list byte) :
  getUint32 0 (be32 v ++ tl) = ret (ToUint32 v).
Proof.
  unfold getUint32, be32. cbn [drop app].
  rewrite !Z_of_byte_of_Z.
  assert (Hu : 0 <= ToUint32 v < 2 ^ 32) by (apply Z.mod_pos_bound; lia).
  set (u := ToUint32 v) in *.
  change 255 with (Z.ones 8).
  rewrite !Z.land_ones, !Z.shiftr_div_pow2 by lia.
  f_equal. change (2 ^ 8) with 256 in *.
  change (2 ^ 16) with 65536 in *. change (2 ^ 24) with 16777216 in *.
  change (2 ^ 32) with 4294967296 in *.
  Z.div_mod_to_equations. lia.
Qed.

End CodecFacts.

Section CodecRoundTrip.
Import ChunkProtocol.

Lemma contents_whole (p : list byte) : contents (new_Uint8Array p) = p.
Proof. unfold contents, new_Uint8Array; cbn. apply firstn_all. Qed.

Lemma blit_middle (a old src c : list byte) :
  length old = length src ->
  blit (length a) src (a ++ old ++ c) = ret (a ++ src ++ c).
Proof.
  intros Hlen. unfold blit.
  rewrite decide_True by (rewrite !length_app; lia).
  f_equal. rewrite take_app_length. do 2 f_equal.
  by rewrite drop_app_add, <- Hlen, drop_app_length.
Qed.

(** The frame [encodeChunk] builds: the two header words, then the
    payload bytes. *)
Lemma encodeChunk_frame (i : Z) (p : list byte) :
  encodeChunk i (new_Uint8Array p) = ret (be32 i ++ be32 (Z.of_nat (length p)) ++ p).
Proof.
  unfold encodeChunk, setUint32, new_ArrayBuffer.
  rewrite contents_whole. cbn [byteLength new_Uint8Array].
  change (Z.to_nat HEADER_SIZE) with 8%nat.
  change (blit 0 (be32 i) (replicate (8 + length p) x00))
    with (blit (length (@nil byte)) (be32 i)
            ([] ++ replicate 4 x00 ++ (replicate 4 x00 ++ replicate (length p) x00))).
  rewrite blit_middle by reflexivity.
  cbn [mbind result_bind ret mret result_ret].
  change (blit 4) with (blit (length (be32 i))).
  change ([] ++ be32 i ++ replicate 4 x00 ++ replicate (length p) x00)
    with (be32 i ++ replicate 4 x00 ++ replicate (length p) x00).
  rewrite blit_middle by reflexivity.
  cbn [mbind result_bind ret mret result_ret].
  change (blit 8) with (blit (length (be32 i ++ be32 (Z.of_nat (length p))))).
  rewrite (app_assoc (be32 i)).
  rewrite <- (app_nil_r (replicate (length p) x00)).
  rewrite blit_middle by apply length_replicate.
  by rewrite app_nil_r, <- app_assoc.
Qed.

Lemma getUint32_4_be32 (a v : Z) (tl : list byte) :
  getUint32 4 (be32 a ++ be32 v ++ tl) = ret (ToUint32 v).
Proof. exact (getUint32_be32 v tl). Qed.

(** C3. For every chunk index [0 <= i <= 2^32 - 1] and every byte string
    [p] of at most [CHUNK_SIZE] bytes, encoding then decoding succeeds and
    gives back the index [i] and a payload whose bytes are [p]. *)
Theorem decodeChunk_encodeChunk (i : Z) (p : list byte) :
  0 <= i <= 2 ^ 32 - 1 ->
  Z.of_nat (length p) <= CHUNK_SIZE ->
  (frame ← encodeChunk i (new_Uint8Array p);
   d ← decodeChunk frame;
   ret (chunkIndex d, contents (payload d))) = ret (i, p).
Proof.
  intros Hi Hp. rewrite encodeChunk_frame.
  cbn [mbind result_bind ret mret result_ret].
  unfold decodeChunk. rewrite getUint32_be32, getUint32_4_be32.
  cbn [mbind result_bind ret mret result_ret].
  assert (Hc : CHUNK_SIZE = 65536) by reflexivity.
  assert (Hl : ToUint32 (Z.of_nat (length p)) = Z.of_nat (length p)).
  { unfold ToUint32. apply Z.mod_small. change (2 ^ 32) with 4294967296. lia. }
  assert (Hx : ToUint32 i = i).
  { unfold ToUint32. apply Z.mod_small. lia. }
  rewrite Hl, Hx. change HEADER_SIZE with 8.
  rewrite decide_True by (rewrite !length_app, !be32_length; lia).
  unfold new_Uint8Array_at.
  rewrite decide_True by (rewrite !length_app, !be32_length; lia).
  cbn [mbind result_bind ret mret result_ret chunkIndex payload].
  unfold contents; cbn [byteLength byteOffset buffer].
  change (Z.to_nat 8) with (length (be32 i ++ be32 (Z.of_nat (length p)))).
  by rewrite app_assoc, drop_app_length, Nat2Z.id, firstn_all.
Qed.

(** Witness for C3: index 2^32 - 1 with a three-byte payload. *)
Lemma decodeChunk_encodeChunk_witness :
  (frame ← encodeChunk (2 ^ 32 - 1) (new_Uint8Array [x01; x02; xff]);
   d ← decodeChunk frame;
   ret (chunkIndex d, contents (payload d))) = ret (2 ^ 32 - 1, [x01; x02; xff]).
Proof.
  apply (decodeChunk_encodeChunk (2 ^ 32 - 1) [x01; x02; xff]).
  - lia.
  - vm_compute. discriminate.
Defined.

End CodecRoundTrip.


(** ** The receiver *)

Section ReceiverFacts.
Import ChunkProtocol Transport ReceiverScenario.

Example frame0_encoded : encodeChunk 0 (new_Uint8Array [xaa]) = ret frame0.
Proof. reflexivity. Qed.

Example frame0_decoded :
  (d ← decodeChunk frame0; ret (chunkIndex d, contents (payload d))) = ret (0, [xaa]).
Proof. reflexivity. Qed.

(** The in-memory path on three chunks delivered in the order 2, 0, 1:
    the blob is assembled in index order, three ACKs and the
    [transfer-complete] go out after the [ready]. *)
Example out_of_order_assembly :
  let meta := {| name := "a.bin"; size := 3; mimeType := "text/plain"; totalChunks := 3 |} in
  let frame i b := [x00; x00; x00; i; x00; x00; x00; x01; b] in
  let r := exec (_ ← Receiver.handleBinaryChunk (frame x02 xcc);
                 _ ← Receiver.handleBinaryChunk (frame x00 xaa);
                 Receiver.handleBinaryChunk (frame x01 xbb)) (receiving meta) in
  Receiver.downloads r = [("a.bin", [xaa; xbb; xcc])]
  /\ (outbox <$> Receiver.dataChannel r)
     = Some [Text (MControl ready); Text (MAck 2); Text (MAck 0); Text (MAck 1);
             Text (MTransferComplete true 3)].
Proof. split; vm_compute; reflexivity. Qed.

(** C10. A binary frame that arrives while no [file-meta] has been
    handled (no metadata, or no ranges tracker) is dropped: the message
    handler returns normally and the receiver is exactly as before. *)
Theorem chunk_before_metadata_dropped
  (r : Receiver.Receiver) (buf : ArrayBuffer) (now : Z) :
  Receiver.fileMeta r = None \/ Receiver.receivedRanges r = None ->
  Receiver.handleDataChannelMessage (Receiver.DArrayBuffer buf) now r = (inr tt, r).
Proof.
  intros H. cbn [Receiver.handleDataChannelMessage].
  unfold Receiver.handleBinaryChunk.
  destruct H as [-> | ->]; [reflexivity|].
  by destruct (Receiver.fileMeta r).
Qed.

(** Witness for C10: a fresh receiver given the frame of chunk 0. *)
Lemma chunk_before_metadata_dropped_witness :
  Receiver.handleDataChannelMessage (Receiver.DArrayBuffer frame0) 5
    (Receiver.new_Receiver Receiver.DEFAULT_CONFIG)
  = (inr tt, Receiver.new_Receiver Receiver.DEFAULT_CONFIG).
Proof.
  apply (chunk_before_metadata_dropped
           (Receiver.new_Receiver Receiver.DEFAULT_CONFIG) frame0 5).
  left. reflexivity.
Defined.

(** C5, as the code has it. A well-formed frame whose index is already
    in the received set is dropped without a trace: the handler returns
    the receiver unchanged, so the chunk is stored once, [receivedBytes]
    keeps its value, and no ACK is queued or sent for the duplicate. *)
Theorem duplicate_chunk_dropped
  (r : Receiver.Receiver) (buf : ArrayBuffer) (meta : FileMetadata)
  (ranges : FlowControl.ReceivedRanges) (d : DecodedChunk) :
  Receiver.fileMeta r = Some meta ->
  Receiver.receivedRanges r = Some ranges ->
  decodeChunk buf = inr d ->
  FlowControl.hasChunk (chunkIndex d) ranges = true ->
  Receiver.handleBinaryChunk buf r = (inr tt, r).
Proof.
  intros Hm Hr Hd Hdup. unfold Receiver.handleBinaryChunk, try_catch.
  rewrite Hm, Hr, Hd. unfold Receiver.acceptChunk. by rewrite Hdup.
Qed.

(** Witness for C5: chunk 0 delivered a second time. *)
Lemma duplicate_chunk_dropped_witness :
  Receiver.handleBinaryChunk frame0
    (exec (Receiver.handleBinaryChunk frame0) (receiving two_chunk_meta))
  = (inr tt, exec (Receiver.handleBinaryChunk frame0) (receiving two_chunk_meta)).
Proof.
  apply (duplicate_chunk_dropped
           (exec (Receiver.handleBinaryChunk frame0) (receiving two_chunk_meta))
           frame0 two_chunk_meta
           (FlowControl.markReceived 0 (FlowControl.new_ReceivedRanges 2))
           {| chunkIndex := 0;
              payload := {| buffer := frame0; byteOffset := 8; byteLength := 1 |} |}).
  - reflexivity.
  - vm_compute. reflexivity.
  - reflexivity.
  - vm_compute. reflexivity.
Defined.

(** Counterexample to C5 as stated: after chunk 0 was accepted (one ACK
    queued), delivering its frame again leaves the ACKs for index 0 at
    one; no second ACK is queued or sent. *)
Lemma duplicate_chunk_no_second_ack :
  (FlowControl.hasChunk 0 <$> Receiver.receivedRanges after_chunk0) = Some true
  /\ acks_for 0 after_chunk0 = 1%nat
  /\ ~ another_ack_sent frame0 0 after_chunk0.
Proof.
  split; [|split].
  - vm_compute. reflexivity.
  - vm_compute. reflexivity.
  - unfold another_ack_sent. vm_compute. lia.
Qed.

(** On the sink path, what [writeChunkToDisk] hands to the stream for a
    decoded chunk is the whole buffer under the payload view. *)
Lemma writeChunkToDisk_written
  (r : Receiver.Receiver) (w : FileSystemWritableFileStream)
  (meta : FileMetadata) (d : DecodedChunk) :
  Receiver.writableStream r = Some w -> closed w = false ->
  Receiver.fileMeta r = Some meta ->
  (written <$> Receiver.writableStream
     (exec (Receiver.writeChunkToDisk (chunkIndex d) (payload d)) r))
  = Some (written w ++ [(chunkIndex d * CHUNK_SIZE, buffer (payload d))]).
Proof.
  intros Hw Hc Hm.
  unfold exec, Receiver.writeChunkToDisk, Receiver.writeChunkToDisk_start,
    Receiver.writeChunkToDisk_rest, Receiver.stream_op, seek, write,
    get, mbind, ST_bind, ret, mret, result_ret.
  rewrite Hw, Hm. cbn. rewrite Hw, Hc. cbn. by rewrite firstn_all.
Qed.

(** The payload view [decodeChunk] returns lies on the frame itself. *)
Lemma decodeChunk_view (buf : ArrayBuffer) (d : DecodedChunk) :
  decodeChunk buf = inr d -> buffer (payload d) = buf /\ byteOffset (payload d) = 8%nat.
Proof.
  unfold decodeChunk. destruct (getUint32 0 buf) as [|i]; [discriminate|].
  destruct (getUint32 4 buf) as [|n]; [discriminate|].
  cbn [mbind result_bind]. case_decide; [|discriminate].
  unfold new_Uint8Array_at. case_decide; [|discriminate].
  cbn. intros [= <-]. done.
Qed.

(** C1, where the code departs from it. On the sink path the bytes
    written at offset 0 for chunk 0 are the whole nine-byte frame (the
    eight header bytes, then the payload byte), and not the one-byte
    decoded payload. *)
Theorem sink_write_carries_header :
  (d ← decodeChunk frame0; ret (contents (payload d))) = ret [xaa]
  /\ (written <$> Receiver.writableStream
        (exec (Receiver.handleBinaryChunk frame0) (streaming two_chunk_meta)))
     = Some [(0, frame0)]
  /\ frame0 <> [xaa].
Proof. split; [|split]; [reflexivity| vm_compute; reflexivity | discriminate]. Qed.

(** On the chunk that completes the transfer the sink gets nothing:
    [writeChunkToDisk] is suspended at its [seek] when [completeTransfer]
    calls [close()], so its [write] is refused; the sender is told the
    transfer is complete all the same. *)
Example sink_last_chunk_not_written :
  Receiver.writableStream
    (exec (Receiver.handleBinaryChunk frame0) (streaming one_chunk_meta))
  = Some {| position := 0; written := []; closed := true |}
  /\ (outbox <$> Receiver.dataChannel
        (exec (Receiver.handleBinaryChunk frame0) (streaming one_chunk_meta)))
     = Some [Text (MControl ready); Text (MAck 0); Text (MTransferComplete true 1)].
Proof. split; vm_compute; reflexivity. Qed.

End ReceiverFacts.

(** ** The sliding window *)

Section WindowFacts.
Import FlowControl WindowTrace.

Lemma notifyWaiters_outstanding (w : SlidingWindow) :
  outstandingChunks (notifyWaiters w).1 = outstandingChunks w
  /\ config (notifyWaiters w).1 = config w
  /\ maxChunksInFlight (notifyWaiters w).1 = maxChunksInFlight w.
Proof. unfold notifyWaiters. by destruct (notifyWaiters_loop w (waitQueue w)). Qed.

Lemma foldl_delete_size (l : list Z) (m : gmap Z Z) :
  (size (foldl (fun m idx => delete idx m) m l) <= size m)%nat.
Proof.
  revert m. induction l as [|i l IH]; intros m; cbn [foldl]; [lia|].
  etrans; [apply IH|]. rewrite map_size_delete. destruct (m !! i); unfold id; lia.
Qed.

(** A [markSent] done when [canSend()] holds does not throw. *)
Lemma markSent_canSend (chunkIndex now : Z) (w : SlidingWindow) :
  canSend w = true -> exists w', markSent chunkIndex now w = inr w'.
Proof.
  unfold canSend, markSent. intros [_ H%bool_decide_eq_true]%andb_true_iff.
  rewrite bool_decide_eq_false_2 by lia. eauto.
Qed.

Lemma reachable_inv (cfg : FlowControlConfig) (w : SlidingWindow) :
  0 < chunkSize cfg -> 0 <= maxOutstandingBytes cfg ->
  reachable cfg w -> window_inv cfg w.
Proof.
  intros Hc Hm. unfold window_inv, outstandingSize.
  induction 1 as [ | w i now w' _ IH Hcan Hmark | w i _ IH | w l _ IH
                   | w _ IH | w _ IH | w k _ IH | w _ IH ].
  - cbn. rewrite map_size_empty. repeat split. apply Z.div_pos; lia.
  - destruct IH as (IH1 & IH2 & IH3). unfold markSent in Hmark.
    case_bool_decide as Hfull; [discriminate|]. injection Hmark as <-. cbn.
    repeat split; try done. unfold outstandingSize in Hfull.
    rewrite map_size_insert. destruct (outstandingChunks w !! i); unfold id; lia.
  - destruct IH as (IH1 & IH2 & IH3). unfold onAck.
    destruct (notifyWaiters_outstanding
      (set_outstandingChunks (delete i (outstandingChunks w)) w)) as (-> & -> & ->).
    cbn. repeat split; try done.
    rewrite map_size_delete. destruct (outstandingChunks w !! i); unfold id; lia.
  - destruct IH as (IH1 & IH2 & IH3). unfold onAckBatch.
    destruct (notifyWaiters_outstanding
      (set_outstandingChunks
         (foldl (fun m idx => delete idx m) (outstandingChunks w) l) w)) as (-> & -> & ->).
    cbn. repeat split; try done.
    pose proof (foldl_delete_size l (outstandingChunks w)). lia.
  - exact IH.
  - unfold resume.
    by destruct (notifyWaiters_outstanding (set_paused false w)) as (-> & -> & ->).
  - unfold waitForSpace. by destruct (canSend w).
  - destruct IH as (IH1 & IH2 & IH3). cbn. rewrite map_size_empty.
    repeat split; try done. lia.
Qed.

(** C2. With a positive chunk size and a non-negative byte budget, every
    window reachable by [markSent] (called only when [canSend()] holds),
    [onAck], [onAckBatch], [pause], [resume], [waitForSpace] and [clear]
    has at most [maxOutstandingBytes] outstanding bytes. *)
Theorem outstandingBytes_bounded (cfg : FlowControlConfig) (w : SlidingWindow) :
  0 < chunkSize cfg -> 0 <= maxOutstandingBytes cfg ->
  reachable cfg w ->
  outstandingBytes w <= maxOutstandingBytes cfg.
Proof.
  intros Hc Hm Hr. destruct (reachable_inv cfg w Hc Hm Hr) as (H1 & H2 & H3).
  unfold outstandingBytes. rewrite H1.
  pose proof (Z.mul_div_le (maxOutstandingBytes cfg) (chunkSize cfg) Hc).
  rewrite H2 in H3. nia.
Qed.

(** Witness for C2: the default window after chunks 0 and 1 were sent
    and chunk 0 acknowledged. *)
Lemma outstandingBytes_bounded_witness :
  outstandingBytes
    (onAck 0 (set_outstandingChunks (<[1 := 11]> (<[0 := 10]> ∅))
                (new_SlidingWindow DEFAULT_CONFIG))).1
  <= maxOutstandingBytes DEFAULT_CONFIG.
Proof.
  apply (outstandingBytes_bounded DEFAULT_CONFIG).
  - reflexivity.
  - discriminate.
  - apply reach_onAck.
    apply (reach_markSent DEFAULT_CONFIG
             (set_outstandingChunks (<[0 := 10]> ∅) (new_SlidingWindow DEFAULT_CONFIG))
             1 11).
    + apply (reach_markSent DEFAULT_CONFIG (new_SlidingWindow DEFAULT_CONFIG) 0 10).
      * apply reach_new.
      * reflexivity.
      * reflexivity.
    + reflexivity.
    + reflexivity.
Defined.

(** [clear()] calls no waiter, whatever the queue holds. *)
Lemma clear_calls_nobody (w : SlidingWindow) : (clear w).2 = [].
Proof.
  unfold clear. cbn. generalize (waitQueue w). by induction l.
Qed.

(** C6, where the code departs from it. [clear()] on a paused window
    with waiter 7 suspended empties the outstanding set, unsets [paused]
    and empties the queue, but calls no waiter: the completion of waiter 7
    is never resolved. *)
Theorem clear_leaves_waiter_pending :
  waitQueue paused_with_waiter = [7%nat]
  /\ outstandingChunks (clear paused_with_waiter).1 = ∅
  /\ paused (clear paused_with_waiter).1 = false
  /\ waitQueue (clear paused_with_waiter).1 = []
  /\ (clear paused_with_waiter).2 = [].
Proof. repeat split. Qed.

End WindowFacts.

(** ** The sender *)

Section SenderFacts.
Import ChunkProtocol Transport SenderScenario.

(** The model sends and completes a non-empty file: after [sendFile]
    the [file-meta] is out and the read of chunk 0 is pending; when the
    read settles the chunk goes out, and its ACK resolves the promise. *)
Example one_byte_transfer :
  (outbox <$> Sender.dataChannel reading_one_byte)
  = Some [Text (MFileMeta (Sender.createFileMetadata one_byte_file))]
  /\ Sender.loop reading_one_byte = Sender.AwaitRead
  /\ (outbox <$> Sender.dataChannel sent_one_byte)
     = Some [Text (MFileMeta (Sender.createFileMetadata one_byte_file));
             Binary [x00; x00; x00; x00; x00; x00; x00; x01; xaa]]
  /\ Sender.promise sent_one_byte = Sender.Pending
  /\ Sender.promise (Sender.step (Sender.EMessage (MAck 0)) 2 sent_one_byte)
     = Sender.Resolved.
Proof. repeat split. Qed.

(** C4, where the code departs from it. After [sendFile] of a zero-byte
    file, [totalChunks] is 0, the only frame sent is the [file-meta]
    message, [sendLoop] has returned, and the promise [sendFile] returned
    is still pending; a [transfer-complete] from the receiver leaves it
    pending too. *)
Theorem sendFile_zero_bytes_pending :
  Sender.totalChunks sent_empty = 0
  /\ (outbox <$> Sender.dataChannel sent_empty)
     = Some [Text (MFileMeta (Sender.createFileMetadata empty_file))]
  /\ Sender.loop sent_empty = Sender.NotRunning
  /\ Sender.promise sent_empty = Sender.Pending
  /\ Sender.promise (Sender.step (Sender.EMessage (MTransferComplete true 0)) 1 sent_empty)
     = Sender.Pending.
Proof. repeat split. Qed.

(** The sender-side view of C6: [cancel()] on a sender whose [sendLoop]
    is suspended in [waitForSpace] rejects the promise and empties the
    window's queue, and the loop stays suspended on its waiter. *)
Lemma cancel_leaves_sendLoop_suspended :
  Sender.loop suspended_sender = Sender.AwaitSpace 0%nat
  /\ FlowControl.waitQueue (Sender.window suspended_sender) = [0%nat]
  /\ Sender.loop (Sender.step Sender.ECancel 2 suspended_sender) = Sender.AwaitSpace 0%nat
  /\ FlowControl.waitQueue (Sender.window (Sender.step Sender.ECancel 2 suspended_sender)) = []
  /\ Sender.promise (Sender.step Sender.ECancel 2 suspended_sender)
     = Sender.Rejected (Error "Transfer cancelled").
Proof. repeat split. Qed.

End SenderFacts.

(** ** The session registry *)

Section RegistryFacts.
Import Redis RedisSessionRepository WebSocketHandler RegistryScenario.

Example paired_session :
  sessionField "AAAAAA" "senderConnId" paired = Some "conn-S"
  /\ sessionField "AAAAAA" "receiverConnId" paired = Some "conn-R1"
  /\ apiClient paired
     = Some [("conn-S", SRegister "AAAAAA"); ("conn-S", SPeerJoined); ("conn-R1", SJoined)].
Proof. repeat split; vm_compute; reflexivity. Qed.

(** Counterexample to C7 as stated: on the session AAAAAA, paired with
    [conn-R1], a join by [conn-R2] returns [true], replaces the stored
    receiver by [conn-R2], and [conn-R2] is sent [joined], not an error. *)
Lemma second_join_not_rejected :
  sessionField "AAAAAA" "receiverConnId" paired = Some "conn-R1"
  /\ (r ← joinSession "AAAAAA" "conn-R2" (sessionRepository paired); ret r.1) = ret true
  /\ sessionField "AAAAAA" "receiverConnId"
       (after "conn-R2" (json "join" (Some "AAAAAA")) paired) = Some "conn-R2"
  /\ postedTo "conn-R2" (after "conn-R2" (json "join" (Some "AAAAAA")) paired) = [SJoined]
  /\ ~ join_rejected "conn-R2" "AAAAAA" paired.
Proof.
  split; [|split; [|split; [|split]]]; try (vm_compute; reflexivity).
  intros [H _]. vm_compute in H. discriminate.
Qed.

Lemma pin_key_not_conn_key (pin conn : string) :
  CONN_KEY_PREFIX +:+ conn <> PIN_KEY_PREFIX +:+ pin.
Proof. discriminate. Qed.

Lemma exists_lookup (key : string) (db : Store) (e : Entry) :
  db !! key = Some e -> exists_ key db = true.
Proof. intros H. unfold exists_. apply bool_decide_eq_true. by rewrite H. Qed.

(** [joinSession] on a key that holds a session: it returns [true], the
    stored receiver is the joiner, whatever was stored before, the
    session key and the joiner's reverse entry have the full time to
    live, and no other key is touched. *)
Lemma joinSession_stored (r : Repo) (pin conn : string)
  (fields : gmap string string) (t : option Z) :
  jedis r !! (PIN_KEY_PREFIX +:+ pin) = Some {| value := VHash fields; ttl := t |} ->
  exists r',
    joinSession pin conn r = ret (true, r')
    /\ getSession pin r' = ret (<["receiverConnId" := conn]> fields)
    /\ getPinByConnectionId conn r' = ret (Some pin)
    /\ jedis r' !! (PIN_KEY_PREFIX +:+ pin)
       = Some {| value := VHash (<["receiverConnId" := conn]> fields);
                 ttl := Some TTL_SECONDS |}
    /\ jedis r' !! (CONN_KEY_PREFIX +:+ conn)
       = Some {| value := VString pin; ttl := Some TTL_SECONDS |}
    /\ forall key, key <> PIN_KEY_PREFIX +:+ pin -> key <> CONN_KEY_PREFIX +:+ conn ->
         jedis r' !! key = jedis r !! key.
Proof.
  intros Hs. unfold joinSession, hset, hset_all.
  rewrite (exists_lookup _ _ _ Hs), Hs. cbn [negb mbind result_bind ret mret result_ret].
  eexists. split; [reflexivity|].
  unfold getSession, getPinByConnectionId, hgetAll, get, setex, expire. cbn [jedis].
  rewrite lookup_insert_eq, lookup_insert_eq.
  rewrite (lookup_insert_ne _ _ _ _ (pin_key_not_conn_key pin conn)).
  rewrite lookup_insert_eq. cbn [value].
  rewrite <- insert_union_singleton_l.
  split; [done|]. split; [done|]. split; [done|]. split; [done|].
  intros key Hp Hc. by rewrite !lookup_insert_ne.
Qed.

(** C7, as the code has it. A join on a session whose receiver is
    already set is accepted like the first: [joinSession] returns [true],
    the stored [receiverConnId] becomes the new connection, the time to
    live of the session key is set to [TTL_SECONDS] again, the joiner's
    reverse entry is written with the PIN and [TTL_SECONDS], no other key
    of the store is touched (the reverse entry of the replaced receiver
    stays), the sender is sent [peer-joined] and the joining client
    [joined], and the response has status 200.  No error is sent. *)
Theorem second_join_replaces_receiver
  (turns : nat) (rnd : nat -> nat) (h : Handler) (message : JsonNode)
  (pin conn sender old : string) (fields : gmap string string) (t : option Z)
  (posted : list (string * ServerMessage)) :
  messageType message = "join" ->
  j_pin message = Some pin ->
  jedis (sessionRepository h) !! (PIN_KEY_PREFIX +:+ pin)
    = Some {| value := VHash fields; ttl := t |} ->
  fields !! "senderConnId" = Some sender ->
  fields !! "receiverConnId" = Some old ->
  apiClient h = Some posted ->
  exists h',
    handleMessage turns rnd conn (Json message) h = Some (inr tt, h')
    /\ joinSession pin conn (sessionRepository h) = ret (true, sessionRepository h')
    /\ getSession pin (sessionRepository h') = ret (<["receiverConnId" := conn]> fields)
    /\ apiClient h' = Some (posted ++ [(sender, SPeerJoined); (conn, SJoined)])
    /\ handleRequest turns rnd conn (Default (Json message)) h = Some (200, h')
    /\ jedis (sessionRepository h') !! (PIN_KEY_PREFIX +:+ pin)
       = Some {| value := VHash (<["receiverConnId" := conn]> fields);
                 ttl := Some TTL_SECONDS |}
    /\ jedis (sessionRepository h') !! (CONN_KEY_PREFIX +:+ conn)
       = Some {| value := VString pin; ttl := Some TTL_SECONDS |}
    /\ forall key, key <> PIN_KEY_PREFIX +:+ pin -> key <> CONN_KEY_PREFIX +:+ conn ->
         jedis (sessionRepository h') !! key = jedis (sessionRepository h) !! key.
Proof.
  intros Hty Hpin Hs Hsender _ Hapi.
  destruct (joinSession_stored (sessionRepository h) pin conn fields t Hs)
    as (r' & Hjoin & Hget & _ & Hpinkey & Hconnkey & Hframe).
  exists {| sessionRepository := r';
            apiClient := Some (posted ++ [(sender, SPeerJoined); (conn, SJoined)]) |}.
  cbn [sessionRepository apiClient].
  assert (Hrun : handleMessage turns rnd conn (Json message) h
                 = Some (inr tt,
                         {| sessionRepository := r';
                            apiClient := Some (posted ++ [(sender, SPeerJoined);
                                                          (conn, SJoined)]) |})).
  { unfold handleMessage. rewrite Hty, Hpin.
    rewrite bool_decide_eq_false_2 by discriminate.
    rewrite bool_decide_eq_true_2 by reflexivity.
    unfold ret, mret, result_ret in Hjoin, Hget.
    unfold repo_call, repo_read, lift, sendMessage, mbind, ST_bind, ret, mret, result_ret.
    cbn beta iota. rewrite Hjoin.
    cbn [set_sessionRepository sessionRepository apiClient].
    rewrite Hget, lookup_insert_ne by discriminate. rewrite Hsender, Hapi.
    cbn [apiClient sessionRepository].
    by rewrite <- app_assoc. }
  split; [exact Hrun|]. split; [done|]. split; [done|]. split; [done|].
  split; [|done].
  unfold handleRequest. by rewrite Hrun.
Qed.

(** Witness for C7: the join of [conn-R2] on the paired session. *)
Lemma second_join_replaces_receiver_witness :
  exists h',
    handleMessage 0 (rnd_after 1) "conn-R2" (json "join" (Some "AAAAAA")) paired
      = Some (inr tt, h')
    /\ joinSession "AAAAAA" "conn-R2" (sessionRepository paired)
       = ret (true, sessionRepository h')
    /\ getSession "AAAAAA" (sessionRepository h')
       = ret (<["receiverConnId" := "conn-R2"]>
                (<["receiverConnId" := "conn-R1"]> {["senderConnId" := "conn-S"]}))
    /\ apiClient h'
       = Some ([("conn-S", SRegister "AAAAAA"); ("conn-S", SPeerJoined);
                ("conn-R1", SJoined)]
               ++ [("conn-S", SPeerJoined); ("conn-R2", SJoined)])
    /\ handleRequest 0 (rnd_after 1) "conn-R2"
         (Default (json "join" (Some "AAAAAA"))) paired = Some (200, h')
    /\ jedis (sessionRepository h') !! (PIN_KEY_PREFIX +:+ "AAAAAA")
       = Some {| value := VHash (<["receiverConnId" := "conn-R2"]>
                                   (<["receiverConnId" := "conn-R1"]>
                                      {["senderConnId" := "conn-S"]}));
                 ttl := Some TTL_SECONDS |}
    /\ jedis (sessionRepository h') !! (CONN_KEY_PREFIX +:+ "conn-R2")
       = Some {| value := VString "AAAAAA"; ttl := Some TTL_SECONDS |}
    /\ forall key, key <> PIN_KEY_PREFIX +:+ "AAAAAA" ->
         key <> CONN_KEY_PREFIX +:+ "conn-R2" ->
         jedis (sessionRepository h') !! key = jedis (sessionRepository paired) !! key.
Proof.
  apply (second_join_replaces_receiver 0 (rnd_after 1) paired
           {| j_type := Some "join"; j_action := None;
              j_pin := Some "AAAAAA"; j_payload := None |}
           "AAAAAA" "conn-R2" "conn-S" "conn-R1"
           (<["receiverConnId" := "conn-R1"]> {["senderConnId" := "conn-S"]})
           (Some TTL_SECONDS)).
  - reflexivity.
  - reflexivity.
  - vm_compute. reflexivity.
  - vm_compute. reflexivity.
  - vm_compute. reflexivity.
  - vm_compute. reflexivity.
Defined.

(** The loop of [createSession] passes over any number of taken
    candidates and stops at the first free one. *)
Lemma freshPin_first_free (rnd : nat -> nat) (db : Store) (n : nat) :
  forall (k turns : nat),
    (forall j, (j < n)%nat ->
       exists_ (PIN_KEY_PREFIX +:+ PinGenerator.generate rnd (k + PinGenerator.PIN_LENGTH * j)) db
       = true) ->
    exists_ (PIN_KEY_PREFIX +:+ PinGenerator.generate rnd (k + PinGenerator.PIN_LENGTH * n)) db
    = false ->
    (n < turns)%nat ->
    freshPin turns rnd k db
    = Some (PinGenerator.generate rnd (k + PinGenerator.PIN_LENGTH * n),
            (k + PinGenerator.PIN_LENGTH * n + PinGenerator.PIN_LENGTH)%nat).
Proof.
  induction n as [|n IH]; intros k turns Htaken Hfree Hturns;
    (destruct turns as [|turns]; [lia|]); cbn [freshPin].
  - rewrite Nat.mul_0_r, Nat.add_0_r in Hfree. rewrite Hfree.
    by rewrite Nat.mul_0_r, Nat.add_0_r.
  - pose proof (Htaken 0%nat ltac:(lia)) as H0.
    rewrite Nat.mul_0_r, Nat.add_0_r in H0. rewrite H0.
    rewrite (IH (k + PinGenerator.PIN_LENGTH)%nat turns).
    + do 3 f_equal; lia.
    + intros j Hj. specialize (Htaken (S j) ltac:(lia)).
      replace (k + PinGenerator.PIN_LENGTH + PinGenerator.PIN_LENGTH * j)%nat
        with (k + PinGenerator.PIN_LENGTH * S j)%nat by lia.
      exact Htaken.
    + replace (k + PinGenerator.PIN_LENGTH + PinGenerator.PIN_LENGTH * n)%nat
        with (k + PinGenerator.PIN_LENGTH * S n)%nat by lia.
      exact Hfree.
    + lia.
Qed.

(** [createSession] after [n] collisions, for any [n]. *)
Lemma createSession_after_collisions
  (turns n : nat) (rnd : nat -> nat) (sender : string) (r : Repo) :
  (forall j, (j < n)%nat -> collides rnd r j) ->
  ~ collides rnd r n ->
  (n < turns)%nat ->
  exists r',
    createSession turns rnd sender r = Some (ret (candidate rnd r n, r'))
    /\ getSession (candidate rnd r n) r' = ret {[ "senderConnId" := sender ]}
    /\ getPinByConnectionId sender r' = ret (Some (candidate rnd r n)).
Proof.
  unfold collides, candidate. intros Htaken Hfree Hturns.
  apply not_true_is_false in Hfree.
  unfold createSession.
  rewrite (freshPin_first_free rnd (jedis r) n (draws r) turns Htaken Hfree Hturns).
  set (pin := PinGenerator.generate rnd (draws r + PinGenerator.PIN_LENGTH * n)) in *.
  assert (Hnone : jedis r !! (PIN_KEY_PREFIX +:+ pin) = None).
  { unfold exists_ in Hfree. apply bool_decide_eq_false in Hfree.
    by apply eq_None_not_Some. }
  unfold hset_all. rewrite Hnone.
  unfold ret, mret, result_ret, mbind, result_bind.
  eexists. split; [reflexivity|].
  unfold getSession, getPinByConnectionId, hgetAll, get, setex, expire. cbn [jedis].
  rewrite lookup_insert_eq, lookup_insert_eq.
  rewrite (lookup_insert_ne _ _ _ _ (pin_key_not_conn_key pin sender)).
  by rewrite lookup_insert_eq.
Qed.

(** C8, as the code has it. [createSession] draws candidates until one
    is free and puts no bound on the attempts: when the first [n]
    candidates are taken and the next is free, it returns that one and
    stores the session, however large [n] is.  It has no failure for an
    exhausted budget. *)
Theorem createSession_retries_without_budget
  (turns n : nat) (rnd : nat -> nat) (sender : string) (r : Repo) :
  (forall j, (j < n)%nat -> collides rnd r j) ->
  ~ collides rnd r n ->
  (n < turns)%nat ->
  exists r',
    createSession turns rnd sender r = Some (ret (candidate rnd r n, r'))
    /\ getSession (candidate rnd r n) r' = ret {[ "senderConnId" := sender ]}
    /\ getPinByConnectionId sender r' = ret (Some (candidate rnd r n)).
Proof. apply createSession_after_collisions. Qed.

Lemma rnd_after_collides (n : nat) (sender : string) (j : nat) :
  (j < n)%nat -> collides (rnd_after n) (taken_AAAAAA sender) j.
Proof.
  intros Hj. unfold collides, candidate, PinGenerator.generate.
  cbn [PinGenerator.generate_from PinGenerator.PIN_LENGTH draws taken_AAAAAA Nat.add].
  unfold PinGenerator.nextInt, rnd_after, PinGenerator.PIN_LENGTH.
  repeat (match goal with
          | |- context [(?a <? ?b)%nat] =>
              let H := fresh in
              assert (H : (a <? b)%nat = true) by (apply Nat.ltb_lt; lia); rewrite H; clear H
          end).
  reflexivity.
Qed.

Lemma rnd_after_free (n : nat) (sender : string) :
  ~ collides (rnd_after n) (taken_AAAAAA sender) n.
Proof.
  unfold collides, candidate, PinGenerator.generate.
  cbn [PinGenerator.generate_from PinGenerator.PIN_LENGTH draws taken_AAAAAA Nat.add].
  unfold PinGenerator.nextInt, rnd_after, PinGenerator.PIN_LENGTH.
  repeat (match goal with
          | |- context [(?a <? ?b)%nat] =>
              let H := fresh in
              assert (H : (a <? b)%nat = false) by (apply Nat.ltb_ge; lia); rewrite H; clear H
          end).
  vm_compute. discriminate.
Qed.

(** Witness for C8: twenty taken candidates, then a free one. *)
Lemma createSession_retries_without_budget_witness :
  exists r',
    createSession 21 (rnd_after 20) "conn-S" (taken_AAAAAA "conn-0")
      = Some (ret (candidate (rnd_after 20) (taken_AAAAAA "conn-0") 20, r'))
    /\ getSession (candidate (rnd_after 20) (taken_AAAAAA "conn-0") 20) r'
       = ret {[ "senderConnId" := "conn-S" ]}
    /\ getPinByConnectionId "conn-S" r'
       = ret (Some (candidate (rnd_after 20) (taken_AAAAAA "conn-0") 20)).
Proof.
  apply (createSession_retries_without_budget 21 20 (rnd_after 20) "conn-S"
           (taken_AAAAAA "conn-0")).
  - intros j Hj. vm_compute in Hj. apply rnd_after_collides. lia.
  - apply rnd_after_free.
  - lia.
Defined.

Example candidate_after_20 :
  candidate (rnd_after 20) (taken_AAAAAA "conn-0") 20 = "BBBBBB".
Proof. vm_compute. reflexivity. Qed.

(** Counterexample to C8 as stated: no budget is enforced.  For every
    budget there is a run with that many collisions after which
    [createSession] returns a PIN. *)
Lemma createSession_no_retry_budget :
  ~ exists budget, (8 <= budget)%nat /\ retry_budget_enforced budget.
Proof.
  intros (budget & _ & Henf).
  destruct (createSession_after_collisions (S budget) budget (rnd_after budget)
              "conn-S" (taken_AAAAAA "conn-0")) as (r' & Hc & _).
  - intros j Hj. by apply rnd_after_collides.
  - apply rnd_after_free.
  - lia.
  - destruct (Henf (S budget) (rnd_after budget) "conn-S" (taken_AAAAAA "conn-0") _
                (fun j Hj => rnd_after_collides budget "conn-0" j Hj) Hc) as [e He].
    discriminate.
Qed.

End RegistryFacts.

(** ** PIN validation *)

Section PinFacts.
Import Chars.

(** What membership in the alphabet tells about a character. *)
Lemma allowed_char (c : ascii) :
  PinValidator.allowed c = true ->
  isWhitespace c = false /\ isISOControl c = false /\ isSurrogate c = false
  /\ isLowerCase c = false /\ between 0 32 c = false /\ isJsWhiteSpace c = false
  /\ toUpperChar (toLowerChar c) = c
  /\ between 0 32 (toLowerChar c) = false
  /\ isJsWhiteSpace (toLowerChar c) = false
  /\ isWhitespace (toLowerChar c) = false
  /\ isISOControl (toLowerChar c) = false
  /\ isSurrogate (toLowerChar c) = false
  /\ (isLetter c = true -> isLetter (toLowerChar c) && isLowerCase (toLowerChar c) = true)
  /\ (isLetter c = false -> toLowerChar c = c).
Proof.
  destruct c as [[] [] [] [] [] [] [] []]; vm_compute; intros H;
    try discriminate H; repeat split; intros; congruence.
Qed.

Lemma map_string_length (f : ascii -> ascii) (s : string) :
  String.length (map_string f s) = String.length s.
Proof. induction s; cbn; congruence. Qed.

Lemma trim_end_id (blank : ascii -> bool) (s : string) :
  all_chars (fun c => negb (blank c)) s = true -> trim_end blank s = s.
Proof.
  induction s as [|c s IH]; [done|]. cbn. intros [Hc Hs]%andb_true_iff.
  rewrite (IH Hs). destruct s; [|done]. by rewrite (proj1 (negb_true_iff _) Hc).
Qed.

Lemma trim_start_id (blank : ascii -> bool) (s : string) :
  all_chars (fun c => negb (blank c)) s = true -> trim_start blank s = s.
Proof.
  destruct s as [|c s]; [done|]. cbn. intros [Hc _]%andb_true_iff.
  by rewrite (proj1 (negb_true_iff _) Hc).
Qed.

Lemma all_chars_impl (p q : ascii -> bool) (s : string) :
  (forall c, p c = true -> q c = true) ->
  all_chars p s = true -> all_chars q s = true.
Proof.
  intros Hpq. induction s as [|c s IH]; [done|]. cbn.
  intros [Hc Hs]%andb_true_iff. by rewrite (Hpq c Hc), (IH Hs).
Qed.

Lemma all_chars_map (p : ascii -> bool) (f : ascii -> ascii) (s : string) :
  all_chars p (map_string f s) = all_chars (fun c => p (f c)) s.
Proof. induction s as [|c s IH]; [done|]. cbn. by rewrite IH. Qed.

Lemma upper_lower_id (s : string) :
  all_chars PinValidator.allowed s = true -> toUpperCase (toLowerCase s) = s.
Proof.
  unfold toUpperCase, toLowerCase.
  induction s as [|c s IH]; [done|]. cbn [all_chars map_string].
  intros [Hc Hs]%andb_true_iff.
  rewrite (IH Hs). f_equal. by apply allowed_char.
Qed.

(** Java's [trim] and ECMAScript's [trim] leave the lower-case rendition
    of a string over the alphabet as it is. *)
Lemma trim_lower_id (s : string) :
  all_chars PinValidator.allowed s = true ->
  trim (toLowerCase s) = toLowerCase s /\ js_trim (toLowerCase s) = toLowerCase s.
Proof.
  intros Hs. unfold trim, js_trim, toLowerCase.
  assert (H1 : all_chars (fun c => negb (between 0 32 c)) (map_string toLowerChar s) = true).
  { rewrite all_chars_map. revert Hs. apply all_chars_impl. intros c Hc.
    apply negb_true_iff. by apply allowed_char. }
  assert (H2 : all_chars (fun c => negb (isJsWhiteSpace c)) (map_string toLowerChar s) = true).
  { rewrite all_chars_map. revert Hs. apply all_chars_impl. intros c Hc.
    apply negb_true_iff. by apply allowed_char. }
  by rewrite !trim_start_id, !trim_end_id.
Qed.

Lemma trim_id (s : string) :
  all_chars PinValidator.allowed s = true -> trim s = s.
Proof.
  intros Hs. unfold trim.
  assert (H1 : all_chars (fun c => negb (between 0 32 c)) s = true).
  { revert Hs. apply all_chars_impl. intros c Hc.
    apply negb_true_iff. by apply allowed_char. }
  by rewrite !trim_start_id, !trim_end_id.
Qed.

Lemma check_characters_allowed (s : string) :
  all_chars PinValidator.allowed s = true -> PinValidator.check_characters s = true.
Proof.
  induction s as [|c s IH]; [done|]. cbn. intros [Hc Hs]%andb_true_iff.
  destruct (allowed_char c Hc) as (-> & -> & -> & -> & _).
  rewrite Hc, andb_false_r. cbn. by apply IH.
Qed.

Lemma check_characters_lower (s : string) :
  all_chars PinValidator.allowed s = true ->
  any_char isLetter s = true ->
  PinValidator.check_characters (toLowerCase s) = false.
Proof.
  unfold toLowerCase.
  induction s as [|c s IH]; [done|].
  cbn [all_chars any_char map_string PinValidator.check_characters].
  intros [Hc Hs]%andb_true_iff Hany.
  destruct (allowed_char c Hc)
    as (_ & _ & _ & Hlow & _ & _ & _ & _ & _ & -> & -> & -> & Hlet & Hdig).
  cbn [orb]. destruct (isLetter c) eqn:Hl.
  - by rewrite (Hlet eq_refl).
  - rewrite (Hdig eq_refl), Hl, Hc. cbn [andb negb]. by apply IH.
Qed.

Lemma isBlank_first (c : ascii) (s : string) :
  isWhitespace c = false -> isBlank (String c s) = false.
Proof. intros H. unfold isBlank. cbn. by rewrite H. Qed.

(** C9, as the code has it. The back-end validator normalises without
    case-folding: for every 6-character string over the alphabet that
    has a letter, the string is valid and its lower-case rendition is
    not.  Case-folding is done by [canonicalize], which gives the string
    back, and by the front-end [validatePin], which upper-cases before
    it checks and so accepts the lower-case rendition. *)
Theorem lower_case_pin_rejected_by_isValid (s : string) :
  String.length s = 6%nat ->
  all_chars PinValidator.allowed s = true ->
  any_char isLetter s = true ->
  PinValidator.isValid (Some s) = true
  /\ PinValidator.isValid (Some (toLowerCase s)) = false
  /\ PinValidator.canonicalize (toLowerCase s) = s
  /\ ValidatePin.validatePin (toLowerCase s) = true.
Proof.
  intros Hlen Hs Hany.
  destruct (trim_lower_id s Hs) as [Ht Hjt].
  destruct s as [|c s]; [discriminate|].
  pose proof Hs as Hs'. cbn in Hs'. apply andb_true_iff in Hs' as [Hc _].
  destruct (allowed_char c Hc)
    as (Hw & _ & _ & _ & _ & _ & _ & _ & _ & Hwl & _).
  repeat split.
  - unfold PinValidator.isValid. rewrite (isBlank_first c s Hw).
    unfold PinValidator.normalize, NFKC. rewrite (trim_id _ Hs), Hlen.
    cbn [Nat.eqb PinValidator.PIN_LENGTH negb]. by apply check_characters_allowed.
  - unfold PinValidator.isValid. cbn [toLowerCase map_string].
    rewrite (isBlank_first _ _ Hwl).
    unfold PinValidator.normalize, NFKC.
    change (String (toLowerChar c) (map_string toLowerChar s))
      with (toLowerCase (String c s)).
    rewrite Ht. unfold toLowerCase at 1. rewrite map_string_length, Hlen.
    cbn [Nat.eqb PinValidator.PIN_LENGTH negb]. by apply check_characters_lower.
  - unfold PinValidator.canonicalize, NFKC. rewrite Ht. by apply upper_lower_id.
  - unfold ValidatePin.validatePin, NFKC. rewrite Hjt, (upper_lower_id _ Hs), Hlen.
    cbn [Nat.eqb ValidatePin.PIN_LENGTH negb]. exact Hs.
Qed.

(** Witness for C9: the PIN [AB2CD3]. *)
Lemma lower_case_pin_rejected_by_isValid_witness :
  PinValidator.isValid (Some "AB2CD3") = true
  /\ PinValidator.isValid (Some (toLowerCase "AB2CD3")) = false
  /\ PinValidator.canonicalize (toLowerCase "AB2CD3") = "AB2CD3"
  /\ ValidatePin.validatePin (toLowerCase "AB2CD3") = true.
Proof.
  apply (lower_case_pin_rejected_by_isValid "AB2CD3"); reflexivity.
Defined.

Example lower_case_of_AB2CD3 : toLowerCase "AB2CD3" = "ab2cd3".
Proof. reflexivity. Qed.

(** Counterexample to C9 as stated: [234567] is a 6-character string
    over the alphabet, it is its own lower-case rendition, and the
    back-end validator judges it valid; and the front-end validator
    accepts the lower-case rendition [abcdef]. *)
Lemma lower_case_rendition_accepted :
  String.length "234567" = 6%nat
  /\ all_chars PinValidator.allowed "234567" = true
  /\ toLowerCase "234567" = "234567"
  /\ PinValidator.isValid (Some (toLowerCase "234567")) = true
  /\ toLowerCase "ABCDEF" = "abcdef"
  /\ ValidatePin.validatePin (toLowerCase "ABCDEF") = true.
Proof. repeat split. Qed.

End PinFacts.

(** * Further properties of the code *)

(** ** The frame codec *)

Section CodecMore.
Import ChunkProtocol.

Lemma Z_of_byte_range (b : byte) : 0 <= Z_of_byte b < 256.
Proof. unfold Z_of_byte. pose proof (Byte.to_N_bounded b). lia. Qed.

(** [be32] undoes the big-endian reading of four bytes. *)
Lemma be32_of_bytes (b0 b1 b2 b3 : byte) :
  be32 (Z_of_byte b0 * 2 ^ 24 + Z_of_byte b1 * 2 ^ 16 + Z_of_byte b2 * 2 ^ 8 + Z_of_byte b3)
  = [b0; b1; b2; b3].
Proof.
  pose proof (Z_of_byte_range b0). pose proof (Z_of_byte_range b1).
  pose proof (Z_of_byte_range b2). pose proof (Z_of_byte_range b3).
  unfold be32, ToUint32.
  change (2 ^ 8) with 256 in *. change (2 ^ 16) with 65536 in *.
  change (2 ^ 24) with 16777216 in *. change (2 ^ 32) with 4294967296 in *.
  rewrite Z.mod_small by lia.
  change 255 with (Z.ones 8).
  rewrite !Z.land_ones, !Z.shiftr_div_pow2 by lia.
  change (2 ^ 8) with 256 in *. change (2 ^ 16) with 65536 in *.
  change (2 ^ 24) with 16777216 in *.
  set (u := Z_of_byte b0 * 16777216 + Z_of_byte b1 * 65536 + Z_of_byte b2 * 256 + Z_of_byte b3).
  assert (E0 : (u / 16777216) mod 256 = Z_of_byte b0)
    by (subst u; Z.div_mod_to_equations; lia).
  assert (E1 : (u / 65536) mod 256 = Z_of_byte b1)
    by (subst u; Z.div_mod_to_equations; lia).
  assert (E2 : (u / 256) mod 256 = Z_of_byte b2)
    by (subst u; Z.div_mod_to_equations; lia).
  assert (E3 : u mod 256 = Z_of_byte b3)
    by (subst u; Z.div_mod_to_equations; lia).
  rewrite E0, E1, E2, E3. by rewrite !byte_of_Z_of_byte.
Qed.

(** The frame [encodeChunk] builds from any view that lies within its
    buffer. *)
Lemma encodeChunk_view (i : Z) (v : Uint8Array) :
  length (contents v) = byteLength v ->
  encodeChunk i v = ret (be32 i ++ be32 (Z.of_nat (byteLength v)) ++ contents v).
Proof.
  intros Hv. unfold encodeChunk, setUint32, new_ArrayBuffer.
  change (Z.to_nat HEADER_SIZE) with 8%nat.
  change (blit 0 (be32 i) (replicate (8 + byteLength v) x00))
    with (blit (length (@nil byte)) (be32 i)
            ([] ++ replicate 4 x00 ++ (replicate 4 x00 ++ replicate (byteLength v) x00))).
  rewrite blit_middle by reflexivity.
  cbn [mbind result_bind ret mret result_ret].
  change (blit 4) with (blit (length (be32 i))).
  change ([] ++ be32 i ++ replicate 4 x00 ++ replicate (byteLength v) x00)
    with (be32 i ++ replicate 4 x00 ++ replicate (byteLength v) x00).
  rewrite blit_middle by reflexivity.
  cbn [mbind result_bind ret mret result_ret].
  change (blit 8) with (blit (length (be32 i ++ be32 (Z.of_nat (byteLength v))))).
  rewrite (app_assoc (be32 i)).
  rewrite <- (app_nil_r (replicate (byteLength v) x00)).
  rewrite blit_middle by (by rewrite length_replicate).
  by rewrite app_nil_r, <- app_assoc.
Qed.

(** What a successful [decodeChunk] says about the frame it read. *)
Lemma decodeChunk_inr (buf : ArrayBuffer) (d : DecodedChunk) :
  decodeChunk buf = inr d ->
  exists b0 b1 b2 b3 b4 b5 b6 b7 rest,
    buf = b0 :: b1 :: b2 :: b3 :: b4 :: b5 :: b6 :: b7 :: rest
    /\ chunkIndex d
       = Z_of_byte b0 * 2 ^ 24 + Z_of_byte b1 * 2 ^ 16 + Z_of_byte b2 * 2 ^ 8 + Z_of_byte b3
    /\ Z.of_nat (length rest)
       = Z_of_byte b4 * 2 ^ 24 + Z_of_byte b5 * 2 ^ 16 + Z_of_byte b6 * 2 ^ 8 + Z_of_byte b7
    /\ payload d = {| buffer := buf; byteOffset := 8; byteLength := length rest |}.
Proof.
  unfold decodeChunk, getUint32. intros H.
  destruct buf as [|b0 [|b1 [|b2 [|b3 buf4]]]]; try discriminate H.
  cbn [drop mbind result_bind ret mret result_ret] in H.
  destruct buf4 as [|b4 [|b5 [|b6 [|b7 rest]]]]; try discriminate H.
  cbn [drop mbind result_bind ret mret result_ret] in H.
  case_decide as Hlen; [|discriminate H].
  unfold new_Uint8Array_at in H. case_decide as Hfit; [|discriminate H].
  cbn [mbind result_bind ret mret result_ret] in H. injection H as <-.
  exists b0, b1, b2, b3, b4, b5, b6, b7, rest. cbn [chunkIndex payload].
  change HEADER_SIZE with 8 in *. cbn [length] in Hlen.
  repeat split; [lia|]. f_equal. lia.
Qed.

(** X1. Re-encoding what [decodeChunk] returned gives back the frame it
    was given, byte for byte. *)
Theorem encodeChunk_decodeChunk (buf : ArrayBuffer) (d : DecodedChunk) :
  decodeChunk buf = inr d ->
  encodeChunk (chunkIndex d) (payload d) = ret buf.
Proof.
  intros (b0 & b1 & b2 & b3 & b4 & b5 & b6 & b7 & rest & -> & Hi & Hn & Hp)%decodeChunk_inr.
  assert (Hc : contents (payload d) = rest).
  { rewrite Hp. unfold contents. cbn [byteLength byteOffset buffer drop]. apply firstn_all. }
  rewrite encodeChunk_view by (rewrite Hc, Hp; reflexivity).
  rewrite Hc, Hi. rewrite Hp at 1. cbn [byteLength]. rewrite Hn.
  by rewrite !be32_of_bytes.
Qed.

(** Witness for X1: the frame of chunk 258 with two payload bytes. *)
Lemma encodeChunk_decodeChunk_witness :
  encodeChunk 258
    {| buffer := [x00; x00; x01; x02; x00; x00; x00; x02; xca; xfe];
       byteOffset := 8; byteLength := 2 |}
  = ret [x00; x00; x01; x02; x00; x00; x00; x02; xca; xfe].
Proof.
  apply (encodeChunk_decodeChunk
           [x00; x00; x01; x02; x00; x00; x00; x02; xca; xfe]
           {| chunkIndex := 258;
              payload := {| buffer := [x00; x00; x01; x02; x00; x00; x00; x02; xca; xfe];
                            byteOffset := 8; byteLength := 2 |} |}).
  reflexivity.
Defined.

(** X2. [decodeChunk] accepts a buffer exactly when it has the eight
    header bytes and its length field equals the number of bytes after
    them.  Then the index is an unsigned 32-bit number and the payload is
    every byte after the header.  A shorter buffer raises [RangeError];
    any other raises the length-mismatch [Error]. *)
Theorem decodeChunk_cases (buf : ArrayBuffer) :
  match decodeChunk buf with
  | inr d =>
      (8 <= length buf)%nat
      /\ getUint32 4 buf = ret (Z.of_nat (length buf) - 8)
      /\ 0 <= chunkIndex d < 2 ^ 32
      /\ contents (payload d) = drop 8 buf
  | inl e =>
      ((length buf < 8)%nat /\ e = RangeError)
      \/ ((8 <= length buf)%nat /\ e = Error "Payload length mismatch"
          /\ getUint32 4 buf <> ret (Z.of_nat (length buf) - 8))
  end.
Proof.
  destruct (decodeChunk buf) as [e|d] eqn:Hd.
  - unfold decodeChunk, getUint32 in *.
    destruct buf as [|b0 [|b1 [|b2 [|b3 buf4]]]];
      try (left; split; [cbn; lia | by injection Hd as <-]).
    cbn [drop mbind result_bind ret mret result_ret] in *.
    destruct buf4 as [|b4 [|b5 [|b6 [|b7 rest]]]];
      try (left; split; [cbn; lia | by injection Hd as <-]).
    cbn [drop mbind result_bind ret mret result_ret] in *.
    change HEADER_SIZE with 8 in *.
    case_decide as Hlen.
    + unfold new_Uint8Array_at in Hd. case_decide as Hfit; [discriminate Hd|].
      exfalso. apply Hfit. cbn [length] in *. lia.
    + right. injection Hd as <-. repeat split; [cbn; lia|].
      intros [= E]. apply Hlen. cbn [length] in *. lia.
  - destruct (decodeChunk_inr buf d Hd)
      as (b0 & b1 & b2 & b3 & b4 & b5 & b6 & b7 & rest & -> & Hi & Hn & Hp).
    pose proof (Z_of_byte_range b0). pose proof (Z_of_byte_range b1).
    pose proof (Z_of_byte_range b2). pose proof (Z_of_byte_range b3).
    repeat split.
    + cbn; lia.
    + unfold getUint32. cbn [drop]. unfold ret, mret, result_ret. f_equal.
      cbn [length]. lia.
    + lia.
    + rewrite Hi. change (2 ^ 8) with 256. change (2 ^ 16) with 65536.
      change (2 ^ 24) with 16777216. change (2 ^ 32) with 4294967296. lia.
    + rewrite Hp. unfold contents. cbn [byteLength byteOffset buffer drop]. apply firstn_all.
Qed.

(** X3. The index field holds the index modulo 2^32: for any integer
    index and any payload shorter than 2^32 bytes, decoding the encoded
    frame gives the index reduced modulo 2^32 and the payload. *)
Theorem decodeChunk_encodeChunk_wraps (i : Z) (p : list byte) :
  Z.of_nat (length p) < 2 ^ 32 ->
  (frame ← encodeChunk i (new_Uint8Array p);
   d ← decodeChunk frame;
   ret (chunkIndex d, contents (payload d))) = ret (i mod 2 ^ 32, p).
Proof.
  intros Hp. rewrite encodeChunk_frame.
  cbn [mbind result_bind ret mret result_ret].
  unfold decodeChunk. rewrite getUint32_be32, getUint32_4_be32.
  cbn [mbind result_bind ret mret result_ret].
  assert (Hl : ToUint32 (Z.of_nat (length p)) = Z.of_nat (length p)).
  { unfold ToUint32. apply Z.mod_small. lia. }
  rewrite Hl. change HEADER_SIZE with 8.
  rewrite decide_True by (rewrite !length_app, !be32_length; lia).
  unfold new_Uint8Array_at.
  rewrite decide_True by (rewrite !length_app, !be32_length; lia).
  cbn [mbind result_bind ret mret result_ret chunkIndex payload].
  unfold contents; cbn [byteLength byteOffset buffer].
  change (Z.to_nat 8) with (length (be32 i ++ be32 (Z.of_nat (length p)))).
  by rewrite app_assoc, drop_app_length, Nat2Z.id, firstn_all.
Qed.

(** Witness for X3: index 2^32 + 5 comes back as 5. *)
Lemma decodeChunk_encodeChunk_wraps_witness :
  (frame ← encodeChunk (2 ^ 32 + 5) (new_Uint8Array [xaa]);
   d ← decodeChunk frame;
   ret (chunkIndex d, contents (payload d))) = ret ((2 ^ 32 + 5) mod 2 ^ 32, [xaa]).
Proof.
  apply (decodeChunk_encodeChunk_wraps (2 ^ 32 + 5) [xaa]). reflexivity.
Defined.

Lemma calculateTotalChunks_bounds (fileSize : Z) :
  0 <= fileSize ->
  0 <= calculateTotalChunks fileSize
  /\ CHUNK_SIZE * (calculateTotalChunks fileSize - 1) < fileSize
     <= CHUNK_SIZE * calculateTotalChunks fileSize.
Proof.
  intros H. unfold calculateTotalChunks. change CHUNK_SIZE with 65536.
  Z.div_mod_to_equations. lia.
Qed.

(** X4. [calculateTotalChunks] is the ceiling of the size over
    [CHUNK_SIZE]: the chunks cover the file and the last one is not
    empty. *)
Theorem calculateTotalChunks_ceiling (fileSize : Z) :
  0 <= fileSize ->
  0 <= calculateTotalChunks fileSize
  /\ CHUNK_SIZE * (calculateTotalChunks fileSize - 1) < fileSize
     <= CHUNK_SIZE * calculateTotalChunks fileSize.
Proof. apply calculateTotalChunks_bounds. Qed.

(** Witness for X4: a file of [CHUNK_SIZE + 1] bytes has two chunks. *)
Lemma calculateTotalChunks_ceiling_witness :
  0 <= calculateTotalChunks 65537
  /\ CHUNK_SIZE * (calculateTotalChunks 65537 - 1) < 65537
     <= CHUNK_SIZE * calculateTotalChunks 65537.
Proof. apply (calculateTotalChunks_ceiling 65537). lia. Defined.

End CodecMore.

(** ** Slicing a file into chunks *)

Section SliceFacts.
Import ChunkProtocol.

(** The bytes [sendChunk] reads for a chunk that starts at [start]. *)
Lemma slice_take_drop (f : Sender.File) (start : Z) :
  0 <= start ->
  Sender.slice start (Z.min (start + CHUNK_SIZE) (Sender.file_size f)) f
  = take (Z.to_nat CHUNK_SIZE) (drop (Z.to_nat start) (Sender.file_bytes f)).
Proof.
  intros Hs. unfold Sender.slice, Sender.file_size.
  set (l := Sender.file_bytes f).
  destruct (Z.le_gt_cases (start + CHUNK_SIZE) (Z.of_nat (length l))) as [H|H].
  - rewrite Z.min_l by lia. f_equal. lia.
  - rewrite Z.min_r by lia.
    rewrite !take_ge; [done| |]; rewrite length_drop; lia.
Qed.

Lemma chunks_concat (l : list byte) (c k : nat) :
  concat ((fun i => take c (drop (i * c) l)) <$> seq 0 k) = take (k * c) l.
Proof.
  induction k as [|k IH]; [done|].
  rewrite seq_S, fmap_app, concat_app, IH. cbn [fmap list_fmap concat Nat.add].
  rewrite app_nil_r.
  replace (S k * c)%nat with (k * c + c)%nat by lia.
  by rewrite take_take_drop.
Qed.

(** X5. The chunks [sendChunk] reads, taken for the indices
    [0 .. totalChunks - 1] in order, are the file: concatenated they give
    its bytes, each has at least one and at most [CHUNK_SIZE] bytes. *)
Theorem slices_partition_file (f : Sender.File) :
  let chunk i :=
    Sender.slice (i * CHUNK_SIZE)
      (Z.min (i * CHUNK_SIZE + CHUNK_SIZE) (Sender.file_size f)) f in
  concat (chunk <$> seqZ 0 (calculateTotalChunks (Sender.file_size f)))
  = Sender.file_bytes f
  /\ forall i, 0 <= i < calculateTotalChunks (Sender.file_size f) ->
       0 < Z.of_nat (length (chunk i)) <= CHUNK_SIZE.
Proof.
  intros chunk. subst chunk. cbn beta.
  pose proof (calculateTotalChunks_bounds (Sender.file_size f)) as Hceil.
  assert (Hsize : 0 <= Sender.file_size f) by (unfold Sender.file_size; lia).
  specialize (Hceil Hsize). destruct Hceil as (Hn0 & Hlo & Hhi).
  set (n := calculateTotalChunks (Sender.file_size f)) in *.
  assert (HC : CHUNK_SIZE = 65536) by reflexivity.
  split.
  - unfold seqZ. rewrite <- list_fmap_compose.
    rewrite (list_fmap_ext _
               (fun i : nat => take (Z.to_nat CHUNK_SIZE)
                                 (drop (i * Z.to_nat CHUNK_SIZE) (Sender.file_bytes f)))).
    + rewrite chunks_concat. apply take_ge.
      unfold Sender.file_size in *. lia.
    + intros i x _. cbn. rewrite slice_take_drop by lia. do 2 f_equal. lia.
  - intros i Hi. rewrite slice_take_drop by lia.
    rewrite length_take, length_drop. unfold Sender.file_size in *. lia.
Qed.

End SliceFacts.

(** ** The sliding window, further *)

Section WindowMore.
Import FlowControl.

Lemma notifyWaiters_loop_cases (w : SlidingWindow) (q : list Waiter) :
  notifyWaiters_loop w q = if canSend w then ([], q) else (q, []).
Proof.
  induction q as [|waiter q IH]; cbn [notifyWaiters_loop]; [by destruct (canSend w)|].
  destruct (canSend w); [|done]. by rewrite IH.
Qed.

(** X6. A notification wakes every queued waiter, in queue order, when
    the window can send, and none otherwise; it never wakes only as many
    as fit. *)
Theorem notifyWaiters_all_or_none (w : SlidingWindow) :
  notifyWaiters w
  = if canSend w then (set_waitQueue [] w, waitQueue w) else (w, []).
Proof.
  unfold notifyWaiters. rewrite notifyWaiters_loop_cases.
  destruct (canSend w); [done|]. by destruct w.
Qed.

(** X7. An acknowledged chunk is never retransmitted: after [onAck] of
    an index, [getChunksForRetransmit] answers a NACK as before with that
    index left out. *)
Theorem retransmit_after_ack (missingChunks : list Z) (chunkIndex : Z) (w : SlidingWindow) :
  getChunksForRetransmit missingChunks (onAck chunkIndex w).1
  = filter (fun idx => idx <> chunkIndex) (getChunksForRetransmit missingChunks w).
Proof.
  unfold onAck, getChunksForRetransmit.
  destruct (notifyWaiters_outstanding
              (set_outstandingChunks (delete chunkIndex (outstandingChunks w)) w))
    as (-> & _ & _).
  cbn [outstandingChunks set_outstandingChunks].
  induction missingChunks as [|i l IH]; [done|].
  rewrite !filter_cons.
  destruct (decide (i = chunkIndex)) as [->|Hne].
  - rewrite lookup_delete_eq.
    rewrite decide_False by (intros [? ?]; discriminate).
    destruct (decide (is_Some (outstandingChunks w !! chunkIndex))); [|done].
    rewrite filter_cons, decide_False by auto. done.
  - rewrite lookup_delete_ne by done.
    destruct (decide (is_Some (outstandingChunks w !! i))); [|done].
    rewrite filter_cons, decide_True by done. by rewrite IH.
Qed.

End WindowMore.

(** ** The received-ranges tracker *)

Section TrackerFacts.
Import FlowControl TrackerTrace.

Lemma in_ranges_app (i : Z) (rs1 rs2 : list (Z * Z)) :
  in_ranges i (rs1 ++ rs2) <-> in_ranges i rs1 \/ in_ranges i rs2.
Proof.
  unfold in_ranges. split.
  - intros (a & b & [H|H]%elem_of_app & Hab); [left|right]; eauto.
  - intros [(a & b & H & Hab)|(a & b & H & Hab)]; exists a, b; split; try done;
      apply elem_of_app; auto.
Qed.

Lemma in_ranges_singleton (i a b : Z) : in_ranges i [(a, b)] <-> a <= i <= b.
Proof.
  unfold in_ranges. split.
  - intros (a' & b' & H%list_elem_of_singleton & Hab). by injection H as -> ->.
  - intros H. exists a, b. split; [apply list_elem_of_singleton|]; done.
Qed.

Lemma in_ranges_nil (i : Z) : ~ in_ranges i [].
Proof. intros (a & b & H & _). by apply not_elem_of_nil in H. Qed.

(** The loop of [updateRanges] loses no index and invents none. *)
Lemma compress_cover (sorted : list Z) :
  forall (rangeStart rangeEnd : Z) (newRanges : list (Z * Z)) (i : Z),
    rangeStart <= rangeEnd ->
    in_ranges i (compress rangeStart rangeEnd sorted newRanges)
    <-> in_ranges i newRanges \/ rangeStart <= i <= rangeEnd \/ i ∈ sorted.
Proof.
  induction sorted as [|x l IH]; intros s e acc i Hse; cbn [compress].
  - rewrite in_ranges_app, in_ranges_singleton, elem_of_nil. tauto.
  - case_decide as Hx.
    + rewrite IH by lia. rewrite elem_of_cons. split; intros H; [|].
      * destruct H as [H|[H|H]]; auto.
        destruct (decide (i = x)); auto. right; left; lia.
      * destruct H as [H|[H|[H|H]]]; auto; right; left; lia.
    + rewrite IH by lia. rewrite in_ranges_app, in_ranges_singleton, elem_of_cons.
      split; intros H.
      * destruct H as [[H|H]|[H|H]]; auto. right; right; left; lia.
      * destruct H as [H|[H|[H|H]]]; auto. right; left; lia.
Qed.

Lemma compress_acc (sorted : list Z) :
  forall (s e : Z) (acc : list (Z * Z)),
    compress s e sorted acc = acc ++ compress s e sorted [].
Proof.
  induction sorted as [|x l IH]; intros s e acc; cbn [compress]; [done|].
  case_decide; [apply IH|]. cbn [app].
  rewrite IH, (IH x x [(s, e)]). by rewrite app_assoc.
Qed.

(** On ascending distinct indices the loop yields maximal ranges, the
    first of which starts at [rangeStart]. *)
Lemma compress_maximal (sorted : list Z) :
  forall (s e : Z),
    s <= e -> StronglySorted Z.lt (e :: sorted) ->
    maximal_ranges (compress s e sorted [])
    /\ exists b rs, compress s e sorted [] = (s, b) :: rs.
Proof.
  induction sorted as [|x l IH]; intros s e Hse Hsorted; cbn [compress].
  - split; [cbn; auto|]. by exists e, [].
  - apply StronglySorted_inv in Hsorted as [Hl Hall].
    apply Forall_cons in Hall as [Hex Hall].
    case_decide as Hx.
    + apply IH; [lia|]. done.
    + rewrite compress_acc. cbn [app].
      destruct (IH x x ltac:(lia) Hl) as (Hmax & b & rs & Heq).
      split; [|by eauto]. rewrite Heq in *. cbn [maximal_ranges] in *.
      repeat split; try tauto; lia.
Qed.

Lemma sorted_nodup_strict (l : list Z) :
  Sorted Z.le l -> NoDup l -> StronglySorted Z.lt l.
Proof.
  intros Hs%(Sorted_StronglySorted Z.le) Hn.
  induction l as [|x l IH]; [constructor|].
  apply StronglySorted_inv in Hs as [Hs Hall].
  apply NoDup_cons in Hn as [Hx Hn].
  constructor; [by apply IH|].
  rewrite Forall_forall in *. intros y Hy.
  specialize (Hall y Hy). assert (x <> y) by (intros ->; done). lia.
Qed.

(** The indices [updateRanges] sorts: ascending, distinct, those of
    the set. *)
Lemma sorted_elements (s : gset Z) :
  StronglySorted Z.lt (merge_sort Z.le (elements s))
  /\ forall i, i ∈ merge_sort Z.le (elements s) <-> i ∈ s.
Proof.
  split.
  - apply sorted_nodup_strict; [apply (Sorted_merge_sort Z.le)|].
    rewrite merge_sort_Permutation. apply NoDup_elements.
  - intros i. rewrite merge_sort_Permutation. apply elem_of_elements.
Qed.

(** After [updateRanges] the ranges are maximal and cover exactly the
    set. *)
Lemma updateRanges_spec (r : ReceivedRanges) :
  receivedSet (updateRanges r) = receivedSet r
  /\ rr_totalChunks (updateRanges r) = rr_totalChunks r
  /\ (forall i, i ∈ receivedSet r <-> in_ranges i (ranges (updateRanges r)))
  /\ maximal_ranges (ranges (updateRanges r)).
Proof.
  unfold updateRanges. cbn [receivedSet rr_totalChunks ranges].
  destruct (sorted_elements (receivedSet r)) as [Hsorted Hmem].
  destruct (merge_sort Z.le (elements (receivedSet r))) as [|x l].
  - repeat split; try done.
    + intros Hi. apply Hmem in Hi. by apply not_elem_of_nil in Hi.
    + intros H. by apply in_ranges_nil in H.
  - repeat split.
    + intros Hi. apply compress_cover; [lia|]. apply Hmem in Hi.
      apply elem_of_cons in Hi as [->|Hi]; [right; left; lia | auto].
    + intros [H|[H|H]]%compress_cover; [by apply in_ranges_nil in H | | | lia].
      * apply Hmem. apply elem_of_cons. left. lia.
      * apply Hmem. apply elem_of_cons. by right.
    + by apply compress_maximal.
Qed.

(** The ranges of a tracker are those [updateRanges] computes from its
    set, and its [totalChunks] never changes. *)
Lemma built_ranges (totalChunks : Z) (r : ReceivedRanges) :
  built totalChunks r ->
  rr_totalChunks r = totalChunks /\ ranges r = ranges (updateRanges r).
Proof.
  induction 1 as [|r i _ [IH1 IH2]|r rs _ [IH1 IH2]].
  - split; [done|]. unfold updateRanges. cbn [receivedSet new_ReceivedRanges ranges].
    by rewrite elements_empty.
  - unfold markReceived. destruct (hasChunk i r); [done|]. by split.
  - unfold loadFromRanges. by split.
Qed.

(** X8. In every tracker built by [markReceived] and [loadFromRanges],
    the range list covers exactly the received indices, and its ranges are
    ascending, non-empty and neither overlapping nor adjacent. *)
Theorem ranges_cover_received (totalChunks : Z) (r : ReceivedRanges) :
  built totalChunks r ->
  (forall i, hasChunk i r = true <-> in_ranges i (getRanges r))
  /\ maximal_ranges (getRanges r).
Proof.
  intros [_ Heq]%built_ranges. unfold getRanges, hasChunk. rewrite Heq.
  destruct (updateRanges_spec r) as (_ & _ & Hcover & Hmax).
  split; [|done]. intros i. rewrite bool_decide_eq_true. apply Hcover.
Qed.

(** Witness for X8: indices 3, 1, 2, 7 marked on a tracker of ten. *)
Lemma ranges_cover_received_witness :
  (forall i,
     hasChunk i (markReceived 7 (markReceived 2 (markReceived 1 (markReceived 3
                   (new_ReceivedRanges 10))))) = true
     <-> in_ranges i (getRanges (markReceived 7 (markReceived 2 (markReceived 1
                        (markReceived 3 (new_ReceivedRanges 10)))))))
  /\ maximal_ranges
       (getRanges (markReceived 7 (markReceived 2 (markReceived 1 (markReceived 3
                     (new_ReceivedRanges 10)))))).
Proof.
  apply (ranges_cover_received 10).
  apply built_markReceived, built_markReceived, built_markReceived,
    built_markReceived, built_new.
Defined.

Example ranges_example :
  getRanges (markReceived 7 (markReceived 2 (markReceived 1 (markReceived 3
               (new_ReceivedRanges 10)))))
  = [(1, 3); (7, 7)].
Proof. vm_compute. reflexivity. Qed.

Lemma foldl_add_elem (l : list Z) :
  forall (s : gset Z) (i : Z),
    i ∈ foldl (fun s j => {[j]} ∪ s) s l <-> i ∈ s \/ i ∈ l.
Proof.
  induction l as [|x l IH]; intros s i; cbn [foldl].
  - rewrite elem_of_nil. tauto.
  - rewrite IH, elem_of_union, elem_of_singleton, elem_of_cons. tauto.
Qed.

(** The set [loadFromRanges] builds: what was there, and every index of
    every range. *)
Lemma foldl_add_ranges (rs : list (Z * Z)) :
  forall (s : gset Z) (i : Z),
    i ∈ foldl (fun s '(start, end_) =>
                 foldl (fun s j => {[j]} ∪ s) s (seqZ start (end_ - start + 1))) s rs
    <-> i ∈ s \/ in_ranges i rs.
Proof.
  induction rs as [|[a b] rs IH]; intros s i; cbn [foldl].
  - split; [auto|]. intros [H|H]; [done|]. by apply in_ranges_nil in H.
  - rewrite IH, foldl_add_elem, elem_of_seqZ.
    change ((a, b) :: rs) with ([(a, b)] ++ rs).
    rewrite in_ranges_app, in_ranges_singleton.
    split; intros H.
    + destruct H as [[H|H]|H]; auto. right; left; lia.
    + destruct H as [H|[H|H]]; auto. left; right; lia.
Qed.

(** X9. Loading the ranges a tracker reports into a fresh tracker for
    the same number of chunks gives the tracker back: same indices, same
    ranges. *)
Theorem loadFromRanges_getRanges (totalChunks : Z) (r : ReceivedRanges) :
  built totalChunks r ->
  loadFromRanges (getRanges r) (new_ReceivedRanges totalChunks) = r.
Proof.
  intros Hb. destruct (built_ranges totalChunks r Hb) as [Htotal Hranges].
  destruct (updateRanges_spec r) as (_ & _ & Hcover & _).
  unfold loadFromRanges, getRanges. cbn [ranges receivedSet rr_totalChunks new_ReceivedRanges].
  assert (Hset : foldl (fun s '(start, end_) =>
                          foldl (fun s j => {[j]} ∪ s) s (seqZ start (end_ - start + 1)))
                       (∅ : gset Z) (ranges r) = receivedSet r).
  { apply set_eq. intros i. rewrite foldl_add_ranges, Hranges, <- Hcover.
    rewrite elem_of_empty. tauto. }
  rewrite Hset. unfold updateRanges at 1. cbn [receivedSet rr_totalChunks].
  destruct r as [rs set total]. cbn [ranges receivedSet rr_totalChunks] in *.
  subst total. f_equal. exact (eq_sym Hranges).
Qed.

(** Witness for X9: the tracker with indices 3, 1, 2, 7 of ten. *)
Lemma loadFromRanges_getRanges_witness :
  loadFromRanges
    (getRanges (markReceived 7 (markReceived 2 (markReceived 1 (markReceived 3
                  (new_ReceivedRanges 10))))))
    (new_ReceivedRanges 10)
  = markReceived 7 (markReceived 2 (markReceived 1 (markReceived 3
      (new_ReceivedRanges 10)))).
Proof.
  apply (loadFromRanges_getRanges 10).
  apply built_markReceived, built_markReceived, built_markReceived,
    built_markReceived, built_new.
Defined.

Lemma markReceived_receivedSet (i : Z) (r : ReceivedRanges) :
  receivedSet (markReceived i r) = {[i]} ∪ receivedSet r.
Proof.
  unfold markReceived, hasChunk. case_bool_decide as Hi; [|done].
  apply set_eq. intros j. rewrite elem_of_union, elem_of_singleton.
  split; [auto|]. by intros [->|].
Qed.

Lemma markReceived_totalChunks (i : Z) (r : ReceivedRanges) :
  rr_totalChunks (markReceived i r) = rr_totalChunks r.
Proof. unfold markReceived. by destruct (hasChunk i r). Qed.

(** X10. As long as every received index lies in [[0, totalChunks)],
    [isComplete()] holds exactly when [getMissingChunks()] is empty. *)
Theorem isComplete_iff_nothing_missing (r : ReceivedRanges) :
  (forall i, i ∈ receivedSet r -> 0 <= i < rr_totalChunks r) ->
  isComplete r = true <-> getMissingChunks r = [].
Proof.
  intros Hin. unfold isComplete, getMissingChunks. rewrite bool_decide_eq_true.
  set (all := list_to_set (seqZ 0 (rr_totalChunks r)) : gset Z).
  assert (Hall : forall i, i ∈ all <-> 0 <= i < rr_totalChunks r).
  { intros i. unfold all. rewrite elem_of_list_to_set, elem_of_seqZ. lia. }
  assert (Hsize : size all = Z.to_nat (rr_totalChunks r)).
  { unfold all. rewrite size_list_to_set by apply NoDup_seqZ. apply length_seqZ. }
  assert (Hsub : receivedSet r ⊆ all).
  { intros i Hi. apply Hall. by apply Hin. }
  split.
  - intros Hge.
    assert (Heq : receivedSet r = all).
    { apply set_subseteq_size_eq; [done|]. lia. }
    apply elem_of_nil_inv. intros i [Hni Hi]%list_elem_of_filter.
    apply Hni. rewrite Heq. apply Hall. apply elem_of_seqZ in Hi. lia.
  - intros Hnil.
    assert (Hsup : all ⊆ receivedSet r).
    { intros i Hi. destruct (decide (i ∈ receivedSet r)) as [|Hni]; [done|].
      exfalso. assert (Hf : i ∈ filter (fun i => i ∉ receivedSet r) (seqZ 0 (rr_totalChunks r))).
      { apply list_elem_of_filter. split; [done|]. apply elem_of_seqZ. apply Hall in Hi. lia. }
      rewrite Hnil in Hf. by apply not_elem_of_nil in Hf. }
    apply subseteq_size in Hsup. lia.
Qed.

(** Witness for X10: both chunks of a two-chunk transfer received. *)
Lemma isComplete_iff_nothing_missing_witness :
  isComplete (markReceived 1 (markReceived 0 (new_ReceivedRanges 2))) = true
  <-> getMissingChunks (markReceived 1 (markReceived 0 (new_ReceivedRanges 2))) = [].
Proof.
  apply (isComplete_iff_nothing_missing
           (markReceived 1 (markReceived 0 (new_ReceivedRanges 2)))).
  intros i Hi. rewrite !markReceived_receivedSet in Hi.
  cbn [receivedSet rr_totalChunks new_ReceivedRanges] in *.
  rewrite markReceived_totalChunks, markReceived_totalChunks. cbn [rr_totalChunks new_ReceivedRanges].
  apply elem_of_union in Hi as [Hi|Hi]; [apply elem_of_singleton in Hi; lia|].
  apply elem_of_union in Hi as [Hi|Hi]; [apply elem_of_singleton in Hi; lia|].
  by apply elem_of_empty in Hi.
Defined.

(** Without that condition the two differ: an index beyond the last
    chunk counts towards completion. *)
Example isComplete_with_chunk_missing :
  isComplete (markReceived 5 (markReceived 0 (new_ReceivedRanges 2))) = true
  /\ getMissingChunks (markReceived 5 (markReceived 0 (new_ReceivedRanges 2))) = [1].
Proof. split; vm_compute; reflexivity. Qed.

End TrackerFacts.

(** ** Stateful code: composition rules *)

Section HoareRules.
Import Hoare.
Context {S : Type} (R : S -> S -> Prop) `{!PreOrder R}.

Lemma preserves_mret {A} (a : A) : preserves R (mret a : ST S A).
Proof. intros s. reflexivity. Qed.

Lemma preserves_skip : preserves R (skip : ST S unit).
Proof. intros s. reflexivity. Qed.

Lemma preserves_get : preserves R (get : ST S S).
Proof. intros s. reflexivity. Qed.


Lemma preserves_lift {A} (r : result A) : preserves R (lift r : ST S A).
Proof. intros s. reflexivity. Qed.

Lemma preserves_modify (f : S -> S) : (forall s, R s (f s)) -> preserves R (modify f).
Proof. intros H s. apply H. Qed.

Lemma preserves_bind {A B} (m : ST S A) (k : A -> ST S B) :
  preserves R m -> (forall a, preserves R (k a)) -> preserves R (m ≫= k).
Proof.
  intros Hm Hk s. unfold mbind, ST_bind. specialize (Hm s).
  destruct (m s) as [[e|a] s']; [exact Hm|].
  cbn [snd] in Hm. etrans; [exact Hm|]. apply Hk.
Qed.

Lemma preserves_try_catch (m : ST S unit) : preserves R m -> preserves R (try_catch m).
Proof. intros Hm s. unfold try_catch. specialize (Hm s). by destruct (m s) as [[e|a] s']. Qed.

Lemma preserves_detached (m : ST S unit) : preserves R m -> preserves R (detached m).
Proof. apply preserves_try_catch. Qed.

Lemma preserves_started (m : ST S bool) : preserves R m -> preserves R (started m).
Proof. intros Hm s. unfold started. specialize (Hm s). by destruct (m s) as [[e|a] s']. Qed.

Lemma preserves_settled (m : ST S bool) (k : bool -> ST S unit) :
  preserves R m -> (forall b, preserves R (k b)) -> preserves R (settled m k).
Proof.
  intros Hm Hk s. unfold settled. specialize (Hm s).
  destruct (m s) as [[e|b] s']; cbn [snd] in *; (etrans; [exact Hm|apply Hk]).
Qed.

Lemma settled_after (m : ST S bool) (k : bool -> ST S unit) (x s : S) :
  R x (m s).2 -> (forall b, preserves R (k b)) -> R x (settled m k s).2.
Proof.
  intros Hm Hk. unfold settled.
  destruct (m s) as [[e|b] s']; cbn [snd] in *; (etrans; [exact Hm|apply Hk]).
Qed.


Lemma preserves_if {A} (b : bool) (m1 m2 : ST S A) :
  preserves R m1 -> preserves R m2 -> preserves R (if b then m1 else m2).
Proof. by destruct b. Qed.

End HoareRules.

Lemma bind_get {S A} (k : S -> ST S A) (s : S) : (get ≫= k) s = k s s.
Proof. reflexivity. Qed.

Lemma bind_modify {S A} (f : S -> S) (k : unit -> ST S A) (s : S) :
  (modify f ≫= k) s = k tt (f s).
Proof. reflexivity. Qed.

Lemma bind_inr {S A B} (m : ST S A) (k : A -> ST S B) (s s' : S) (a : A) :
  m s = (inr a, s') -> (m ≫= k) s = k a s'.
Proof. intros H. unfold mbind, ST_bind. by rewrite H. Qed.

Lemma bind_inl {S A B} (m : ST S A) (k : A -> ST S B) (s s' : S) (e : exn) :
  m s = (inl e, s') -> (m ≫= k) s = (inl e, s').
Proof. intros H. unfold mbind, ST_bind. by rewrite H. Qed.

Lemma started_then_false {S} (m : ST S unit) (s : S) :
  started (_ ← m; mret false) s = (inr false, (m s).2).
Proof. unfold started, mbind, ST_bind. by destruct (m s) as [[e|[]] s']. Qed.

Lemma started_ext {S} (m m' : ST S bool) (s s' : S) :
  m s = m' s' -> started m s = started m' s'.
Proof. unfold started. by intros ->. Qed.

Lemma try_catch_run {S} (m : ST S unit) (s : S) : try_catch m s = (inr tt, (m s).2).
Proof. unfold try_catch. by destruct (m s) as [[e|[]] s']. Qed.

Tactic Notation "pdone" open_constr(lem) := apply lem; typeclasses eauto.
Ltac papply :=
  match goal with
  | |- ?R _ (snd (?m ?s)) =>
      change (R s (snd (m s))); apply (fun H : Hoare.preserves R m => H s)
  end.
Ltac pbind := apply preserves_bind; [typeclasses eauto | | intros ?].

(** ** The receiver, further *)

Section ReceiverMore.
Import ChunkProtocol Transport ReceiverView Hoare.

#[local] Instance same_bookkeeping_preorder : PreOrder same_bookkeeping.
Proof.
  split.
  - by intros r.
  - intros r1 r2 r3 (H1 & H2 & H3 & H4 & H5) (G1 & G2 & G3 & G4 & G5).
    unfold same_bookkeeping. by rewrite G1, G2, G3, G4, G5.
Qed.

Lemma channel_send_cases (f : Frame) (r : Receiver.Receiver) :
  Receiver.channel_send f r
  = match Receiver.dataChannel r with
    | None => (inl TypeError, r)
    | Some dc =>
        if decide (readyState dc = rs_open)
        then (inr tt, Receiver.set_dataChannel (Some (given [f] dc)) r)
        else (inl InvalidStateError, r)
    end.
Proof.
  unfold Receiver.channel_send, send. destruct (Receiver.dataChannel r) as [dc|]; [|done].
  by case_decide.
Qed.

(** Sending the ACKs of [l] one after the other on an open channel. *)
Lemma send_acks_open (l : list Z) :
  forall (r : Receiver.Receiver) (dc : RTCDataChannel),
    Receiver.dataChannel r = Some dc -> readyState dc = rs_open ->
    for_of l (fun chunkIndex => Receiver.channel_send (Text (MAck chunkIndex))) r
    = (inr tt, Receiver.set_dataChannel (Some (given (Text ∘ MAck <$> l) dc)) r).
Proof.
  induction l as [|i l IH]; intros r dc Hdc Hopen; cbn [for_of fmap list_fmap].
  - unfold skip, mret, ST_ret, given. rewrite app_nil_r. destruct r, dc.
    cbn in *. by subst.
  - unfold mbind, ST_bind. rewrite channel_send_cases, Hdc, decide_True by done.
    rewrite (IH _ (given [Text (MAck i)] dc)) by done.
    f_equal. unfold given. cbn. by rewrite <- app_assoc.
Qed.

(** What [sendAcks()] does, by the state of the channel. *)
Lemma sendAcks_run (r : Receiver.Receiver) :
  Receiver.sendAcks r
  = match Receiver.dataChannel r with
    | None => (inr tt, r)
    | Some dc =>
        if bool_decide (Receiver.pendingAcks r = []) then (inr tt, r)
        else if decide (readyState dc = rs_open)
        then (inr tt,
              Receiver.set_pendingAcks []
                (Receiver.set_dataChannel
                   (Some (given (Text ∘ MAck <$> Receiver.pendingAcks r) dc)) r))
        else (inl InvalidStateError, r)
    end.
Proof.
  unfold Receiver.sendAcks, mbind, ST_bind, get.
  destruct (Receiver.dataChannel r) as [dc|] eqn:Hdc; [|done].
  rewrite bool_decide_eq_false_2 by done. cbn [orb].
  case_bool_decide as Hp; [done|].
  case_decide as Hopen.
  - by rewrite (send_acks_open _ r dc Hdc Hopen).
  - destruct (Receiver.pendingAcks r) as [|i l]; [done|].
    cbn [for_of]. unfold mbind, ST_bind.
    by rewrite channel_send_cases, Hdc, decide_False.
Qed.

(** X11. [sendAcks()] does nothing without a channel or without pending
    ACKs; on an open channel it sends one [ack] per pending index, in
    order, and empties the list; on a channel that is not open it throws
    and leaves the pending ACKs in place. *)
Theorem sendAcks_cases (r : Receiver.Receiver) :
  Receiver.sendAcks r
  = match Receiver.dataChannel r with
    | None => (inr tt, r)
    | Some dc =>
        if bool_decide (Receiver.pendingAcks r = []) then (inr tt, r)
        else if decide (readyState dc = rs_open)
        then (inr tt,
              Receiver.set_pendingAcks []
                (Receiver.set_dataChannel
                   (Some (given (Text ∘ MAck <$> Receiver.pendingAcks r) dc)) r))
        else (inl InvalidStateError, r)
    end.
Proof. apply sendAcks_run. Qed.

Lemma omap_ackOf_acks (l : list Z) : omap ackOf (Text ∘ MAck <$> l) = l.
Proof. induction l as [|i l IH]; [done|]. cbn. by rewrite IH. Qed.

Lemma sendAcks_bookkeeping : preserves same_bookkeeping Receiver.sendAcks.
Proof.
  intros r. rewrite sendAcks_run.
  destruct (Receiver.dataChannel r) as [dc|] eqn:Hdc; [|reflexivity].
  case_bool_decide; [reflexivity|]. case_decide; [|reflexivity].
  cbn [snd]. repeat split. unfold ackSequence, sent. cbn. rewrite Hdc. cbn.
  by rewrite omap_app, omap_ackOf_acks, app_nil_r.
Qed.

Lemma channel_send_bookkeeping (f : Frame) :
  ackOf f = None -> preserves same_bookkeeping (Receiver.channel_send f).
Proof.
  intros Hf r. rewrite channel_send_cases.
  destruct (Receiver.dataChannel r) as [dc|] eqn:Hdc; [|reflexivity].
  case_decide; [|reflexivity]. cbn [snd]. repeat split.
  unfold ackSequence, sent. cbn. rewrite Hdc. cbn.
  rewrite omap_app. cbn. by rewrite Hf, app_nil_r.
Qed.

Lemma updateProgress_bookkeeping (st : TransferState.TransferStatus) :
  preserves same_bookkeeping (Receiver.updateProgress st).
Proof. intros r. unfold Receiver.updateProgress. by destruct (Receiver.onProgress r). Qed.

Lemma stream_op_bookkeeping op : preserves same_bookkeeping (Receiver.stream_op op).
Proof.
  intros r. unfold Receiver.stream_op.
  destruct (Receiver.writableStream r) as [w|]; [|reflexivity]. by destruct (op w).
Qed.

Lemma writeChunkToDisk_start_bookkeeping (i : Z) :
  preserves same_bookkeeping (Receiver.writeChunkToDisk_start i).
Proof.
  unfold Receiver.writeChunkToDisk_start.
  pbind; [pdone preserves_get|].
  apply preserves_if; [pdone preserves_mret|].
  pbind; [apply stream_op_bookkeeping|].
  pdone preserves_mret.
Qed.

Lemma writeChunkToDisk_rest_bookkeeping (p : Uint8Array) :
  preserves same_bookkeeping (Receiver.writeChunkToDisk_rest p).
Proof. apply stream_op_bookkeeping. Qed.

Lemma assembleAndDownload_bookkeeping :
  preserves same_bookkeeping Receiver.assembleAndDownload.
Proof.
  unfold Receiver.assembleAndDownload.
  pbind; [pdone preserves_get|].
  match goal with |- context [Receiver.fileMeta ?r] => destruct (Receiver.fileMeta r) end;
    [|pdone preserves_skip].
  pbind; [by apply preserves_modify|].
  pbind; [by apply preserves_modify|].
  apply updateProgress_bookkeeping.
Qed.

Lemma completeTransfer_notify_bookkeeping :
  preserves same_bookkeeping Receiver.completeTransfer_notify.
Proof.
  unfold Receiver.completeTransfer_notify.
  pbind; [pdone preserves_get|].
  apply preserves_if; [pdone preserves_skip|].
  by apply channel_send_bookkeeping.
Qed.

Lemma completeTransfer_start_bookkeeping :
  preserves same_bookkeeping Receiver.completeTransfer_start.
Proof.
  unfold Receiver.completeTransfer_start.
  pbind; [apply sendAcks_bookkeeping|].
  pbind; [by apply preserves_modify|].
  pbind; [pdone preserves_get|].
  apply preserves_if.
  - pbind; [apply assembleAndDownload_bookkeeping|].
    pbind; [apply completeTransfer_notify_bookkeeping|].
    pdone preserves_mret.
  - pbind; [apply stream_op_bookkeeping|].
    pdone preserves_mret.
Qed.

Lemma completeTransfer_rest_bookkeeping :
  preserves same_bookkeeping Receiver.completeTransfer_rest.
Proof.
  unfold Receiver.completeTransfer_rest.
  pbind; [apply updateProgress_bookkeeping|].
  apply completeTransfer_notify_bookkeeping.
Qed.

(** The state [acceptChunk] leaves for a chunk that is not a duplicate:
    the bookkeeping of [r] with the index marked, the bytes counted and
    the index queued for acknowledgement. *)
Lemma acceptChunk_fresh (ranges : FlowControl.ReceivedRanges) (d : DecodedChunk)
  (r : Receiver.Receiver) :
  FlowControl.hasChunk (chunkIndex d) ranges = false ->
  exists s1,
    same_bookkeeping r s1
    /\ same_bookkeeping
         (Receiver.set_pendingAcks (Receiver.pendingAcks s1 ++ [chunkIndex d])
            (Receiver.set_receivedBytes
               (Receiver.receivedBytes s1 + Z.of_nat (byteLength (payload d)))
               (Receiver.set_receivedRanges
                  (Some (FlowControl.markReceived (chunkIndex d) ranges)) s1)))
         (Receiver.acceptChunk ranges d r).2.
Proof.
  intros Hfresh. unfold Receiver.acceptChunk. rewrite Hfresh, bind_get.
  set (store := if bool_decide (Receiver.writableStream r = None)
                then _ ← modify (fun r0 => Receiver.set_chunks
                                   (<[chunkIndex d := payload d]> (Receiver.chunks r0)) r0);
                     mret false
                else started (Receiver.writeChunkToDisk_start (chunkIndex d))).
  assert (Hstore : (exists writing, store r = (inr writing, (store r).2))
                   /\ same_bookkeeping r (store r).2).
  { subst store. case_bool_decide.
    - split; [by eexists|]. by cbn.
    - split.
      + unfold started.
        destruct (Receiver.writeChunkToDisk_start (chunkIndex d) r) as [[e|b] r']; by eexists.
      + papply. apply preserves_started, writeChunkToDisk_start_bookkeeping. }
  destruct Hstore as [[writing Hrun] Hkeep].
  exists (store r).2. split; [done|].
  rewrite (bind_inr _ _ _ _ _ Hrun).
  set (s1 := (store r).2).
  apply settled_after; [typeclasses eauto| |].
  2:{ intros b.
      pbind; [apply preserves_if; [apply preserves_detached, writeChunkToDisk_rest_bookkeeping
                                  | pdone preserves_skip]|].
      apply preserves_if; [apply preserves_detached, completeTransfer_rest_bookkeeping
                          | pdone preserves_skip]. }
  - rewrite !bind_modify.
    papply.
    pbind; [pdone preserves_get|].
    pbind; [apply preserves_if; [apply sendAcks_bookkeeping | pdone preserves_skip]|].
    pbind; [apply updateProgress_bookkeeping|].
    apply preserves_if; [|pdone preserves_mret].
    apply preserves_started, completeTransfer_start_bookkeeping.
Qed.

(** X12. A well-formed frame whose index was not received before is
    accepted whatever the state of the channel or the sink: the handler
    returns normally, the index is marked, [receivedBytes] grows by the
    payload length (the frame length less the eight header bytes), and the
    index is appended to the acknowledgement sequence (ACKs sent, then
    ACKs pending), so that every accepted chunk is acknowledged once, in
    the order of acceptance. *)
Theorem fresh_chunk_accepted
  (r : Receiver.Receiver) (buf : ArrayBuffer) (meta : FileMetadata)
  (ranges : FlowControl.ReceivedRanges) (d : DecodedChunk) :
  Receiver.fileMeta r = Some meta ->
  Receiver.receivedRanges r = Some ranges ->
  decodeChunk buf = inr d ->
  FlowControl.hasChunk (chunkIndex d) ranges = false ->
  (Receiver.handleBinaryChunk buf r).1 = inr tt
  /\ Receiver.receivedRanges (exec (Receiver.handleBinaryChunk buf) r)
     = Some (FlowControl.markReceived (chunkIndex d) ranges)
  /\ Receiver.receivedBytes (exec (Receiver.handleBinaryChunk buf) r)
     = Receiver.receivedBytes r + (Z.of_nat (length buf) - 8)
  /\ ackSequence (exec (Receiver.handleBinaryChunk buf) r)
     = ackSequence r ++ [chunkIndex d]
  /\ Receiver.fileMeta (exec (Receiver.handleBinaryChunk buf) r) = Some meta.
Proof.
  intros Hm Hr Hd Hfresh.
  destruct (acceptChunk_fresh ranges d r Hfresh) as (s1 & Hs1 & Hs2).
  destruct (decodeChunk_inr buf d Hd)
    as (b0 & b1 & b2 & b3 & b4 & b5 & b6 & b7 & rest & Hbuf & _ & _ & Hp).
  unfold exec, Receiver.handleBinaryChunk. rewrite Hm, Hr, try_catch_run, Hd.
  cbn [fst snd].
  destruct Hs1 as (A1 & A2 & A3 & A4 & A5), Hs2 as (B1 & B2 & B3 & B4 & B5).
  cbn in B2, B3, B4. split; [done|].
  rewrite B3, B4, B5, B2, A2, A4, Hm. repeat split.
  - rewrite Hp, Hbuf. cbn [byteLength length]. lia.
  - unfold ackSequence, sent in *. cbn. by rewrite app_assoc, A5.
Qed.

(** Witness for X12: the frame of chunk 0 on a receiver that awaits two
    chunks. *)
Lemma fresh_chunk_accepted_witness :
  (Receiver.handleBinaryChunk ReceiverScenario.frame0
     (ReceiverScenario.receiving ReceiverScenario.two_chunk_meta)).1 = inr tt
  /\ Receiver.receivedRanges
       (exec (Receiver.handleBinaryChunk ReceiverScenario.frame0)
          (ReceiverScenario.receiving ReceiverScenario.two_chunk_meta))
     = Some (FlowControl.markReceived 0 (FlowControl.new_ReceivedRanges 2))
  /\ Receiver.receivedBytes
       (exec (Receiver.handleBinaryChunk ReceiverScenario.frame0)
          (ReceiverScenario.receiving ReceiverScenario.two_chunk_meta))
     = Receiver.receivedBytes (ReceiverScenario.receiving ReceiverScenario.two_chunk_meta)
       + (Z.of_nat (length ReceiverScenario.frame0) - 8)
  /\ ackSequence
       (exec (Receiver.handleBinaryChunk ReceiverScenario.frame0)
          (ReceiverScenario.receiving ReceiverScenario.two_chunk_meta))
     = ackSequence (ReceiverScenario.receiving ReceiverScenario.two_chunk_meta) ++ [0]
  /\ Receiver.fileMeta
       (exec (Receiver.handleBinaryChunk ReceiverScenario.frame0)
          (ReceiverScenario.receiving ReceiverScenario.two_chunk_meta))
     = Some ReceiverScenario.two_chunk_meta.
Proof.
  apply (fresh_chunk_accepted
           (ReceiverScenario.receiving ReceiverScenario.two_chunk_meta)
           ReceiverScenario.frame0 ReceiverScenario.two_chunk_meta
           (FlowControl.new_ReceivedRanges 2)
           {| chunkIndex := 0;
              payload := {| buffer := ReceiverScenario.frame0;
                            byteOffset := 8; byteLength := 1 |} |}).
  - reflexivity.
  - reflexivity.
  - reflexivity.
  - vm_compute. reflexivity.
Defined.

(** X13. A frame [decodeChunk] rejects (too short for the header, or
    with a length field that does not match) is dropped: the handler
    returns normally and the receiver is exactly as before. *)
Theorem malformed_frame_dropped (r : Receiver.Receiver) (buf : ArrayBuffer) (e : exn) :
  decodeChunk buf = inl e ->
  Receiver.handleBinaryChunk buf r = (inr tt, r).
Proof.
  intros Hd. unfold Receiver.handleBinaryChunk.
  destruct (Receiver.fileMeta r); [|done].
  destruct (Receiver.receivedRanges r); [|done].
  by rewrite try_catch_run, Hd.
Qed.

(** Witness for X13: a frame whose length field says 2 for one payload
    byte. *)
Lemma malformed_frame_dropped_witness :
  Receiver.handleBinaryChunk [x00; x00; x00; x00; x00; x00; x00; x02; xaa]
    (ReceiverScenario.receiving ReceiverScenario.two_chunk_meta)
  = (inr tt, ReceiverScenario.receiving ReceiverScenario.two_chunk_meta).
Proof.
  apply (malformed_frame_dropped
           (ReceiverScenario.receiving ReceiverScenario.two_chunk_meta)
           [x00; x00; x00; x00; x00; x00; x00; x02; xaa]
           (Error "Payload length mismatch")).
  reflexivity.
Defined.

Lemma sendControl_cases (action : ControlAction) (r : Receiver.Receiver) :
  Receiver.sendControl action r
  = match Receiver.dataChannel r with
    | None => (inr tt, r)
    | Some dc =>
        if decide (readyState dc = rs_open)
        then (inr tt, Receiver.set_dataChannel (Some (given [Text (MControl action)] dc)) r)
        else (inl InvalidStateError, r)
    end.
Proof.
  unfold Receiver.sendControl. rewrite bind_get.
  destruct (Receiver.dataChannel r) as [dc|] eqn:Hdc; [|done].
  rewrite bool_decide_eq_false_2 by done. by rewrite channel_send_cases, Hdc.
Qed.

Ltac rsimpl :=
  cbn [fst snd from_option
       Receiver.set_fileMeta Receiver.set_receivedRanges Receiver.set_chunks
       Receiver.set_receivedBytes Receiver.set_startTime Receiver.set_nackTimer
       Receiver.set_onProgress Receiver.set_dataChannel Receiver.set_pendingAcks
       Receiver.set_writableStream Receiver.set_downloads
       Receiver.config Receiver.onProgress Receiver.dataChannel Receiver.fileMeta
       Receiver.receivedRanges Receiver.chunks Receiver.receivedBytes Receiver.startTime
       Receiver.nackTimer Receiver.pendingAcks Receiver.writableStream Receiver.downloads
       given outbox readyState].

(** X14. A [file-meta] message restarts the receiver in whatever state
    it is, also in the middle of a transfer: the handler returns normally,
    the tracker is fresh, the chunk store is empty, [receivedBytes] is 0,
    the NACK timer is set and [ready] is sent if the channel is open.  ACKs
    still pending and a sink already granted are carried over. *)
Theorem file_meta_restarts (r : Receiver.Receiver) (meta : FileMetadata) (now : Z) :
  (Receiver.handleDataChannelMessage (Receiver.DString (Some (MFileMeta meta))) now r).1
  = inr tt
  /\ Receiver.fileMeta
       (exec (Receiver.handleDataChannelMessage
                (Receiver.DString (Some (MFileMeta meta))) now) r)
     = Some meta
  /\ Receiver.receivedRanges
       (exec (Receiver.handleDataChannelMessage
                (Receiver.DString (Some (MFileMeta meta))) now) r)
     = Some (FlowControl.new_ReceivedRanges (ChunkProtocol.totalChunks meta))
  /\ Receiver.chunks
       (exec (Receiver.handleDataChannelMessage
                (Receiver.DString (Some (MFileMeta meta))) now) r)
     = ∅
  /\ Receiver.receivedBytes
       (exec (Receiver.handleDataChannelMessage
                (Receiver.DString (Some (MFileMeta meta))) now) r)
     = 0
  /\ Receiver.nackTimer
       (exec (Receiver.handleDataChannelMessage
                (Receiver.DString (Some (MFileMeta meta))) now) r)
     = true
  /\ sent (exec (Receiver.handleDataChannelMessage
                   (Receiver.DString (Some (MFileMeta meta))) now) r)
     = sent r ++ (if channelOpen r then [Text (MControl ready)] else [])
  /\ Receiver.pendingAcks
       (exec (Receiver.handleDataChannelMessage
                (Receiver.DString (Some (MFileMeta meta))) now) r)
     = Receiver.pendingAcks r
  /\ Receiver.writableStream
       (exec (Receiver.handleDataChannelMessage
                (Receiver.DString (Some (MFileMeta meta))) now) r)
     = Receiver.writableStream r.
Proof.
  unfold exec. cbn [Receiver.handleDataChannelMessage Receiver.handleProtocolMessage].
  rewrite try_catch_run. cbn [fst snd].
  unfold Receiver.handleFileMetadata, Receiver.startNackTimer.
  rewrite !bind_modify.
  set (r1 := Receiver.set_startTime _ _).
  assert (Hup : exists r2,
             Receiver.updateProgress TransferState.transferring r1 = (inr tt, r2)
             /\ Receiver.dataChannel r2 = Receiver.dataChannel r
             /\ Receiver.fileMeta r2 = Some meta
             /\ Receiver.receivedRanges r2
                = Some (FlowControl.new_ReceivedRanges (ChunkProtocol.totalChunks meta))
             /\ Receiver.chunks r2 = ∅ /\ Receiver.receivedBytes r2 = 0
             /\ Receiver.pendingAcks r2 = Receiver.pendingAcks r
             /\ Receiver.writableStream r2 = Receiver.writableStream r).
  { unfold Receiver.updateProgress. subst r1.
    destruct (Receiver.onProgress _); eexists; (split; [reflexivity|]); by rsimpl. }
  destruct Hup as (r2 & Hrun & Hdc & Hfm & Hrr & Hch & Hrb & Hpa & Hws).
  rewrite (bind_inr _ _ _ _ _ Hrun), bind_modify, sendControl_cases.
  unfold sent, channelOpen. rsimpl. rewrite Hdc.
  destruct (Receiver.dataChannel r) as [dc|]; rsimpl.
  - case_decide as Ho.
    + rewrite bool_decide_eq_true_2 by done. rsimpl.
      by rewrite ?Hdc, Hfm, Hrr, Hch, Hrb, Hpa, Hws.
    + rewrite bool_decide_eq_false_2 by done. rsimpl.
      by rewrite ?Hdc, Hfm, Hrr, Hch, Hrb, Hpa, Hws, app_nil_r.
  - by rewrite ?Hdc, Hfm, Hrr, Hch, Hrb, Hpa, Hws.
Qed.

(** X15. A firing of the NACK timer never throws and changes nothing
    but the channel: either it sends nothing, or it sends one [nack] that
    lists the first missing indices, at least one and at most 20, each a
    chunk of the transfer that was not received.  It sends only while the
    transfer is incomplete and fewer than 100 chunks are missing. *)
Theorem nackTick_sends (r : Receiver.Receiver) :
  (Receiver.nackTick r).1 = inr tt
  /\ (exec Receiver.nackTick r = r
      \/ exists dc ranges l,
           Receiver.dataChannel r = Some dc
           /\ Receiver.receivedRanges r = Some ranges
           /\ FlowControl.isComplete ranges = false
           /\ (length (FlowControl.getMissingChunks ranges) < 100)%nat
           /\ l = take 20 (FlowControl.getMissingChunks ranges)
           /\ (0 < length l <= 20)%nat
           /\ (forall i, i ∈ l ->
                 0 <= i < FlowControl.rr_totalChunks ranges
                 /\ FlowControl.hasChunk i ranges = false)
           /\ exec Receiver.nackTick r
              = Receiver.set_dataChannel (Some (given [Text (MNack l)] dc)) r).
Proof.
  unfold exec, Receiver.nackTick. rewrite bind_get.
  destruct (Receiver.receivedRanges r) as [ranges|] eqn:Hr; [|by split; [|left]].
  destruct (FlowControl.isComplete ranges) eqn:Hc; [by split; [|left]|].
  unfold Receiver.sendNack. rewrite bind_get, Hr.
  destruct (Receiver.dataChannel r) as [dc|] eqn:Hdc; [|by split; [|left]].
  case_bool_decide as Hnil; [by split; [|left]|].
  case_bool_decide as Hmany; [by split; [|left]|].
  case_bool_decide as Hopen; [by split; [|left]|].
  cbn [orb].
  set (out := try_catch _ r).
  assert (Hout : out = (inr tt, Receiver.set_dataChannel
                                  (Some (given [Text (MNack (take 20
                                           (FlowControl.getMissingChunks ranges)))] dc)) r)).
  { subst out. by rewrite try_catch_run, channel_send_cases, Hdc, decide_True. }
  clearbody out. subst out.
  cbn [fst snd]. split; [done|]. right.
  exists dc, ranges, (take 20 (FlowControl.getMissingChunks ranges)).
  repeat split; try done; try lia.
  - rewrite length_take. destruct (FlowControl.getMissingChunks ranges); [done|cbn; lia].
  - rewrite length_take. lia.
  - apply elem_of_take in H as (k & Hk & _). apply list_elem_of_lookup_2 in Hk.
    apply list_elem_of_filter in Hk as [_ Hk]. apply elem_of_seqZ in Hk. lia.
  - apply elem_of_take in H as (k & Hk & _). apply list_elem_of_lookup_2 in Hk.
    apply list_elem_of_filter in Hk as [_ Hk]. apply elem_of_seqZ in Hk. lia.
  - apply elem_of_take in H as (k & Hk & _). apply list_elem_of_lookup_2 in Hk.
    apply list_elem_of_filter in Hk as [Hk _]. unfold FlowControl.hasChunk.
    by apply bool_decide_eq_false.
Qed.

End ReceiverMore.

(** ** The sender: what every event keeps *)

Section SenderRules.
Import Hoare FlowControl SenderTrace.

Context (R : Sender.Sender -> Sender.Sender -> Prop) `{!PreOrder R}.

(** [R] ignores every field but the window, the promise, the cancel
    flag, the channel and the pending reads. *)
Hypothesis inert :
  forall s s',
    Sender.window s' = Sender.window s -> Sender.promise s' = Sender.promise s ->
    Sender.cancelled s' = Sender.cancelled s ->
    Sender.dataChannel s' = Sender.dataChannel s ->
    Sender.reads s' = Sender.reads s -> R s s'.
Hypothesis R_onAck : forall i, preserves R (Sender.window_notify (onAck i)).
Hypothesis R_resume : preserves R (Sender.window_notify resume).
Hypothesis R_clear : preserves R (Sender.window_notify clear).
Hypothesis R_pause :
  preserves R (modify (fun s => Sender.set_window (pause (Sender.window s)) s)).
Hypothesis R_settle : forall v, preserves R (modify (Sender.settle v)).
Hypothesis R_cancelled : preserves R (modify (Sender.set_cancelled true)).
Hypothesis R_sendLoop_run :
  forall turns pc now, preserves R (Sender.sendLoop_run turns pc now).
Hypothesis R_handleNack : forall l, preserves R (Sender.handleNack l).
Hypothesis R_readSettled : forall k now, preserves R (Sender.readSettled k now).

Lemma R_updateProgress st err : preserves R (Sender.updateProgress st err).
Proof.
  intros s. unfold Sender.updateProgress.
  destruct (Sender.onProgress s), (Sender.file s); cbn [snd]; by apply inert.
Qed.

Lemma R_cancel : preserves R Sender.cancel.
Proof.
  unfold Sender.cancel.
  pbind; [apply R_cancelled|].
  pbind; [apply preserves_modify; intros s; by apply inert|].
  pbind; [apply R_clear|].
  pbind; [apply R_updateProgress|].
  pbind; [pdone preserves_get|].
  apply preserves_if; [|pdone preserves_skip].
  pbind; [apply R_settle|].
  apply preserves_modify; intros s; by apply inert.
Qed.

Lemma R_caught body : preserves R body -> preserves R (Sender.caught body).
Proof.
  intros Hbody s. unfold Sender.caught. specialize (Hbody s).
  destruct (body s) as [[e|[]] s']; cbn [snd] in *; [|done].
  etrans; [exact Hbody|]. papply.
  pbind; [apply preserves_modify; intros s0; by apply inert|].
  pbind; [apply R_cancel|].
  apply R_settle.
Qed.

Lemma R_sendLoop pc now : preserves R (Sender.sendLoop pc now).
Proof. intros s. unfold Sender.sendLoop. apply R_caught, R_sendLoop_run. Qed.

Lemma R_run_ready now : preserves R (Sender.run_ready now).
Proof.
  unfold Sender.run_ready. pbind; [pdone preserves_get|].
  match goal with |- context [Sender.loop ?s] => destruct (Sender.loop s) end;
    try pdone preserves_skip.
  apply R_sendLoop.
Qed.

Lemma R_handleAck i : preserves R (Sender.handleAck i).
Proof.
  unfold Sender.handleAck.
  pbind; [apply R_onAck|].
  pbind; [pdone preserves_get|].
  apply preserves_if; [|pdone preserves_skip].
  pbind; [apply preserves_modify; intros s; by apply inert|].
  pbind; [apply R_updateProgress|].
  pbind; [pdone preserves_get|].
  apply preserves_if; [|pdone preserves_skip].
  pbind; [apply R_settle|].
  apply preserves_modify; intros s; by apply inert.
Qed.

Lemma R_handleControl action : preserves R (Sender.handleControl action).
Proof.
  destruct action; cbn [Sender.handleControl].
  - apply R_resume.
  - pbind; [apply R_pause|]. apply R_updateProgress.
  - pbind; [apply R_resume|]. apply R_updateProgress.
Qed.

Lemma R_handleMessage message now : preserves R (Sender.handleMessage message now).
Proof.
  destruct message; cbn [Sender.handleMessage]; try pdone preserves_skip.
  - apply R_handleAck.
  - apply R_handleNack.
  - apply R_handleControl.
Qed.

Lemma R_onbufferedamountlow : preserves R Sender.onbufferedamountlow.
Proof.
  unfold Sender.onbufferedamountlow.
  pbind; [pdone preserves_get|].
  apply preserves_if; [|pdone preserves_skip].
  pbind.
  - apply preserves_modify. intros s. destruct (Sender.loop s); try reflexivity.
    by apply inert.
  - apply preserves_modify; intros s; by apply inert.
Qed.

(** Every event other than [sendFile] keeps [R]. *)
Lemma R_step ev now s : isSendFile ev = false -> R s (Sender.step ev now s).
Proof.
  intros Hev. unfold Sender.step, exec. papply.
  pbind; [|apply R_run_ready].
  destruct ev; try discriminate Hev.
  - apply R_handleMessage.
  - apply R_onbufferedamountlow.
  - apply R_cancel.
  - apply R_readSettled.
Qed.

End SenderRules.

Section SenderChunkRules.
Import Hoare FlowControl SenderTrace.

Context (R : Sender.Sender -> Sender.Sender -> Prop) `{!PreOrder R}.

Hypothesis inert :
  forall s s',
    Sender.window s' = Sender.window s -> Sender.promise s' = Sender.promise s ->
    Sender.cancelled s' = Sender.cancelled s ->
    Sender.dataChannel s' = Sender.dataChannel s ->
    Sender.reads s' = Sender.reads s -> R s s'.
Hypothesis R_reads : forall rs s, R s (Sender.set_reads rs s).
Hypothesis R_waitForSpace :
  forall waiter s,
    R s (Sender.set_window (waitForSpace waiter (Sender.window s)).1 s).





End SenderChunkRules.

Section SenderReadRules.
Import Hoare FlowControl SenderTrace.

Context (R : Sender.Sender -> Sender.Sender -> Prop) `{!PreOrder R}.

Hypothesis inert :
  forall s s',
    Sender.window s' = Sender.window s -> Sender.promise s' = Sender.promise s ->
    Sender.cancelled s' = Sender.cancelled s ->
    Sender.dataChannel s' = Sender.dataChannel s ->
    Sender.reads s' = Sender.reads s -> R s s'.
Hypothesis R_reads : forall rs s, R s (Sender.set_reads rs s).
Hypothesis R_caught : forall body, preserves R body -> preserves R (Sender.caught body).
Hypothesis R_sendLoop_run :
  forall turns pc now, preserves R (Sender.sendLoop_run turns pc now).
Hypothesis R_sendChunk_rest : forall r now, preserves R (Sender.sendChunk_rest r now).



End SenderReadRules.

Lemma bind_lift {S A B} (r : result A) (k : A -> ST S B) (s : S) :
  (lift r ≫= k) s = match r with
                    | inl e => (inl e, s)
                    | inr a => k a s
                    end.
Proof. by destruct r. Qed.

Section SenderSendRules.
Import Hoare FlowControl SenderTrace.

Context (R : Sender.Sender -> Sender.Sender -> Prop) `{!PreOrder R}.

Hypothesis inert :
  forall s s',
    Sender.window s' = Sender.window s -> Sender.promise s' = Sender.promise s ->
    Sender.cancelled s' = Sender.cancelled s ->
    Sender.dataChannel s' = Sender.dataChannel s ->
    Sender.reads s' = Sender.reads s -> R s s'.
Hypothesis R_send : forall f, preserves R (Sender.channel_send f).
Hypothesis R_markSent :
  forall i now s w,
    markSent i now (Sender.window s) = inr w -> R s (Sender.set_window w s).


End SenderSendRules.

(** ** The sender: invariants over every history *)

Section SenderInvariants.
Import Hoare FlowControl SenderTrace.

#[local] Instance window_kept_preorder : PreOrder window_kept.
Proof.
  split.
  - by intros w.
  - intros w1 w2 w3 (A1 & A2 & A3) (B1 & B2 & B3). unfold window_kept.
    rewrite B1, B2. auto.
Qed.

#[local] Instance sender_window_kept_preorder : PreOrder sender_window_kept.
Proof.
  split.
  - intros s. unfold sender_window_kept. reflexivity.
  - intros s1 s2 s3 H1 H2. unfold sender_window_kept in *. by etrans.
Qed.

#[local] Instance quiet_kept_preorder : PreOrder quiet_kept.
Proof.
  split.
  - by intros s.
  - intros s1 s2 s3 H1 H2 Hq. unfold quiet_kept in *.
    destruct (H1 Hq) as [Hq2 Hc2]. destruct (H2 Hq2) as [Hq3 Hc3].
    split; [done|]. by rewrite Hc3.
Qed.

(** *** The window operations keep the bound *)




Lemma wk_clear (w : SlidingWindow) : window_kept w (clear w).1.
Proof.
  unfold window_kept, bounded, outstandingSize. cbn. repeat split.
  intros H. rewrite map_size_empty. lia.
Qed.



Lemma window_wake (called : list Waiter) (s : Sender.Sender) :
  Sender.window (Sender.wake called s) = Sender.window s
  /\ Sender.promise (Sender.wake called s) = Sender.promise s
  /\ Sender.cancelled (Sender.wake called s) = Sender.cancelled s
  /\ Sender.dataChannel (Sender.wake called s) = Sender.dataChannel s
  /\ Sender.reads (Sender.wake called s) = Sender.reads s.
Proof.
  unfold Sender.wake. destruct (Sender.loop s); try done. by case_bool_decide.
Qed.


(** *** Every event keeps the window bounded *)

Lemma swk_same (s s' : Sender.Sender) :
  Sender.window s' = Sender.window s -> sender_window_kept s s'.
Proof. intros H. unfold sender_window_kept. rewrite H. reflexivity. Qed.

Lemma swk_inert (s s' : Sender.Sender) :
  Sender.window s' = Sender.window s -> Sender.promise s' = Sender.promise s ->
  Sender.cancelled s' = Sender.cancelled s ->
  Sender.dataChannel s' = Sender.dataChannel s ->
  Sender.reads s' = Sender.reads s -> sender_window_kept s s'.
Proof. intros H _ _ _ _. by apply swk_same. Qed.


Lemma swk_notify op :
  (forall w, window_kept w (op w).1) ->
  preserves sender_window_kept (Sender.window_notify op).
Proof.
  intros H s. unfold Sender.window_notify, modify. cbn [snd].
  specialize (H (Sender.window s)). destruct (op (Sender.window s)) as [w called].
  unfold sender_window_kept. by rewrite (proj1 (window_wake called _)).
Qed.


Lemma swk_settle v : preserves sender_window_kept (modify (Sender.settle v)).
Proof.
  apply preserves_modify. intros s. unfold Sender.settle.
  destruct (Sender.promise s); by apply swk_same.
Qed.

Lemma swk_cancelled : preserves sender_window_kept (modify (Sender.set_cancelled true)).
Proof. apply preserves_modify. intros s. by apply swk_same. Qed.

Lemma swk_clear : preserves sender_window_kept (Sender.window_notify clear).
Proof. apply swk_notify, wk_clear. Qed.




Lemma swk_cancel : preserves sender_window_kept Sender.cancel.
Proof.
  apply R_cancel; [typeclasses eauto | apply swk_inert | apply swk_clear
                   | apply swk_settle | apply swk_cancelled].
Qed.










(** *** A cancelled sender starts nothing *)

#[local] Instance cancelled_kept_preorder : PreOrder cancelled_kept.
Proof.
  split.
  - by intros s.
  - intros s1 s2 s3 H1 H2 Hc. unfold cancelled_kept in *.
    destruct (H1 Hc) as (A1 & A2 & A3). destruct (H2 A1) as (B1 & B2 & B3).
    by rewrite B2, B3.
Qed.

Lemma ck_inert (s s' : Sender.Sender) :
  Sender.window s' = Sender.window s -> Sender.promise s' = Sender.promise s ->
  Sender.cancelled s' = Sender.cancelled s ->
  Sender.dataChannel s' = Sender.dataChannel s ->
  Sender.reads s' = Sender.reads s -> cancelled_kept s s'.
Proof. intros _ _ Hc Hd Hr. unfold cancelled_kept. by rewrite Hc, Hd, Hr. Qed.

Lemma ck_same (s s' : Sender.Sender) :
  Sender.cancelled s' = Sender.cancelled s ->
  Sender.dataChannel s' = Sender.dataChannel s ->
  Sender.reads s' = Sender.reads s -> cancelled_kept s s'.
Proof. intros Hc Hd Hr. unfold cancelled_kept. by rewrite Hc, Hd, Hr. Qed.

Lemma ck_notify op : preserves cancelled_kept (Sender.window_notify op).
Proof.
  intros s. unfold Sender.window_notify, modify. cbn [snd].
  destruct (op (Sender.window s)) as [w called].
  destruct (window_wake called (Sender.set_window w s)) as (_ & _ & Hc & Hd & Hr).
  by apply ck_same.
Qed.

Lemma ck_settle v : preserves cancelled_kept (modify (Sender.settle v)).
Proof.
  apply preserves_modify. intros s. unfold Sender.settle.
  destruct (Sender.promise s); by apply ck_same.
Qed.

Lemma ck_cancelled : preserves cancelled_kept (modify (Sender.set_cancelled true)).
Proof. apply preserves_modify. by intros s Hc. Qed.

(** A cancelled sender's [sendLoop] ends at its next test: it starts no
    read. *)
Lemma ck_sendLoop_turn pc now : preserves cancelled_kept (Sender.sendLoop_turn pc now).
Proof.
  intros s Hc. unfold Sender.sendLoop_turn.
  destruct pc; rewrite bind_get, Hc, ?andb_false_r; by rewrite bind_modify.
Qed.

Lemma ck_sendLoop_run turns :
  forall pc now, preserves cancelled_kept (Sender.sendLoop_run turns pc now).
Proof.
  induction turns as [|turns IH]; intros pc now; cbn [Sender.sendLoop_run].
  - pbind; [apply ck_sendLoop_turn|]. apply preserves_if; pdone preserves_skip.
  - pbind; [apply ck_sendLoop_turn|]. apply preserves_if; [apply IH | pdone preserves_skip].
Qed.

Lemma ck_cancel : preserves cancelled_kept Sender.cancel.
Proof.
  apply R_cancel; [typeclasses eauto | apply ck_inert | apply ck_notify
                   | apply ck_settle | apply ck_cancelled].
Qed.

Lemma ck_caught body :
  preserves cancelled_kept body -> preserves cancelled_kept (Sender.caught body).
Proof.
  apply R_caught; [typeclasses eauto | apply ck_inert | apply ck_notify
                   | apply ck_settle | apply ck_cancelled].
Qed.

Lemma ck_run_ready now : preserves cancelled_kept (Sender.run_ready now).
Proof.
  apply R_run_ready; [typeclasses eauto | apply ck_inert | apply ck_notify
                      | apply ck_settle | apply ck_cancelled | apply ck_sendLoop_run].
Qed.

(** [cancel()] sets the flag and leaves the channel and the pending
    reads as they are. *)
Lemma cancel_fields (s : Sender.Sender) :
  Sender.cancelled (Sender.cancel s).2 = true
  /\ Sender.reads (Sender.cancel s).2 = Sender.reads s
  /\ Sender.dataChannel (Sender.cancel s).2 = Sender.dataChannel s
  /\ outstandingChunks (Sender.window (Sender.cancel s).2) = ∅.
Proof.
  set (R := fun s s' : Sender.Sender =>
              Sender.cancelled s = true /\ outstandingChunks (Sender.window s) = ∅ ->
              (Sender.cancelled s' = true /\ outstandingChunks (Sender.window s') = ∅)
              /\ Sender.reads s' = Sender.reads s
              /\ Sender.dataChannel s' = Sender.dataChannel s).
  assert (HR : PreOrder R).
  { split; [by intros ?|]. intros s1 s2 s3 H1 H2 Hc. unfold R in *.
    destruct (H1 Hc) as (A1 & A2 & A3). destruct (H2 A1) as (B1 & B2 & B3).
    by rewrite B2, B3. }
  assert (Hsame : forall s s',
             Sender.window s' = Sender.window s ->
             Sender.cancelled s' = Sender.cancelled s ->
             Sender.dataChannel s' = Sender.dataChannel s ->
             Sender.reads s' = Sender.reads s -> R s s').
  { intros s1 s2 Hw Hc Hd Hr. unfold R. by rewrite Hw, Hc, Hd, Hr. }
  assert (Hinert : forall s s',
             Sender.window s' = Sender.window s -> Sender.promise s' = Sender.promise s ->
             Sender.cancelled s' = Sender.cancelled s ->
             Sender.dataChannel s' = Sender.dataChannel s ->
             Sender.reads s' = Sender.reads s -> R s s').
  { intros s1 s2 Hw _ Hc Hd Hr. by apply Hsame. }
  unfold Sender.cancel. rewrite !bind_modify.
  set (s1 := Sender.set_sending false (Sender.set_cancelled true s)).
  unfold Sender.window_notify at 1. rewrite bind_modify.
  set (s2 := let '(w, called) := clear (Sender.window s1) in _).
  assert (Hs2 : (Sender.cancelled s2 = true /\ outstandingChunks (Sender.window s2) = ∅)
                /\ Sender.reads s2 = Sender.reads s
                /\ Sender.dataChannel s2 = Sender.dataChannel s).
  { subst s2. unfold clear.
    destruct (window_wake
                (foldl (fun (called : list Waiter) (_ : Waiter) => called) []
                   (waitQueue (Sender.window s1)))
                (Sender.set_window
                   (set_waitQueue [] (set_paused false
                      (set_outstandingChunks ∅ (Sender.window s1)))) s1))
      as (Hw & _ & Hc & Hd & Hr).
    by rewrite Hw, Hc, Hd, Hr. }
  destruct Hs2 as (Hq & Hr2 & Hd2).
  assert (Hrest : forall m : ST Sender.Sender unit, preserves R m ->
            Sender.cancelled (m s2).2 = true
            /\ Sender.reads (m s2).2 = Sender.reads s
            /\ Sender.dataChannel (m s2).2 = Sender.dataChannel s
            /\ outstandingChunks (Sender.window (m s2).2) = ∅).
  { intros m Hm. destruct (Hm s2 Hq) as ((E1 & E2) & E3 & E4).
    by rewrite E3, E4. }
  apply Hrest.
  pbind; [by apply R_updateProgress|].
  pbind; [pdone preserves_get|].
  apply preserves_if; [|pdone preserves_skip].
  pbind.
  - apply preserves_modify. intros s0. unfold Sender.settle.
    destruct (Sender.promise s0); by apply Hsame.
  - apply preserves_modify. intros s0. by apply Hsame.
Qed.

Lemma sender_channel_send_open (f : ChunkProtocol.Frame) (s : Sender.Sender)
  (dc : Transport.RTCDataChannel) :
  Sender.dataChannel s = Some dc -> Transport.readyState dc = Transport.rs_open ->
  Sender.channel_send f s
  = (inr tt, Sender.set_dataChannel (Some (ReceiverView.given [f] dc)) s).
Proof.
  intros Hdc Hopen. unfold Sender.channel_send, Transport.send.
  by rewrite Hdc, decide_True.
Qed.

(** Once its read has settled a [sendChunk] call sends its chunk; being
    cancelled does not stop it. *)
Lemma sendChunk_rest_sends (r : Sender.PendingRead) (now : Z) (s : Sender.Sender)
  (dc : Transport.RTCDataChannel) (frame : ChunkProtocol.ArrayBuffer) :
  Sender.dataChannel s = Some dc -> Transport.readyState dc = Transport.rs_open ->
  ChunkProtocol.encodeChunk (Sender.read_chunkIndex r)
    (ChunkProtocol.new_Uint8Array (Sender.read_blob r)) = inr frame ->
  cancelled_kept
    (Sender.set_dataChannel (Some (ReceiverView.given [ChunkProtocol.Binary frame] dc)) s)
    (Sender.sendChunk_rest r now s).2.
Proof.
  intros Hdc Hopen Henc. unfold Sender.sendChunk_rest.
  rewrite bind_lift, Henc.
  rewrite (bind_inr _ _ _ _ tt (sender_channel_send_open _ s dc Hdc Hopen)).
  rewrite bind_get, bind_lift.
  destruct (markSent _ now _) as [e|w]; [reflexivity|].
  rewrite bind_modify. papply.
  pbind; [apply preserves_modify; intros s0; by apply ck_same|].
  by apply R_updateProgress, ck_inert.
Qed.

Lemma bind_after {S A B} (R : S -> S -> Prop) `{!PreOrder R}
  (m : ST S A) (k : A -> ST S B) (s : S) :
  (forall a, preserves R (k a)) -> R (m s).2 ((m ≫= k) s).2.
Proof.
  intros Hk. unfold mbind, ST_bind. destruct (m s) as [[e|a] s']; cbn [snd]; [done|].
  apply Hk.
Qed.

Lemma caught_after (body : ST Sender.Sender unit) (s : Sender.Sender) :
  cancelled_kept (body s).2 (Sender.caught body s).2.
Proof.
  unfold Sender.caught. destruct (body s) as [[e|[]] s']; cbn [snd]; [|done].
  papply.
  pbind; [apply preserves_modify; intros s0; by apply ck_same|].
  pbind; [apply ck_cancel|]. apply ck_settle.
Qed.

(** X17. [cancel()] does not withdraw a read that is pending.  When a
    [sendChunk] call is suspended at the read of its blob (in
    [sendLoop], or started by a NACK) and [cancel()] is called, the
    call runs on once the read settles: on an open channel the chunk
    is sent although the sender is cancelled, and nothing else is. *)
Theorem cancel_keeps_pending_read
  (s : Sender.Sender) (k : nat) (r : Sender.PendingRead)
  (frame : ChunkProtocol.ArrayBuffer) (now now' : Z) :
  Sender.reads s !! k = Some r ->
  channelOpen s = true ->
  ChunkProtocol.encodeChunk (Sender.read_chunkIndex r)
    (ChunkProtocol.new_Uint8Array (Sender.read_blob r)) = inr frame ->
  Sender.cancelled (Sender.step Sender.ECancel now s) = true
  /\ sent (Sender.step Sender.ECancel now s) = sent s
  /\ sent (Sender.step (Sender.EReadSettled k) now' (Sender.step Sender.ECancel now s))
     = sent s ++ [ChunkProtocol.Binary frame].
Proof.
  intros Hk Hopen Henc.
  unfold channelOpen in Hopen.
  destruct (Sender.dataChannel s) as [dc|] eqn:Hdc; [|done].
  apply bool_decide_eq_true in Hopen.
  assert (H1 : Sender.cancelled (Sender.step Sender.ECancel now s) = true
               /\ Sender.reads (Sender.step Sender.ECancel now s) = Sender.reads s
               /\ Sender.dataChannel (Sender.step Sender.ECancel now s) = Some dc).
  { destruct (cancel_fields s) as (Hc & Hr & Hd & _). unfold Sender.step, exec.
    destruct (Sender.cancel s) as [[e|[]] s1] eqn:E; cbn [snd] in Hc, Hr, Hd.
    - rewrite (bind_inl _ _ _ _ _ E). cbn [snd]. by rewrite Hd, Hdc.
    - rewrite (bind_inr _ _ _ _ _ E).
      destruct (ck_run_ready now s1 Hc) as (A1 & A2 & A3).
      by rewrite A2, A3, Hr, Hd, Hdc. }
  destruct H1 as (Hc1 & Hr1 & Hd1).
  set (s1 := Sender.step Sender.ECancel now s) in *.
  split; [done|]. split; [unfold sent; by rewrite Hd1, Hdc|].
  set (s2 := Sender.set_reads (delete k (Sender.reads s)) s1).
  set (s3 := Sender.set_dataChannel
               (Some (ReceiverView.given [ChunkProtocol.Binary frame] dc)) s2).
  assert (Hrest : cancelled_kept s3 (Sender.sendChunk_rest r now' s2).2)
    by (by apply sendChunk_rest_sends).
  assert (Hsettled : cancelled_kept s3 (Sender.readSettled k now' s1).2).
  { unfold Sender.readSettled. rewrite bind_get, Hr1, Hk, bind_modify. fold s2.
    destruct (Sender.read_awaited r).
    - unfold Sender.sendLoop_resumed.
      etrans; [exact Hrest|]. etrans; [|apply caught_after].
      apply (bind_after cancelled_kept). intros _.
      pbind; [apply preserves_modify; intros s0; by apply ck_same|].
      pbind; [pdone preserves_get|]. apply ck_sendLoop_run.
    - unfold detached. rewrite try_catch_run. exact Hrest. }
  assert (Hstep : cancelled_kept s3 (Sender.step (Sender.EReadSettled k) now' s1)).
  { unfold Sender.step, exec. etrans; [exact Hsettled|].
    etrans; [|apply (bind_after cancelled_kept); intros _; apply ck_run_ready].
    reflexivity. }
  destruct (Hstep Hc1) as (_ & _ & Hd3).
  unfold sent. rewrite Hd3, Hdc. reflexivity.
Qed.

(** Witness for X17: [cancel()] comes while the read of the only chunk
    of a one-byte file is pending. *)
Lemma cancel_keeps_pending_read_witness :
  Sender.cancelled (Sender.step Sender.ECancel 1 SenderScenario.reading_one_byte) = true
  /\ sent (Sender.step Sender.ECancel 1 SenderScenario.reading_one_byte)
     = sent SenderScenario.reading_one_byte
  /\ sent (Sender.step (Sender.EReadSettled 0) 2
             (Sender.step Sender.ECancel 1 SenderScenario.reading_one_byte))
     = sent SenderScenario.reading_one_byte
       ++ [ChunkProtocol.Binary [x00; x00; x00; x00; x00; x00; x00; x01; xaa]].
Proof.
  apply (cancel_keeps_pending_read SenderScenario.reading_one_byte 0
           {| Sender.read_chunkIndex := 0; Sender.read_blob := [xaa];
              Sender.read_chunkBytes := 1; Sender.read_awaited := true |}).
  - reflexivity.
  - reflexivity.
  - reflexivity.
Defined.

(** *** After a cancellation with no read pending nothing is sent *)

Lemma qk_inert (s s' : Sender.Sender) :
  Sender.window s' = Sender.window s -> Sender.promise s' = Sender.promise s ->
  Sender.cancelled s' = Sender.cancelled s ->
  Sender.dataChannel s' = Sender.dataChannel s ->
  Sender.reads s' = Sender.reads s -> quiet_kept s s'.
Proof. intros Hw _ Hc Hd Hr. unfold quiet_kept, quiet. by rewrite Hw, Hc, Hd, Hr. Qed.

Lemma qk_notify op :
  (forall w, outstandingChunks w = ∅ -> outstandingChunks (op w).1 = ∅) ->
  preserves quiet_kept (Sender.window_notify op).
Proof.
  intros H s (Hc & Ho & Hr). unfold Sender.window_notify, modify. cbn [snd].
  specialize (H (Sender.window s) Ho). destruct (op (Sender.window s)) as [w called].
  destruct (window_wake called (Sender.set_window w s)) as (Hw & _ & Hc' & Hd & Hr').
  unfold quiet. by rewrite Hw, Hc', Hd, Hr'.
Qed.

Lemma onAck_empty (i : Z) (w : SlidingWindow) :
  outstandingChunks w = ∅ -> outstandingChunks (onAck i w).1 = ∅.
Proof.
  intros H. unfold onAck.
  destruct (notifyWaiters_outstanding
              (set_outstandingChunks (delete i (outstandingChunks w)) w)) as (-> & _).
  cbn. rewrite H. apply delete_empty.
Qed.

Lemma resume_empty (w : SlidingWindow) :
  outstandingChunks w = ∅ -> outstandingChunks (resume w).1 = ∅.
Proof.
  intros H. unfold resume.
  by destruct (notifyWaiters_outstanding (set_paused false w)) as (-> & _).
Qed.

Lemma qk_settle v : preserves quiet_kept (modify (Sender.settle v)).
Proof.
  apply preserves_modify. intros s. unfold Sender.settle.
  destruct (Sender.promise s); [|reflexivity..]. by intros (? & ? & ?).
Qed.

Lemma qk_sendLoop_turn pc now : preserves quiet_kept (Sender.sendLoop_turn pc now).
Proof.
  intros s (Hc & Ho & Hr). unfold Sender.sendLoop_turn.
  destruct pc; rewrite bind_get, Hc, ?andb_false_r; by rewrite bind_modify.
Qed.

Lemma qk_sendLoop_run turns :
  forall pc now, preserves quiet_kept (Sender.sendLoop_run turns pc now).
Proof.
  induction turns as [|turns IH]; intros pc now; cbn [Sender.sendLoop_run].
  - pbind; [apply qk_sendLoop_turn|]. apply preserves_if; pdone preserves_skip.
  - pbind; [apply qk_sendLoop_turn|]. apply preserves_if; [apply IH | pdone preserves_skip].
Qed.

(** With nothing in flight a NACK starts no retransmission. *)
Lemma qk_handleNack l : preserves quiet_kept (Sender.handleNack l).
Proof.
  intros s (Hc & Ho & Hr). unfold Sender.handleNack. rewrite bind_get.
  assert (Hnone : getChunksForRetransmit l (Sender.window s) = []).
  { unfold getChunksForRetransmit. rewrite Ho. induction l as [|i l IH]; [done|].
    rewrite filter_cons, decide_False; [done|].
    rewrite lookup_empty. by intros [? ?]. }
  by rewrite Hnone.
Qed.

Lemma qk_readSettled k now : preserves quiet_kept (Sender.readSettled k now).
Proof.
  intros s (Hc & Ho & Hr). unfold Sender.readSettled. by rewrite bind_get, Hr.
Qed.

Lemma qk_step ev now s : isSendFile ev = false -> quiet_kept s (Sender.step ev now s).
Proof.
  apply R_step; [typeclasses eauto | apply qk_inert | | | | | apply qk_settle
                 | | intros; apply qk_sendLoop_run | apply qk_handleNack
                 | apply qk_readSettled].
  - intros i. apply qk_notify. intros w. apply onAck_empty.
  - apply qk_notify, resume_empty.
  - by apply qk_notify.
  - apply preserves_modify. by intros s0 (? & ? & ?).
  - apply preserves_modify. by intros s0 (? & ? & ?).
Qed.

(** X18. After [cancel()] on a sender that has no read pending, the
    sender gives its channel nothing more: whatever ACKs, NACKs,
    control messages and buffer events arrive later, the channel stays
    as it was when [cancel()] was called, and no read is started.  Only
    a new [sendFile] sends again.  A read that is pending when [cancel()]
    is called is still sent. *)
Theorem nothing_sent_after_cancel
  (evs : list (Sender.Event * Z)) (now : Z) (s : Sender.Sender) :
  Sender.reads s = [] ->
  Forall (fun p => isSendFile p.1 = false) evs ->
  Sender.dataChannel (run evs (Sender.step Sender.ECancel now s)) = Sender.dataChannel s
  /\ Sender.reads (run evs (Sender.step Sender.ECancel now s)) = [].
Proof.
  intros Hreads Hevs.
  assert (Hq : quiet (Sender.step Sender.ECancel now s)
               /\ Sender.dataChannel (Sender.step Sender.ECancel now s)
                  = Sender.dataChannel s).
  { destruct (cancel_fields s) as (Hc & Hr & Hd & Ho). unfold Sender.step, exec.
    destruct (Sender.cancel s) as [[e|[]] s1] eqn:E; cbn [snd] in Hc, Hr, Hd, Ho.
    - rewrite (bind_inl _ _ _ _ _ E). cbn [snd]. split; [|done].
      split; [done|]. split; [done|]. by rewrite Hr.
    - rewrite (bind_inr _ _ _ _ _ E).
      assert (Hrr : preserves quiet_kept (Sender.run_ready now)).
      { apply R_run_ready; [typeclasses eauto | apply qk_inert | by apply qk_notify
                           | apply qk_settle | | intros; apply qk_sendLoop_run].
        apply preserves_modify. by intros s0 (? & ? & ?). }
      assert (Hq1 : quiet s1) by (split; [done|]; split; [done|]; by rewrite Hr).
      destruct (Hrr s1 Hq1) as [Hq' Hd']. split; [done|]. by rewrite Hd'. }
  destruct Hq as [Hq <-]. revert Hq. generalize (Sender.step Sender.ECancel now s).
  clear s Hreads. induction evs as [|[ev now'] evs IH]; intros s Hq.
  - split; [done|]. apply Hq.
  - apply Forall_cons in Hevs as [Hev Hevs]. cbn [run foldl].
    change (foldl _ ?s0 evs) with (run evs s0).
    destruct (qk_step ev now' s Hev Hq) as [Hq' Hd'].
    destruct (IH Hevs _ Hq') as [IH1 IH2]. split; [by rewrite IH1|done].
Qed.

(** Witness for X18: the only chunk of a one-byte file was sent and
    awaits its ACK when [cancel()] comes; the NACK for chunk 0, the ACK,
    the buffer event and the settling of a read that follow leave the
    channel with the two frames sent before. *)
Lemma nothing_sent_after_cancel_witness :
  Sender.dataChannel
    (run [(Sender.EMessage (ChunkProtocol.MNack [0]), 3);
          (Sender.EMessage (ChunkProtocol.MAck 0), 4);
          (Sender.EBufferedAmountLow, 5);
          (Sender.EReadSettled 0, 6)]
       (Sender.step Sender.ECancel 2 SenderScenario.sent_one_byte))
  = Sender.dataChannel SenderScenario.sent_one_byte
  /\ Sender.reads
       (run [(Sender.EMessage (ChunkProtocol.MNack [0]), 3);
             (Sender.EMessage (ChunkProtocol.MAck 0), 4);
             (Sender.EBufferedAmountLow, 5);
             (Sender.EReadSettled 0, 6)]
          (Sender.step Sender.ECancel 2 SenderScenario.sent_one_byte))
     = [].
Proof.
  apply (nothing_sent_after_cancel
           [(Sender.EMessage (ChunkProtocol.MNack [0]), 3);
            (Sender.EMessage (ChunkProtocol.MAck 0), 4);
            (Sender.EBufferedAmountLow, 5);
            (Sender.EReadSettled 0, 6)]).
  - reflexivity.
  - repeat constructor.
Defined.

(** Without the cancellation the same NACK has chunk 0 read and sent
    again. *)
Example nack_without_cancel_resends :
  sent (Sender.step (Sender.EReadSettled 0) 4
          (Sender.step (Sender.EMessage (ChunkProtocol.MNack [0])) 3
             SenderScenario.sent_one_byte))
  = sent SenderScenario.sent_one_byte
    ++ [ChunkProtocol.Binary [x00; x00; x00; x00; x00; x00; x00; x01; xaa]].
Proof. vm_compute. reflexivity. Qed.

(** *** [sendFile] without an open channel *)

(** X19. [sendFile] on a sender whose channel is missing or not open
    sends nothing and changes nothing but the promise it returns, which
    is rejected with "Data channel not ready". *)
Theorem sendFile_channel_not_ready (f : Sender.File) (now : Z) (s : Sender.Sender) :
  (forall dc, Sender.dataChannel s = Some dc ->
     Transport.readyState dc <> Transport.rs_open) ->
  Sender.sendFile f now s
  = (inr tt, Sender.set_promise (Sender.Rejected (Error "Data channel not ready")) s).
Proof.
  intros Hdc. unfold Sender.sendFile. rewrite bind_get.
  change (Sender.dataChannel (Sender.set_promise Sender.Pending s))
    with (Sender.dataChannel s).
  destruct (Sender.dataChannel s) as [dc|] eqn:E.
  - rewrite bool_decide_eq_false_2 by by apply Hdc. by destruct s.
  - by destruct s.
Qed.

(** Witness for X19: a sender that was never given a channel. *)
Lemma sendFile_channel_not_ready_witness :
  Sender.sendFile SenderScenario.one_byte_file 0 (Sender.new_Sender Sender.DEFAULT_CONFIG)
  = (inr tt, Sender.set_promise (Sender.Rejected (Error "Data channel not ready"))
               (Sender.new_Sender Sender.DEFAULT_CONFIG)).
Proof.
  apply (sendFile_channel_not_ready SenderScenario.one_byte_file 0
           (Sender.new_Sender Sender.DEFAULT_CONFIG)).
  intros dc. vm_compute. discriminate.
Defined.

End SenderInvariants.

(** ** More on PINs: generator, validators and canonical form *)

Section PinMore.
Import Chars.

Lemma whitespace_is_blank (c : ascii) :
  (isWhitespace c = true -> between 0 32 c = true)
  /\ (isJsWhiteSpace c = true -> between 0 32 c = true)
  /\ (PinValidator.allowed (toUpperChar c) = true -> between 0 32 c = false)
  /\ (PinValidator.allowed c = true -> toUpperChar c = c).
Proof.
  destruct c as [[] [] [] [] [] [] [] []]; vm_compute; repeat split; congruence.
Qed.

(** The loop of [isValid] accepts a string exactly when all its
    characters are in the alphabet. *)
Lemma check_characters_alphabet (s : string) :
  PinValidator.check_characters s = all_chars PinValidator.allowed s.
Proof.
  induction s as [|c s IH]; [done|]. cbn [PinValidator.check_characters all_chars].
  destruct (PinValidator.allowed c) eqn:Hc.
  - destruct (allowed_char c Hc) as (-> & -> & -> & -> & _).
    by rewrite andb_false_r.
  - cbn [negb andb].
    by destruct (isWhitespace c), (isISOControl c || isSurrogate c),
         (isLetter c && isLowerCase c).
Qed.

Lemma isBlank_trim (s : string) : isBlank s = true -> trim s = EmptyString.
Proof.
  unfold isBlank, trim. intros Hs.
  assert (H : trim_start (between 0 32) s = EmptyString); [|by rewrite H].
  induction s as [|c s IH]; [done|]. cbn [all_chars] in Hs.
  apply andb_true_iff in Hs as [Hc Hs]. cbn [trim_start].
  rewrite (proj1 (whitespace_is_blank c) Hc). by apply IH.
Qed.

(** [isValid] in terms of the stripped string. *)
Lemma isValid_run (pin : string) :
  PinValidator.isValid (Some pin)
  = (String.length (trim pin) =? 6)%nat && all_chars PinValidator.allowed (trim pin).
Proof.
  unfold PinValidator.isValid, PinValidator.normalize, NFKC, PinValidator.PIN_LENGTH.
  destruct (isBlank pin) eqn:Hb.
  - by rewrite (isBlank_trim pin Hb).
  - rewrite check_characters_alphabet. by destruct (String.length (trim pin) =? 6)%nat.
Qed.

(** X20. On a Basic Latin string [isValid] holds exactly when the
    string, with the characters up to U+0020 stripped at both ends, has
    six characters, all of the alphabet: the tests for white space,
    control characters, surrogates and lower-case letters reject nothing
    the alphabet test does not.  (Beyond Basic Latin NFKC comes in:
    AB, U+00B2, CD3 is normalised to AB2CD3 and accepted.) *)
Theorem isValid_alphabet (pin : string) :
  basicLatin pin = true ->
  PinValidator.isValid (Some pin)
  = (String.length (trim pin) =? 6)%nat && all_chars PinValidator.allowed (trim pin).
Proof. intros _. apply isValid_run. Qed.

(** Witness for X20: a PIN with blanks around it. *)
Lemma isValid_alphabet_witness :
  basicLatin " AB2CD3 " = true
  /\ PinValidator.isValid (Some " AB2CD3 ")
     = (String.length (trim " AB2CD3 ") =? 6)%nat
       && all_chars PinValidator.allowed (trim " AB2CD3 ").
Proof.
  split; [reflexivity|]. apply (isValid_alphabet " AB2CD3 "). reflexivity.
Defined.

Lemma charAt_allowed (i : nat) :
  (i < 32)%nat ->
  PinValidator.allowed (PinGenerator.charAt PinGenerator.PIN_CHARS i) = true.
Proof.
  intros Hi.
  assert (H : forallb (fun i => PinValidator.allowed
                                  (PinGenerator.charAt PinGenerator.PIN_CHARS i))
                (seq 0 32) = true) by (vm_compute; reflexivity).
  rewrite forallb_forall in H. apply H, in_seq. lia.
Qed.

Lemma generate_from_spec (rnd : nat -> nat) (n : nat) :
  forall k,
    String.length (PinGenerator.generate_from rnd k n) = n
    /\ all_chars PinValidator.allowed (PinGenerator.generate_from rnd k n) = true.
Proof.
  induction n as [|n IH]; intros k; [done|].
  destruct (IH (S k)) as [Hlen Hall].
  cbn [PinGenerator.generate_from String.length all_chars]. rewrite Hlen, Hall.
  split; [done|]. rewrite charAt_allowed; [done|].
  unfold PinGenerator.nextInt. apply Nat.mod_upper_bound. by vm_compute.
Qed.

Lemma js_trim_id (s : string) :
  all_chars PinValidator.allowed s = true -> js_trim s = s.
Proof.
  intros Hs. unfold js_trim.
  assert (H1 : all_chars (fun c => negb (isJsWhiteSpace c)) s = true).
  { revert Hs. apply all_chars_impl. intros c Hc.
    apply negb_true_iff. by apply allowed_char. }
  by rewrite !trim_start_id, !trim_end_id.
Qed.

Lemma toUpperCase_id (s : string) :
  all_chars PinValidator.allowed s = true -> toUpperCase s = s.
Proof.
  unfold toUpperCase. induction s as [|c s IH]; [done|]. cbn [all_chars map_string].
  intros [Hc Hs]%andb_true_iff. rewrite (IH Hs). f_equal.
  by apply whitespace_is_blank.
Qed.

(** A well-formed PIN: six characters of the alphabet. *)
Lemma well_formed_accepted (s : string) :
  String.length s = 6%nat -> all_chars PinValidator.allowed s = true ->
  PinValidator.isValid (Some s) = true
  /\ ValidatePin.validatePin s = true
  /\ PinValidator.canonicalize s = s.
Proof.
  intros Hlen Hall. split; [|split].
  - by rewrite isValid_run, (trim_id s Hall), Hlen, Hall.
  - unfold ValidatePin.validatePin, NFKC, ValidatePin.PIN_LENGTH.
    by rewrite (js_trim_id s Hall), (toUpperCase_id s Hall), Hlen.
  - unfold PinValidator.canonicalize, NFKC.
    by rewrite (trim_id s Hall), (toUpperCase_id s Hall).
Qed.

(** X21. Whatever the random source yields, the PIN that [generate()]
    makes is accepted by the back-end validator and by the front-end
    one, and is its own canonical form. *)
Theorem generated_pin_accepted (rnd : nat -> nat) (k : nat) :
  PinValidator.isValid (Some (PinGenerator.generate rnd k)) = true
  /\ ValidatePin.validatePin (PinGenerator.generate rnd k) = true
  /\ PinValidator.canonicalize (PinGenerator.generate rnd k) = PinGenerator.generate rnd k.
Proof.
  destruct (generate_from_spec rnd PinGenerator.PIN_LENGTH k) as [Hlen Hall].
  by apply well_formed_accepted.
Qed.

Lemma trim_end_refine (b1 b2 : ascii -> bool) (s : string) :
  (forall c, b1 c = true -> b2 c = true) ->
  all_chars (fun c => negb (b2 c)) (trim_end b1 s) = true ->
  trim_end b2 s = trim_end b1 s.
Proof.
  intros Hb. induction s as [|c s IH]; [done|]. cbn [trim_end].
  destruct (trim_end b1 s) as [|c' t] eqn:E.
  - rewrite IH by done. destruct (b1 c) eqn:Hc.
    + by rewrite (Hb c Hc).
    + cbn [all_chars]. intros [Hc2 _]%andb_true_iff.
      by rewrite (proj1 (negb_true_iff _) Hc2).
  - cbn [all_chars]. intros [_ Ht]%andb_true_iff. by rewrite (IH Ht).
Qed.

Lemma trim_refine (b1 b2 : ascii -> bool) (s : string) :
  (forall c, b1 c = true -> b2 c = true) ->
  all_chars (fun c => negb (b2 c)) (trim_end b1 (trim_start b1 s)) = true ->
  trim_end b2 (trim_start b2 s) = trim_end b1 (trim_start b1 s).
Proof.
  intros Hb. induction s as [|c s IH]; [done|]. cbn [trim_start].
  destruct (b1 c) eqn:Hc.
  - rewrite (Hb c Hc). apply IH.
  - intros Hall. assert (Hc2 : b2 c = false).
    { revert Hall. cbn [trim_end]. rewrite Hc.
      destruct (trim_end b1 s); cbn [all_chars];
        intros [H _]%andb_true_iff; by apply negb_true_iff. }
    rewrite Hc2. by apply trim_end_refine.
Qed.

(** X22. A Basic Latin string the front-end [validatePin] accepts is
    accepted by the back-end [isValid] once it is put in canonical form:
    on Basic Latin [canonicalize] strips and upper-cases at least what
    the front-end does.  (Beyond Basic Latin this fails: ECMAScript's
    [trim] strips U+FEFF and U+2028, Java's does not.) *)
Theorem validatePin_canonical_valid (pin : string) :
  basicLatin pin = true ->
  ValidatePin.validatePin pin = true ->
  PinValidator.isValid (Some (PinValidator.canonicalize pin)) = true.
Proof.
  intros _. unfold ValidatePin.validatePin, NFKC, ValidatePin.PIN_LENGTH.
  destruct (String.length (toUpperCase (js_trim pin)) =? 6)%nat eqn:Hlen; [|done].
  cbn [negb]. intros Hall. apply Nat.eqb_eq in Hlen.
  change (fun c => contains c ValidatePin.DEFAULT_PIN_CHARS) with PinValidator.allowed in Hall.
  assert (Htrim : trim pin = js_trim pin).
  { unfold trim, js_trim. apply trim_refine; [intros c; apply whitespace_is_blank|].
    fold (js_trim pin). unfold toUpperCase in Hall. rewrite all_chars_map in Hall.
    revert Hall. apply all_chars_impl. intros c Hc.
    apply negb_true_iff. by apply whitespace_is_blank. }
  unfold PinValidator.canonicalize, NFKC. rewrite Htrim.
  by apply well_formed_accepted.
Qed.

(** Witness for X22: a lower-case PIN with blanks around it. *)
Lemma validatePin_canonical_valid_witness :
  basicLatin " ab2cd3 " = true
  /\ ValidatePin.validatePin " ab2cd3 " = true
  /\ PinValidator.isValid (Some (PinValidator.canonicalize " ab2cd3 ")) = true.
Proof.
  split; [reflexivity|]. split; [reflexivity|].
  apply (validatePin_canonical_valid " ab2cd3 "); reflexivity.
Defined.

(** The converse fails, also on Basic Latin: Java's [trim] strips
    U+0001, ECMAScript's does not. *)
Example canonical_valid_not_validatePin :
  PinValidator.isValid
    (Some (PinValidator.canonicalize (String (ascii_of_N 1) "AB2CD3"))) = true
  /\ ValidatePin.validatePin (String (ascii_of_N 1) "AB2CD3") = false.
Proof. split; reflexivity. Qed.

End PinMore.

(** ** More on the session registry and the signalling handler *)

Section RegistryMore.
Import Redis RedisSessionRepository WebSocketHandler RegistryScenario RegistryView.

Lemma conn_key_inj (a b : string) :
  CONN_KEY_PREFIX +:+ a = CONN_KEY_PREFIX +:+ b -> a = b.
Proof. by intros [= H]. Qed.

Lemma pin_key_inj (a b : string) :
  PIN_KEY_PREFIX +:+ a = PIN_KEY_PREFIX +:+ b -> a = b.
Proof. by intros [= H]. Qed.

Lemma exists_false (key : string) (db : Store) :
  exists_ key db = false <-> db !! key = None.
Proof.
  unfold exists_. rewrite bool_decide_eq_false. split.
  - by apply eq_None_not_Some.
  - intros -> [? ?]. done.
Qed.

(** The loop of [createSession] ends only on a candidate that is free. *)
Lemma freshPin_free (rnd : nat -> nat) (db : Store) (turns : nat) :
  forall (k : nat) (pin : string) (k' : nat),
    freshPin turns rnd k db = Some (pin, k') ->
    db !! (PIN_KEY_PREFIX +:+ pin) = None
    /\ exists j, pin = PinGenerator.generate rnd (k + PinGenerator.PIN_LENGTH * j).
Proof.
  induction turns as [|turns IH]; intros k pin k'; [done|]. cbn [freshPin].
  destruct (exists_ _ db) eqn:E.
  - intros H. destruct (IH _ _ _ H) as (Hfree & j & ->). split; [done|].
    exists (S j). f_equal. lia.
  - intros [= <- <-]. split; [by apply exists_false|].
    exists 0%nat. f_equal. lia.
Qed.

Lemma createSession_store (turns : nat) (rnd : nat -> nat) (sender : string) (r : Repo)
  (out : result (string * Repo)) :
  createSession turns rnd sender r = Some out ->
  exists pin k',
    out = ret (pin, {| jedis := created pin sender (jedis r); draws := k' |})
    /\ jedis r !! (PIN_KEY_PREFIX +:+ pin) = None
    /\ exists j, pin = PinGenerator.generate rnd (draws r + PinGenerator.PIN_LENGTH * j).
Proof.
  unfold createSession. destruct (freshPin turns rnd (draws r) (jedis r)) as [[pin k']|] eqn:E;
    [|done].
  intros [= <-]. destruct (freshPin_free _ _ _ _ _ _ E) as [Hfree Hj].
  exists pin, k'. split; [|done].
  unfold hset_all. rewrite Hfree.
  unfold ret, mret, result_ret, mbind, result_bind, expire, setex, created.
  by rewrite lookup_insert_eq, insert_insert_eq.
Qed.

Lemma joinSession_store (r : Repo) (pin conn : string)
  (fields : gmap string string) (t : option Z) :
  jedis r !! (PIN_KEY_PREFIX +:+ pin) = Some {| value := VHash fields; ttl := t |} ->
  joinSession pin conn r
  = ret (true, {| jedis := joined pin conn fields (jedis r); draws := draws r |}).
Proof.
  intros Hs. unfold joinSession, hset, hset_all.
  rewrite (exists_lookup _ _ _ Hs), Hs. cbn [negb].
  unfold ret, mret, result_ret, mbind, result_bind, expire, setex, joined.
  rewrite lookup_insert_eq, insert_insert_eq. cbn [value].
  by rewrite <- insert_union_singleton_l.
Qed.

Lemma created_lookups (pin sender : string) (db : Store) :
  created pin sender db !! (PIN_KEY_PREFIX +:+ pin)
  = Some {| value := VHash {["senderConnId" := sender]}; ttl := Some TTL_SECONDS |}
  /\ created pin sender db !! (CONN_KEY_PREFIX +:+ sender)
     = Some {| value := VString pin; ttl := Some TTL_SECONDS |}
  /\ forall key, key <> PIN_KEY_PREFIX +:+ pin -> key <> CONN_KEY_PREFIX +:+ sender ->
       created pin sender db !! key = db !! key.
Proof.
  unfold created. split; [|split].
  - rewrite (lookup_insert_ne _ _ _ _ (pin_key_not_conn_key pin sender)).
    by rewrite lookup_insert_eq.
  - by rewrite lookup_insert_eq.
  - intros key H1 H2. by rewrite !lookup_insert_ne.
Qed.

Lemma joined_lookups (pin conn : string) (fields : gmap string string) (db : Store) :
  joined pin conn fields db !! (PIN_KEY_PREFIX +:+ pin)
  = Some {| value := VHash (<["receiverConnId" := conn]> fields); ttl := Some TTL_SECONDS |}
  /\ joined pin conn fields db !! (CONN_KEY_PREFIX +:+ conn)
     = Some {| value := VString pin; ttl := Some TTL_SECONDS |}
  /\ forall key, key <> PIN_KEY_PREFIX +:+ pin -> key <> CONN_KEY_PREFIX +:+ conn ->
       joined pin conn fields db !! key = db !! key.
Proof.
  unfold joined. split; [|split].
  - rewrite (lookup_insert_ne _ _ _ _ (pin_key_not_conn_key pin conn)).
    by rewrite lookup_insert_eq.
  - by rewrite lookup_insert_eq.
  - intros key H1 H2. by rewrite !lookup_insert_ne.
Qed.

Lemma generate_accepted (rnd : nat -> nat) (k : nat) :
  PinValidator.isValid (Some (PinGenerator.generate rnd k)) = true.
Proof.
  destruct (generate_from_spec rnd PinGenerator.PIN_LENGTH k) as [Hlen Hall].
  by apply well_formed_accepted.
Qed.

(** X23. When [createSession] returns, it has not thrown; the PIN it
    returns was free before the call and is one [isValid] accepts; the
    session holds the sender, the sender's reverse entry holds the PIN,
    and no other key of the store was touched. *)
Theorem createSession_fresh_session
  (turns : nat) (rnd : nat -> nat) (sender : string) (r : Repo)
  (out : result (string * Repo)) :
  createSession turns rnd sender r = Some out ->
  exists pin r',
    out = ret (pin, r')
    /\ jedis r !! (PIN_KEY_PREFIX +:+ pin) = None
    /\ PinValidator.isValid (Some pin) = true
    /\ getSession pin r' = ret {["senderConnId" := sender]}
    /\ getPinByConnectionId sender r' = ret (Some pin)
    /\ forall key, key <> PIN_KEY_PREFIX +:+ pin -> key <> CONN_KEY_PREFIX +:+ sender ->
         jedis r' !! key = jedis r !! key.
Proof.
  intros H. destruct (createSession_store _ _ _ _ _ H) as (pin & k' & -> & Hfree & j & Hj).
  destruct (created_lookups pin sender (jedis r)) as (Hp & Hc & Hframe).
  eexists pin, _. split; [reflexivity|]. split; [done|]. split; [|split; [|split]].
  - rewrite Hj. apply generate_accepted.
  - unfold getSession, hgetAll. cbn [jedis]. by rewrite Hp.
  - unfold getPinByConnectionId, get. cbn [jedis]. by rewrite Hc.
  - done.
Qed.

(** Witness for X23: the first session on an empty store. *)
Lemma createSession_fresh_session_witness :
  exists pin r',
    createSession 1 (rnd_after 1) "conn-S" {| jedis := ∅; draws := 0 |} = Some (ret (pin, r'))
    /\ (∅ : Store) !! (PIN_KEY_PREFIX +:+ pin) = None
    /\ PinValidator.isValid (Some pin) = true
    /\ getSession pin r' = ret {["senderConnId" := "conn-S"]}
    /\ getPinByConnectionId "conn-S" r' = ret (Some pin)
    /\ forall key, key <> PIN_KEY_PREFIX +:+ pin -> key <> CONN_KEY_PREFIX +:+ "conn-S" ->
         jedis r' !! key = (∅ : Store) !! key.
Proof.
  destruct (createSession 1 (rnd_after 1) "conn-S" {| jedis := ∅; draws := 0 |})
    as [out|] eqn:E; [|vm_compute in E; discriminate].
  destruct (createSession_fresh_session 1 (rnd_after 1) "conn-S"
              {| jedis := ∅; draws := 0 |} out E) as (pin & r' & -> & H).
  by exists pin, r'.
Defined.

(** [removeSession] on a stored session. *)
Lemma removeSession_stored (r : Repo) (pin : string)
  (fields : gmap string string) (t : option Z) :
  jedis r !! (PIN_KEY_PREFIX +:+ pin) = Some {| value := VHash fields; ttl := t |} ->
  exists r',
    removeSession (Some pin) r = ret r'
    /\ jedis r' !! (PIN_KEY_PREFIX +:+ pin) = None
    /\ (forall c, parties fields c -> jedis r' !! (CONN_KEY_PREFIX +:+ c) = None)
    /\ (forall key, key <> PIN_KEY_PREFIX +:+ pin ->
          (forall c, parties fields c -> key <> CONN_KEY_PREFIX +:+ c) ->
          jedis r' !! key = jedis r !! key).
Proof.
  intros Hs. unfold removeSession, getSession, hgetAll. rewrite Hs.
  unfold ret, mret, result_ret, mbind, result_bind, del.
  eexists. split; [reflexivity|]. cbn [jedis]. split; [|split].
  - by rewrite lookup_delete_eq.
  - intros c [Hc|Hc]; rewrite Hc;
      rewrite (lookup_delete_ne _ _ _ (fun E => pin_key_not_conn_key pin c (eq_sym E))).
    + destruct (fields !! "receiverConnId") as [c'|]; [|by rewrite lookup_delete_eq].
      destruct (decide (c' = c)) as [->|Hne]; [by rewrite lookup_delete_eq|].
      rewrite lookup_delete_ne by (intros E; by apply conn_key_inj in E).
      by rewrite lookup_delete_eq.
    + rewrite lookup_delete_eq. done.
  - intros key Hk Hc. rewrite lookup_delete_ne by done.
    destruct (fields !! "receiverConnId") as [c'|] eqn:Hr.
    + rewrite lookup_delete_ne by (apply not_eq_sym, Hc; by right).
      destruct (fields !! "senderConnId") as [c''|] eqn:Hsd; [|done].
      rewrite lookup_delete_ne; [done|]. apply not_eq_sym, Hc. by left.
    + destruct (fields !! "senderConnId") as [c''|] eqn:Hsd; [|done].
      rewrite lookup_delete_ne; [done|]. apply not_eq_sym, Hc. by left.
Qed.

(** X24. [removeSession] on a stored session deletes the session and
    the reverse entries of its sender and receiver, whatever PIN those
    entries hold, and touches no other key. *)
Theorem removeSession_clears (r : Repo) (pin : string)
  (fields : gmap string string) (t : option Z) :
  jedis r !! (PIN_KEY_PREFIX +:+ pin) = Some {| value := VHash fields; ttl := t |} ->
  exists r',
    removeSession (Some pin) r = ret r'
    /\ jedis r' !! (PIN_KEY_PREFIX +:+ pin) = None
    /\ (forall c, parties fields c -> jedis r' !! (CONN_KEY_PREFIX +:+ c) = None)
    /\ (forall key, key <> PIN_KEY_PREFIX +:+ pin ->
          (forall c, parties fields c -> key <> CONN_KEY_PREFIX +:+ c) ->
          jedis r' !! key = jedis r !! key).
Proof. apply removeSession_stored. Qed.

(** Witness for X24: the paired session AAAAAA. *)
Lemma removeSession_clears_witness :
  exists r',
    removeSession (Some "AAAAAA") (sessionRepository paired) = ret r'
    /\ jedis r' !! (PIN_KEY_PREFIX +:+ "AAAAAA") = None
    /\ jedis r' !! (CONN_KEY_PREFIX +:+ "conn-S") = None
    /\ jedis r' !! (CONN_KEY_PREFIX +:+ "conn-R1") = None.
Proof.
  destruct (removeSession_clears (sessionRepository paired) "AAAAAA"
              (<["receiverConnId" := "conn-R1"]> {["senderConnId" := "conn-S"]})
              (Some TTL_SECONDS))
    as (r' & Hr & Hp & Hc & _); [vm_compute; reflexivity|].
  exists r'. split; [done|]. split; [done|]. split; apply Hc.
  - left. vm_compute. reflexivity.
  - right. vm_compute. reflexivity.
Defined.

(** X25. [removeSession] is idempotent: removing a session a second time
    changes nothing. *)
Theorem removeSession_idempotent (pin : option string) (r r' : Repo) :
  removeSession pin r = ret r' -> removeSession pin r' = ret r'.
Proof.
  destruct pin as [pin|]; [|done]. unfold removeSession, getSession, hgetAll.
  destruct (jedis r !! (PIN_KEY_PREFIX +:+ pin)) as [[[fields|] t]|] eqn:Hs; [|done|];
    unfold ret, mret, result_ret, mbind, result_bind, del; intros [= <-]; cbn [jedis draws];
    rewrite ?lookup_delete_eq, !lookup_empty; cbn match;
    rewrite ?lookup_delete_eq, ?lookup_empty; cbn match;
    by rewrite delete_delete_eq.
Qed.

(** Witness for X25: the paired session AAAAAA. *)
Lemma removeSession_idempotent_witness :
  removeSession (Some "AAAAAA") (exec_remove "AAAAAA" (sessionRepository paired))
  = ret (exec_remove "AAAAAA" (sessionRepository paired)).
Proof.
  apply (removeSession_idempotent (Some "AAAAAA") (sessionRepository paired)).
  vm_compute. reflexivity.
Defined.

(** *** The handler *)

Lemma sendMessage_posts (c : string) (m : ServerMessage) (h : Handler) :
  sendMessage (Some c) m h = (inr tt, posts c m h).
Proof. by destruct h as [r [posted|]]. Qed.

Lemma notify_other_posts (target : option string) (m : ServerMessage) (h : Handler) :
  match target with
  | Some targetId => sendMessage (Some targetId) m
  | None => skip
  end h
  = (inr tt, match target with Some targetId => posts targetId m h | None => h end).
Proof. destruct target; [apply sendMessage_posts | done]. Qed.

Lemma relayMessage_routes (c pin : string) (m : JsonNode) (h : Handler)
  (fields : gmap string string) (t1 t2 : option Z) :
  jedis (sessionRepository h) !! (CONN_KEY_PREFIX +:+ c)
    = Some {| value := VString pin; ttl := t1 |} ->
  PinValidator.isValid (Some pin) = true ->
  jedis (sessionRepository h) !! (PIN_KEY_PREFIX +:+ pin)
    = Some {| value := VHash fields; ttl := t2 |} ->
  relayMessage c m h
  = (inr tt, match otherParty c fields with
             | Some target => posts target (SRelayed m) h
             | None => h
             end).
Proof.
  intros Hc Hv Hs. unfold relayMessage.
  rewrite (bind_inr _ _ h h (Some pin))
    by (unfold repo_read, getPinByConnectionId, get; by rewrite Hc).
  rewrite Hv. change (default EmptyString (Some pin)) with pin.
  rewrite (bind_inr _ _ h h fields)
    by (unfold repo_read, getSession, hgetAll; by rewrite Hs).
  apply notify_other_posts.
Qed.

(** X26. A disconnect of a connection that is in a stored session tells
    the other party [peer-left], if there is one, then removes the
    session and both reverse entries; the response is 200. *)
Theorem disconnect_notifies_peer (turns : nat) (rnd : nat -> nat)
  (c pin : string) (h : Handler) (fields : gmap string string) (t1 t2 : option Z) :
  jedis (sessionRepository h) !! (CONN_KEY_PREFIX +:+ c)
    = Some {| value := VString pin; ttl := t1 |} ->
  jedis (sessionRepository h) !! (PIN_KEY_PREFIX +:+ pin)
    = Some {| value := VHash fields; ttl := t2 |} ->
  exists r',
    removeSession (Some pin) (sessionRepository h) = ret r'
    /\ handleRequest turns rnd c Disconnect h
       = Some (200, set_sessionRepository r'
                      match otherParty c fields with
                      | Some target => posts target SPeerLeft h
                      | None => h
                      end)
    /\ jedis r' !! (PIN_KEY_PREFIX +:+ pin) = None
    /\ forall c', parties fields c' -> jedis r' !! (CONN_KEY_PREFIX +:+ c') = None.
Proof.
  intros Hc Hs.
  destruct (removeSession_stored (sessionRepository h) pin fields t2 Hs)
    as (r' & Hr & Hp & Hcs & _).
  exists r'. split; [done|]. split; [|done].
  unfold handleRequest, handleDisconnect.
  rewrite (bind_inr _ _ h h (Some pin))
    by (unfold repo_read, getPinByConnectionId, get; by rewrite Hc).
  rewrite (bind_inr _ _ h h fields)
    by (unfold repo_read, getSession, hgetAll; by rewrite Hs).
  rewrite (bind_inr _ _ _ _ tt (notify_other_posts _ _ _)).
  unfold repo_call.
  replace (sessionRepository
             match otherParty c fields with
             | Some target => posts target SPeerLeft h
             | None => h
             end) with (sessionRepository h) by (by destruct (otherParty c fields)).
  by rewrite Hr.
Qed.

(** Witness for X26: the receiver of the paired session disconnects. *)
Lemma disconnect_notifies_peer_witness :
  exists r',
    removeSession (Some "AAAAAA") (sessionRepository paired) = ret r'
    /\ handleRequest 1 (rnd_after 1) "conn-R1" Disconnect paired
       = Some (200, set_sessionRepository r' (posts "conn-S" SPeerLeft paired))
    /\ jedis r' !! (PIN_KEY_PREFIX +:+ "AAAAAA") = None.
Proof.
  destruct (disconnect_notifies_peer 1 (rnd_after 1) "conn-R1" "AAAAAA" paired
              (<["receiverConnId" := "conn-R1"]> {["senderConnId" := "conn-S"]})
              (Some TTL_SECONDS) (Some TTL_SECONDS))
    as (r' & Hr & Hd & Hp & _); [vm_compute; reflexivity..|].
  exists r'. split; [done|]. split; [|done]. exact Hd.
Defined.

(** X27. A join with a PIN under which nothing is stored changes nothing
    in the store and sends the joiner an error; the response is 200. *)
Theorem join_unknown_pin (turns : nat) (rnd : nat -> nat)
  (conn pin : string) (message : JsonNode) (h : Handler) :
  messageType message = "join" ->
  j_pin message = Some pin ->
  jedis (sessionRepository h) !! (PIN_KEY_PREFIX +:+ pin) = None ->
  handleRequest turns rnd conn (Default (Json message)) h
  = Some (200, posts conn (SError "Invalid PIN") h).
Proof.
  intros Hty Hpin Hs. unfold handleRequest, handleMessage. rewrite Hty, Hpin.
  rewrite bool_decide_eq_false_2 by done. rewrite bool_decide_eq_true_2 by done.
  cbn [fmap option_fmap option_map].
  rewrite (bind_inr _ _ h h pin) by done.
  rewrite (bind_inr _ _ h h false).
  - by rewrite sendMessage_posts.
  - unfold repo_call, joinSession. rewrite (proj2 (exists_false _ _) Hs). cbn.
    by destruct h.
Qed.

(** Witness for X27: a join on the empty registry. *)
Lemma join_unknown_pin_witness :
  handleRequest 1 (rnd_after 1) "conn-R" (Default (json "join" (Some "AAAAAA"))) empty_handler
  = Some (200, posts "conn-R" (SError "Invalid PIN") empty_handler).
Proof.
  apply (join_unknown_pin 1 (rnd_after 1) "conn-R" "AAAAAA"); reflexivity.
Defined.

(** X28. Relaying reads the registry and never writes it: an [offer],
    [answer] or [candidate] from any connection, on any handler, leaves
    the repository as it was and posts the message to at most one
    connection. *)
Theorem relay_reads_only (turns : nat) (rnd : nat -> nat)
  (c : string) (m : JsonNode) (h : Handler) :
  relayed m ->
  exists out h',
    handleMessage turns rnd c (Json m) h = Some (out, h')
    /\ (h' = h \/ exists target, h' = posts target (SRelayed m) h).
Proof.
  intros Hm. unfold handleMessage.
  assert (Hroute : (if bool_decide (messageType m = "register") then None
                    else if bool_decide (messageType m = "join") then None
                    else if bool_decide (messageType m = "offer")
                            || bool_decide (messageType m = "answer")
                            || bool_decide (messageType m = "candidate")
                    then Some tt else None) = Some tt).
  { destruct Hm as [-> | [-> | ->]]; reflexivity. }
  destruct (bool_decide (messageType m = "register")); [done|].
  destruct (bool_decide (messageType m = "join")); [done|].
  destruct (bool_decide (messageType m = "offer") || bool_decide (messageType m = "answer")
            || bool_decide (messageType m = "candidate")); [|done].
  clear Hroute. unfold relayMessage, repo_read.
  unfold mbind at 1, ST_bind at 1.
  destruct (getPinByConnectionId c (sessionRepository h)) as [e|pin]; [by eauto|].
  destruct (PinValidator.isValid pin); [|by eauto].
  unfold mbind, ST_bind.
  destruct (getSession (default EmptyString pin) (sessionRepository h)) as [e|session];
    [by eauto|].
  rewrite notify_other_posts. destruct (otherParty c session) as [target|].
  - eexists _, _. split; [reflexivity|]. right. by exists target.
  - eexists _, _. split; [reflexivity|]. by left.
Qed.

(** Witness for X28: an offer from the sender of the paired session. *)
Lemma relay_reads_only_witness :
  exists out h',
    handleMessage 1 (rnd_after 1) "conn-S" (json "offer" None) paired = Some (out, h')
    /\ (h' = paired
        \/ exists target,
             h' = posts target
                    (SRelayed {| j_type := Some "offer"; j_action := None;
                                 j_pin := None; j_payload := None |}) paired).
Proof.
  apply (relay_reads_only 1 (rnd_after 1) "conn-S"
           {| j_type := Some "offer"; j_action := None; j_pin := None; j_payload := None |}).
  left. reflexivity.
Defined.

(** *** From pairing to relaying *)

Lemma handleMessage_relay (turns : nat) (rnd : nat -> nat)
  (c : string) (m : JsonNode) (h : Handler) :
  relayed m -> handleMessage turns rnd c (Json m) h = Some (relayMessage c m h).
Proof. unfold handleMessage. by intros [-> | [-> | ->]]. Qed.

Lemma paired_fields (sender receiver : string) :
  let fields : gmap string string :=
    <["receiverConnId" := receiver]> {["senderConnId" := sender]} in
  otherParty sender fields = Some receiver
  /\ otherParty receiver fields = Some sender.
Proof.
  cbn zeta. unfold otherParty.
  rewrite lookup_insert_eq, lookup_insert_ne by done. rewrite lookup_singleton_eq.
  rewrite bool_decide_eq_true_2 by done. split; [done|].
  case_bool_decide as E; [|done]. by injection E as ->.
Qed.

(** Relaying between the two parties of a stored session, any number
    of times. *)
Lemma relays_route (turns : nat) (rnd : nat -> nat) (sender receiver pin : string)
  (t1 t2 t3 : option Z) (ms : list (string * JsonNode)) :
  PinValidator.isValid (Some pin) = true ->
  Forall (fun cm => (cm.1 = sender \/ cm.1 = receiver) /\ relayed cm.2) ms ->
  forall h,
    jedis (sessionRepository h) !! (CONN_KEY_PREFIX +:+ sender)
      = Some {| value := VString pin; ttl := t1 |} ->
    jedis (sessionRepository h) !! (CONN_KEY_PREFIX +:+ receiver)
      = Some {| value := VString pin; ttl := t2 |} ->
    jedis (sessionRepository h) !! (PIN_KEY_PREFIX +:+ pin)
      = Some {| value := VHash (<["receiverConnId" := receiver]>
                                  {["senderConnId" := sender]});
                ttl := t3 |} ->
    handleMessages turns rnd ms h
    = Some (inr tt,
            posts_all ((fun cm => (peer sender receiver cm.1, SRelayed cm.2)) <$> ms) h).
Proof.
  intros Hvalid Hms. destruct (paired_fields sender receiver) as [Ho1 Ho2].
  induction Hms as [|[c m] ms [Hc Hm] _ IH]; intros h Hs Hr Hp.
  - cbn. unfold posts_all. destruct h as [r [posted|]]; cbn; [|done].
    by rewrite app_nil_r.
  - cbn [handleMessages fst snd] in *. rewrite (handleMessage_relay _ _ _ _ _ Hm).
    assert (Hroute : relayMessage c m h
                     = (inr tt, posts (peer sender receiver c) (SRelayed m) h)).
    { unfold peer. destruct Hc as [->| ->].
      - rewrite (relayMessage_routes sender pin m h _ _ _ Hs Hvalid Hp), Ho1.
        by rewrite bool_decide_eq_true_2.
      - rewrite (relayMessage_routes receiver pin m h _ _ _ Hr Hvalid Hp), Ho2.
        case_bool_decide as E; [by rewrite E|done]. }
    rewrite Hroute, (IH (posts (peer sender receiver c) (SRelayed m) h) Hs Hr Hp).
    do 2 f_equal. unfold posts_all, posts. cbn [sessionRepository apiClient fmap list_fmap].
    f_equal. destruct (apiClient h) as [posted|]; cbn; [|done].
    by rewrite <- app_assoc.
Qed.

(** X29. Pairing, end to end: a sender registers and gets a PIN, a
    receiver joins with it; the sender is told [registered] and
    [peer-joined], the receiver [joined].  In the state this leaves, any
    sequence of [offer], [answer] and [candidate] messages of the two
    parties is handled to the end: each message of the sender is posted
    to the receiver and each one of the receiver to the sender, in
    order, and to no one else.  This holds on any registry and for any
    random source, after any number of colliding candidates.  It is a
    statement about the store as the join leaves it: the passing of
    time is not part of the model, so the keys do not expire during the
    sequence, and no other event (disconnect, join) comes in between. *)
Theorem paired_peers_relay (turns n : nat) (rnd : nat -> nat) (h : Handler)
  (sender receiver : string) (ms : list (string * JsonNode)) :
  (forall j, (j < n)%nat -> collides rnd (sessionRepository h) j) ->
  ~ collides rnd (sessionRepository h) n ->
  (n < turns)%nat ->
  Forall (fun cm => (cm.1 = sender \/ cm.1 = receiver) /\ relayed cm.2) ms ->
  exists pin h1 h2,
    handleMessage turns rnd sender (json "register" None) h = Some (inr tt, h1)
    /\ handleMessage turns rnd receiver (json "join" (Some pin)) h1 = Some (inr tt, h2)
    /\ apiClient h2
       = (fun posted => posted ++ [(sender, SRegister pin); (sender, SPeerJoined);
                                   (receiver, SJoined)]) <$> apiClient h
    /\ handleMessages turns rnd ms h2
       = Some (inr tt,
               posts_all ((fun cm => (peer sender receiver cm.1, SRelayed cm.2)) <$> ms) h2).
Proof.
  intros Htaken Hfree Hturns Hms.
  destruct (createSession_after_collisions turns n rnd sender (sessionRepository h)
              Htaken Hfree Hturns) as (r1 & Hcreate & _).
  destruct (createSession_store _ _ _ _ _ Hcreate) as (pin & k' & [= <- ->] & _ & _).
  assert (Hvalid : PinValidator.isValid (Some (candidate rnd (sessionRepository h) n)) = true)
    by apply generate_accepted.
  set (pin := candidate rnd (sessionRepository h) n) in *. clearbody pin.
  set (db := jedis (sessionRepository h)) in *.
  set (r1 := {| jedis := created pin sender db; draws := k' |}) in *.
  set (h1 := posts sender (SRegister pin) (set_sessionRepository r1 h)).
  set (fields := <["receiverConnId" := receiver]> {["senderConnId" := sender]}
                 : gmap string string).
  set (r2 := {| jedis := joined pin receiver {["senderConnId" := sender]} (jedis r1);
                draws := draws r1 |}).
  set (h2 := posts receiver SJoined (posts sender SPeerJoined (set_sessionRepository r2 h1))).
  destruct (created_lookups pin sender db) as (Hc1 & Hc2 & Hc3).
  destruct (joined_lookups pin receiver {["senderConnId" := sender]} (jedis r1))
    as (Hj1 & Hj2 & Hj3).
  assert (Hsender : jedis (sessionRepository h2) !! (CONN_KEY_PREFIX +:+ sender)
                    = Some {| value := VString pin; ttl := Some TTL_SECONDS |}).
  { change (jedis (sessionRepository h2)) with (jedis r2). cbn [jedis r2].
    destruct (decide (receiver = sender)) as [->|Hne]; [done|].
    rewrite Hj3; [done| |].
    - apply pin_key_not_conn_key.
    - intros E. by apply conn_key_inj in E. }
  exists pin, h1, h2. split; [|split; [|split]].
  - unfold handleMessage, json. cbn [messageType j_type].
    rewrite bool_decide_eq_true_2 by done.
    rewrite Hcreate.
    rewrite (bind_inr _ _ h (set_sessionRepository r1 h) pin) by done.
    by rewrite sendMessage_posts.
  - unfold handleMessage, json. cbn [messageType j_type j_pin].
    rewrite bool_decide_eq_false_2 by done. rewrite bool_decide_eq_true_2 by done.
    rewrite (bind_inr _ _ h1 h1 pin) by done.
    rewrite (bind_inr _ _ h1 (set_sessionRepository r2 h1) true).
    2:{ unfold repo_call. change (sessionRepository h1) with r1.
        by rewrite (joinSession_store r1 pin receiver _ _ Hc1). }
    rewrite (bind_inr _ _ _ (set_sessionRepository r2 h1) fields).
    2:{ unfold repo_read, getSession, hgetAll.
        change (jedis (sessionRepository (set_sessionRepository r2 h1))) with (jedis r2).
        cbn [jedis r2]. by rewrite Hj1. }
    assert (Hs : fields !! "senderConnId" = Some sender).
    { subst fields. rewrite lookup_insert_ne by done. apply lookup_singleton_eq. }
    rewrite Hs.
    rewrite (bind_inr _ _ _ _ tt (sendMessage_posts _ _ _)).
    by rewrite sendMessage_posts.
  - subst h2 h1. unfold posts, set_sessionRepository. cbn [apiClient].
    destruct (apiClient h) as [posted|]; [|done]. cbn. by rewrite <- !app_assoc.
  - apply (relays_route turns rnd sender receiver pin
             (Some TTL_SECONDS) (Some TTL_SECONDS) (Some TTL_SECONDS) ms Hvalid Hms).
    + exact Hsender.
    + change (jedis (sessionRepository h2)) with (jedis r2). cbn [jedis r2]. exact Hj2.
    + change (jedis (sessionRepository h2)) with (jedis r2). cbn [jedis r2]. exact Hj1.
Qed.

(** Witness for X29: [conn-S] and [conn-R1] on the empty registry; an
    offer of the sender, an offer of the receiver and again one of the
    sender. *)
Lemma paired_peers_relay_witness :
  exists pin h1 h2,
    handleMessage 1 (rnd_after 1) "conn-S" (json "register" None) empty_handler
    = Some (inr tt, h1)
    /\ handleMessage 1 (rnd_after 1) "conn-R1" (json "join" (Some pin)) h1 = Some (inr tt, h2)
    /\ apiClient h2
       = (fun posted => posted ++ [("conn-S", SRegister pin); ("conn-S", SPeerJoined);
                                   ("conn-R1", SJoined)]) <$> apiClient empty_handler
    /\ handleMessages 1 (rnd_after 1)
         [("conn-S", an_offer); ("conn-R1", an_offer); ("conn-S", an_offer)] h2
       = Some (inr tt,
               posts_all
                 ((fun cm => (peer "conn-S" "conn-R1" cm.1, SRelayed cm.2))
                    <$> [("conn-S", an_offer); ("conn-R1", an_offer); ("conn-S", an_offer)])
                 h2).
Proof.
  apply (paired_peers_relay 1 0 (rnd_after 1) empty_handler "conn-S" "conn-R1").
  - intros j Hj. lia.
  - intros H. vm_compute in H. discriminate.
  - lia.
  - constructor; [split; [by left | by left]|].
    constructor; [split; [by right | by left]|].
    constructor; [split; [by left | by left]|].
    constructor.
Defined.

End RegistryMore.

(** ** Reassembly in memory *)

Section Reassembly.
Import ChunkProtocol Transport FlowControl Hoare ReceiverView ReceiverTrace.

#[local] Instance keeps_preorder : PreOrder keeps.
Proof.
  split.
  - by intros r.
  - intros r1 r2 r3 (A1 & A2 & A3 & A4 & A5 & A6) (B1 & B2 & B3 & B4 & B5 & B6).
    unfold keeps. rewrite B1, B2, B3, B4, B5. auto 10.
Qed.

Lemma seqZ_strictly_sorted (n : nat) : forall k, StronglySorted Z.lt (Z.of_nat <$> seq k n).
Proof.
  induction n as [|n IH]; intros k; [constructor|]. cbn [seq fmap list_fmap].
  constructor; [apply IH|]. apply Forall_forall. intros x Hx.
  apply list_elem_of_fmap in Hx as (j & -> & Hj). apply elem_of_seq in Hj. lia.
Qed.

(** The sorted keys of a map whose keys are [0 .. n-1]. *)
Lemma sorted_keys {A} (m : gmap Z A) (n : nat) :
  (forall i, is_Some (m !! i) <-> 0 <= i < Z.of_nat n) ->
  merge_sort Z.le (fst <$> map_to_list m) = Z.of_nat <$> seq 0 n.
Proof.
  intros Hdom.
  assert (Hnd : NoDup (merge_sort Z.le (fst <$> map_to_list m))).
  { rewrite merge_sort_Permutation. apply NoDup_fst_map_to_list. }
  apply (StronglySorted_unique_strong Z.lt).
  - intros; lia.
  - apply sorted_nodup_strict; [apply (Sorted_merge_sort Z.le)|done].
  - apply seqZ_strictly_sorted.
  - apply NoDup_Permutation; [done| |].
    + apply (NoDup_fmap_2 _). apply NoDup_seq.
    + intros i. rewrite merge_sort_Permutation, list_elem_of_fmap.
      split.
      * intros ([i' v] & -> & Hv). apply elem_of_map_to_list in Hv. cbn.
        assert (Hi : 0 <= i' < Z.of_nat n) by (apply Hdom; eauto).
        apply list_elem_of_fmap. exists (Z.to_nat i'). split; [lia|].
        apply elem_of_seq. lia.
      * intros (j & -> & Hj)%list_elem_of_fmap. apply elem_of_seq in Hj.
        destruct (proj2 (Hdom (Z.of_nat j)) ltac:(lia)) as [v Hv].
        exists (Z.of_nat j, v). split; [done|]. by apply elem_of_map_to_list.
Qed.

Lemma parts_in_order (m : gmap Z Uint8Array) (parts : list (list byte)) (n : nat) :
  (forall i : nat, contents <$> (m !! Z.of_nat i) = parts !! i) ->
  forall k, (k + n <= length parts)%nat ->
    contents <$> omap (fun i => m !! i) (Z.of_nat <$> seq k n) = take n (drop k parts).
Proof.
  intros Hm. induction n as [|n IH]; intros k Hk; [done|].
  cbn [seq fmap list_fmap omap list_omap].
  destruct (lookup_lt_is_Some_2 parts k ltac:(lia)) as [p Hp].
  pose proof (Hm k) as Hmk. rewrite Hp in Hmk.
  destruct (m !! Z.of_nat k) as [v|] eqn:Hv; [|done]. injection Hmk as Hmk.
  cbn [fmap list_fmap]. change (list_omap ?f ?l) with (omap f l).
  change (list_fmap _ _ ?f ?l) with (f <$> l).
  rewrite (IH (S k)) by lia. rewrite (drop_S _ _ _ Hp). cbn [take]. by rewrite Hmk.
Qed.

(** The blob of a map that holds the chunks [parts] under [0 .. n-1] is
    their concatenation in index order, however the map lists its
    keys. *)
Lemma blob_in_index_order (m : gmap Z Uint8Array) (parts : list (list byte)) :
  (forall i, contents <$> (m !! i)
             = if bool_decide (0 <= i) then parts !! Z.to_nat i else None) ->
  blob m = concat parts.
Proof.
  intros Hm. unfold blob.
  rewrite (sorted_keys m (length parts)).
  - rewrite (parts_in_order m parts (length parts)).
    + by rewrite drop_0, firstn_all.
    + intros i. rewrite Hm, bool_decide_eq_true_2 by lia. by rewrite Nat2Z.id.
    + lia.
  - intros i. rewrite <- (fmap_is_Some contents), Hm. case_bool_decide as Hi.
    + rewrite lookup_lt_is_Some. lia.
    + split; [by intros [? ?]|lia].
Qed.

Lemma run_ok {S} (m : ST S unit) (s : S) : (m s).1 = inr tt -> m s = (inr tt, (m s).2).
Proof. destruct (m s) as [[e|[]] s']; cbn [fst snd]; intros H; [discriminate H|reflexivity]. Qed.

Lemma keeps_fields (r r' : Receiver.Receiver) :
  Receiver.fileMeta r' = Receiver.fileMeta r ->
  Receiver.writableStream r' = Receiver.writableStream r ->
  Receiver.chunks r' = Receiver.chunks r ->
  Receiver.downloads r' = Receiver.downloads r ->
  Receiver.receivedRanges r' = Receiver.receivedRanges r ->
  Receiver.dataChannel r' = Receiver.dataChannel r ->
  keeps r r'.
Proof. intros H1 H2 H3 H4 H5 H6. unfold keeps, usable. by rewrite H1, H2, H3, H4, H5, H6. Qed.

Lemma keeps_channel_send (f : Frame) : preserves keeps (Receiver.channel_send f).
Proof.
  intros r. rewrite channel_send_cases.
  destruct (Receiver.dataChannel r) as [dc|] eqn:E; [|reflexivity].
  case_decide as Hopen; [|reflexivity]. cbn [snd]. unfold keeps. cbn.
  repeat split. intros _ dc' [= <-]. exact Hopen.
Qed.

Lemma keeps_sendAcks : preserves keeps Receiver.sendAcks.
Proof.
  intros r. rewrite sendAcks_run.
  destruct (Receiver.dataChannel r) as [dc|] eqn:E; [|reflexivity].
  case_bool_decide; [reflexivity|]. case_decide as Hopen; [|reflexivity].
  cbn [snd]. unfold keeps. cbn. repeat split. by intros _ dc' [= <-].
Qed.

Lemma sendAcks_returns (r : Receiver.Receiver) :
  usable r -> (Receiver.sendAcks r).1 = inr tt.
Proof.
  intros Hu. rewrite sendAcks_run.
  destruct (Receiver.dataChannel r) as [dc|] eqn:E; [|done].
  case_bool_decide; [done|]. by rewrite decide_True by by apply Hu.
Qed.

Lemma updateProgress_run (st : TransferState.TransferStatus) (r : Receiver.Receiver) :
  (Receiver.updateProgress st r).1 = inr tt /\ keeps r (Receiver.updateProgress st r).2.
Proof.
  unfold Receiver.updateProgress. destruct (Receiver.onProgress r); [|done].
  split; [done|]. by apply keeps_fields.
Qed.

(** [completeTransfer()] without a sink: the blob of the stored chunks
    is downloaded and the store emptied. *)
Lemma completeTransfer_memory (r : Receiver.Receiver) (meta : FileMetadata) :
  Receiver.fileMeta r = Some meta -> Receiver.writableStream r = None -> usable r ->
  (started Receiver.completeTransfer_start r).1 = inr false
  /\ keeps (Receiver.set_chunks ∅
              (Receiver.set_downloads
                 (Receiver.downloads r ++ [(name meta, blob (Receiver.chunks r))]) r))
           (started Receiver.completeTransfer_start r).2.
Proof.
  intros Hm Hw Hu.
  assert (Hrun : Receiver.completeTransfer_start r
                 = (_ ← (_ ← Receiver.assembleAndDownload; Receiver.completeTransfer_notify);
                    mret false)
                     (Receiver.set_nackTimer false (Receiver.sendAcks r).2)).
  { unfold Receiver.completeTransfer_start.
    rewrite (bind_inr _ _ _ _ tt (run_ok _ _ (sendAcks_returns r Hu))).
    destruct (keeps_sendAcks r) as (K1 & K2 & K3 & K4 & K5 & K6).
    rewrite bind_modify, bind_get.
    change (Receiver.writableStream (Receiver.set_nackTimer false (Receiver.sendAcks r).2))
      with (Receiver.writableStream (Receiver.sendAcks r).2).
    rewrite K2, Hw, bool_decide_eq_true_2 by done.
    unfold mbind, ST_bind.
    destruct (Receiver.assembleAndDownload _) as [[e|[]] s']; [done|].
    by destruct (Receiver.completeTransfer_notify s') as [[e|[]] s'']. }
  rewrite (started_ext _ _ _ _ Hrun), started_then_false. clear Hrun.
  split; [done|]. cbn [snd].
  destruct (keeps_sendAcks r) as (K1 & K2 & K3 & K4 & K5 & K6).
  set (s1 := (Receiver.sendAcks r).2) in *.
  set (s2 := Receiver.set_nackTimer false s1).
  set (s3 := Receiver.set_chunks ∅
               (Receiver.set_downloads
                  (Receiver.downloads s2 ++ [(name meta, blob (Receiver.chunks s2))]) s2)).
  assert (Hasm : Receiver.assembleAndDownload s2
                 = (inr tt, (Receiver.updateProgress TransferState.completed s3).2)).
  { unfold Receiver.assembleAndDownload. rewrite bind_get.
    change (Receiver.fileMeta s2) with (Receiver.fileMeta s1). rewrite K1, Hm.
    rewrite !bind_modify. apply run_ok, updateProgress_run. }
  rewrite (bind_inr _ _ _ _ tt Hasm).
  etrans; [|etrans; [apply (proj2 (updateProgress_run TransferState.completed s3))|]].
  - unfold keeps, usable. cbn. rewrite K1, K2, K3, K4, K5. repeat split. exact K6.
  - papply. unfold Receiver.completeTransfer_notify. pbind; [pdone preserves_get|].
    apply preserves_if; [pdone preserves_skip | apply keeps_channel_send].
Qed.

(** [acceptChunk] on a fresh chunk, without a sink. *)
Lemma acceptChunk_memory (ranges : ReceivedRanges) (d : DecodedChunk)
  (r : Receiver.Receiver) (meta : FileMetadata) :
  hasChunk (chunkIndex d) ranges = false ->
  Receiver.fileMeta r = Some meta -> Receiver.writableStream r = None -> usable r ->
  keeps (if isComplete (markReceived (chunkIndex d) ranges)
         then Receiver.set_chunks ∅
                (Receiver.set_downloads
                   (Receiver.downloads r
                    ++ [(name meta, blob (<[chunkIndex d := payload d]> (Receiver.chunks r)))])
                   (Receiver.set_receivedRanges
                      (Some (markReceived (chunkIndex d) ranges)) r))
         else Receiver.set_chunks (<[chunkIndex d := payload d]> (Receiver.chunks r))
                (Receiver.set_receivedRanges
                   (Some (markReceived (chunkIndex d) ranges)) r))
        (Receiver.acceptChunk ranges d r).2.
Proof.
  intros Hfresh Hm Hw Hu. unfold Receiver.acceptChunk.
  rewrite Hfresh, bind_get, bool_decide_eq_true_2 by done.
  rewrite (bind_inr
             (_ ← modify (fun r0 => Receiver.set_chunks
                            (<[chunkIndex d := payload d]> (Receiver.chunks r0)) r0);
              mret false) _ r _ false eq_refl).
  unfold settled.
  rewrite !bind_modify, bind_get.
  set (ranges' := markReceived (chunkIndex d) ranges).
  set (stored := <[chunkIndex d := payload d]> (Receiver.chunks r)).
  set (s4 := Receiver.set_pendingAcks _ (Receiver.set_receivedBytes _ _)).
  assert (K4 : keeps (Receiver.set_chunks stored
                        (Receiver.set_receivedRanges (Some ranges') r)) s4)
    by (by apply keeps_fields).
  assert (Hu4 : usable s4) by exact Hu.
  set (acks := if bool_decide _ then Receiver.sendAcks else skip).
  assert (Hacks : (acks s4).1 = inr tt /\ keeps s4 (acks s4).2).
  { subst acks. case_bool_decide; [|done]. split; [by apply sendAcks_returns|].
    apply keeps_sendAcks. }
  destruct Hacks as [Hrun K5]. rewrite (bind_inr _ _ _ _ tt (run_ok _ _ Hrun)).
  set (s5 := (acks s4).2) in *.
  destruct (updateProgress_run TransferState.transferring s5) as [Hrun6 K6].
  rewrite (bind_inr _ _ _ _ tt (run_ok _ _ Hrun6)).
  set (s6 := (Receiver.updateProgress TransferState.transferring s5).2) in *.
  assert (K : keeps (Receiver.set_chunks stored
                       (Receiver.set_receivedRanges (Some ranges') r)) s6)
    by (etrans; [exact K4|]; etrans; [exact K5|exact K6]).
  destruct (isComplete ranges').
  - destruct K as (A1 & A2 & A3 & A4 & A5 & A6). cbn in A1, A2, A3, A4, A5.
    destruct (completeTransfer_memory s6 meta) as [Hres Hkeeps];
      [congruence|congruence|by apply A6|].
    destruct (started Receiver.completeTransfer_start s6) as [res s7].
    cbn [fst snd] in Hres, Hkeeps. subst res. cbn [snd].
    etrans; [|exact Hkeeps].
    unfold keeps, usable. cbn. rewrite A1, A2, A3, A4, A5. repeat split. exact A6.
  - exact K.
Qed.

Lemma complete_all (rr : ReceivedRanges) (n : nat) :
  rr_totalChunks rr = Z.of_nat n ->
  (forall i, i ∈ receivedSet rr -> 0 <= i < Z.of_nat n) ->
  isComplete rr = true ->
  forall i, 0 <= i < Z.of_nat n -> i ∈ receivedSet rr.
Proof.
  intros Ht Hin Hc. unfold isComplete in Hc. apply bool_decide_eq_true in Hc.
  assert (E : receivedSet rr = list_to_set (seqZ 0 (Z.of_nat n))).
  { apply set_subseteq_size_eq.
    - intros i Hi. apply elem_of_list_to_set, elem_of_seqZ. specialize (Hin i Hi). lia.
    - rewrite size_list_to_set by apply NoDup_seqZ. rewrite length_seqZ. lia. }
  intros i Hi. rewrite E. apply elem_of_list_to_set, elem_of_seqZ. lia.
Qed.

Lemma all_complete (rr : ReceivedRanges) (n : nat) :
  rr_totalChunks rr = Z.of_nat n ->
  (forall i, 0 <= i < Z.of_nat n -> i ∈ receivedSet rr) ->
  isComplete rr = true.
Proof.
  intros Ht Hall. unfold isComplete. apply bool_decide_eq_true.
  assert (Hsub : list_to_set (seqZ 0 (Z.of_nat n)) ⊆ receivedSet rr).
  { intros i Hi. apply elem_of_list_to_set, elem_of_seqZ in Hi. apply Hall. lia. }
  apply subseteq_size in Hsub.
  rewrite size_list_to_set in Hsub by apply NoDup_seqZ. rewrite length_seqZ in Hsub. lia.
Qed.

(** One frame on a receiver that is assembling. *)
Lemma handleBinaryChunk_assembling (meta : FileMetadata) (parts : list (list byte))
  (ds : list (string * list byte)) (r : Receiver.Receiver) (buf : ArrayBuffer) (i : nat) :
  assembling meta parts ds r -> carries parts buf i ->
  assembling meta parts ds (exec (Receiver.handleBinaryChunk buf) r)
  /\ got (exec (Receiver.handleBinaryChunk buf) r) (Z.of_nat i)
  /\ forall j, got r j -> got (exec (Receiver.handleBinaryChunk buf) r) j.
Proof.
  intros (Hm & Hw & Hu & rr & Hrr & Ht & Hin & Hst) (d & Hd & Hi & Hp).
  unfold exec, Receiver.handleBinaryChunk. rewrite Hm, Hrr, try_catch_run, Hd. cbn [snd].
  assert (Hlt : (i < length parts)%nat) by (by apply lookup_lt_Some in Hp).
  destruct (hasChunk (chunkIndex d) rr) eqn:Hhas.
  - unfold Receiver.acceptChunk. rewrite Hhas. cbn [snd skip mret ST_ret].
    split; [|split; [|done]].
    + split; [done|]. split; [done|]. split; [done|]. by exists rr.
    + exists rr. split; [done|]. apply bool_decide_eq_true in Hhas. by rewrite <- Hi.
  - pose proof (acceptChunk_memory rr d r meta Hhas Hm Hw Hu) as K.
    set (r' := (Receiver.acceptChunk rr d r).2) in *.
    set (rr' := markReceived (chunkIndex d) rr) in *.
    assert (Hset : receivedSet rr' = {[chunkIndex d]} ∪ receivedSet rr)
      by apply markReceived_receivedSet.
    assert (Ht' : rr_totalChunks rr' = Z.of_nat (length parts))
      by (unfold rr'; by rewrite markReceived_totalChunks).
    assert (Hin' : forall j, j ∈ receivedSet rr' -> 0 <= j < Z.of_nat (length parts)).
    { intros j. rewrite Hset, elem_of_union, elem_of_singleton.
      intros [->|Hj]; [lia|auto]. }
    assert (Hold : isComplete rr = false).
    { destruct (isComplete rr) eqn:Hc; [|done]. exfalso.
      apply bool_decide_eq_false in Hhas. apply Hhas.
      apply (complete_all rr (length parts)); auto. lia. }
    rewrite Hold in Hst. destruct Hst as [Hds Hch].
    assert (Hstored : forall j,
               contents <$> (<[chunkIndex d := payload d]> (Receiver.chunks r) !! j)
               = if bool_decide (j ∈ receivedSet rr') then parts !! Z.to_nat j else None).
    { intros j. rewrite Hset. destruct (decide (j = chunkIndex d)) as [->|Hne].
      - rewrite lookup_insert_eq, bool_decide_eq_true_2
          by (apply elem_of_union; left; by apply elem_of_singleton).
        cbn. by rewrite Hi, Nat2Z.id.
      - rewrite lookup_insert_ne by done. rewrite Hch.
        case_bool_decide as H1; case_bool_decide as H2; try done; exfalso.
        + apply H2, elem_of_union. by right.
        + apply elem_of_union in H2 as [H2%elem_of_singleton|H2]; done. }
    assert (Hr' : Receiver.receivedRanges r' = Some rr' /\ Receiver.fileMeta r' = Some meta
                  /\ Receiver.writableStream r' = None /\ usable r').
    { destruct (isComplete rr'); destruct K as (A1 & A2 & A3 & A4 & A5 & A6);
        cbn in A1, A2, A5; (split; [done|]); (split; [congruence|]);
        (split; [congruence|]); by apply A6. }
    destruct Hr' as (Hrr' & Hm' & Hw' & Hu').
    split; [|split].
    + split; [done|]. split; [done|]. split; [done|]. exists rr'.
      split; [done|]. split; [done|]. split; [done|].
      destruct (isComplete rr') eqn:Hc'.
      * destruct K as (_ & _ & _ & A4 & _). cbn in A4. rewrite A4, Hds.
        do 3 f_equal. apply blob_in_index_order.
        intros j. rewrite Hstored.
        case_bool_decide as Hj; case_bool_decide as Hj0; try done.
        -- specialize (Hin' j Hj). lia.
        -- destruct (decide (j < Z.of_nat (length parts))) as [Hjn|Hjn].
           ++ exfalso. apply Hj, (complete_all rr' (length parts)); auto.
           ++ symmetry. apply lookup_ge_None. lia.
      * destruct K as (_ & _ & A3 & A4 & _). cbn in A3, A4. by rewrite A3, A4.
    + exists rr'. split; [done|]. rewrite Hset, <- Hi.
      apply elem_of_union. left. by apply elem_of_singleton.
    + intros j (rr0 & E & Hj). rewrite Hrr in E. injection E as <-.
      exists rr'. split; [done|]. rewrite Hset. apply elem_of_union. by right.
Qed.

Lemma receive_assembling (meta : FileMetadata) (parts : list (list byte))
  (ds : list (string * list byte)) (bufs : list ArrayBuffer) :
  forall r,
    assembling meta parts ds r ->
    Forall (fun buf => exists i, carries parts buf i) bufs ->
    assembling meta parts ds (receive bufs r)
    /\ (forall j, got r j -> got (receive bufs r) j)
    /\ forall buf i, buf ∈ bufs -> carries parts buf i -> got (receive bufs r) (Z.of_nat i).
Proof.
  induction bufs as [|buf bufs IH]; intros r Hr Hbufs.
  - split; [done|]. split; [done|]. intros buf i Hin. by apply elem_of_nil in Hin.
  - apply Forall_cons in Hbufs as [[i0 Hc0] Hbufs]. cbn [receive foldl].
    change (foldl _ ?r0 bufs) with (receive bufs r0).
    destruct (handleBinaryChunk_assembling meta parts ds r buf i0 Hr Hc0) as (Hr1 & _ & Hmono).
    destruct (IH _ Hr1 Hbufs) as (Hr2 & Hmono2 & Hcov).
    split; [done|]. split; [by auto|].
    intros buf' i Hin Hc. apply elem_of_cons in Hin as [->|Hin]; [|by eauto].
    apply Hmono2.
    by destruct (handleBinaryChunk_assembling meta parts ds r buf i Hr Hc) as (_ & Hgot & _).
Qed.

(** X30. Reassembly in memory.  A receiver without a file sink, whose
    channel is open or missing, has just been given the metadata of a
    file of [n >= 1] chunks.  If well-formed frames arrive in any order
    and any number of times, each carrying one of the chunks
    [0 .. n-1], and every chunk arrives at least once, then the receiver
    downloads the file once, and the blob is the chunks concatenated in
    index order. *)
Theorem chunks_in_any_order_reassemble
  (r : Receiver.Receiver) (meta : FileMetadata)
  (parts : list (list byte)) (bufs : list ArrayBuffer) :
  Receiver.fileMeta r = Some meta ->
  Receiver.writableStream r = None ->
  usable r ->
  Receiver.receivedRanges r = Some (new_ReceivedRanges (totalChunks meta)) ->
  Receiver.chunks r = ∅ ->
  totalChunks meta = Z.of_nat (length parts) ->
  parts <> [] ->
  Forall (fun buf => exists i, carries parts buf i) bufs ->
  (forall i, (i < length parts)%nat -> exists buf, buf ∈ bufs /\ carries parts buf i) ->
  Receiver.downloads (receive bufs r) = Receiver.downloads r ++ [(name meta, concat parts)].
Proof.
  intros Hm Hw Hu Hrr Hch Hn Hne Hbufs Hall.
  assert (Hpos : (0 < length parts)%nat) by (destruct parts; [done|cbn; lia]).
  assert (Hr : assembling meta parts (Receiver.downloads r) r).
  { split; [done|]. split; [done|]. split; [done|].
    exists (new_ReceivedRanges (totalChunks meta)).
    split; [done|]. split; [done|]. split; [by intros i Hi; apply elem_of_empty in Hi|].
    unfold isComplete. cbn [receivedSet rr_totalChunks new_ReceivedRanges].
    rewrite bool_decide_eq_false_2 by (rewrite size_empty; lia).
    split; [done|]. intros i. rewrite Hch, lookup_empty.
    by rewrite bool_decide_eq_false_2 by apply not_elem_of_empty. }
  destruct (receive_assembling meta parts _ bufs r Hr Hbufs)
    as ((_ & _ & _ & rr & Hrr' & Ht & _ & Hst) & _ & Hcov).
  rewrite (all_complete rr (length parts) Ht) in Hst; [done|].
  intros i Hi. destruct (Hall (Z.to_nat i) ltac:(lia)) as (buf & Hin & Hc).
  destruct (Hcov buf _ Hin Hc) as (rr0 & E & Hgot).
  rewrite Hrr' in E. injection E as <-. by rewrite Z2Nat.id in Hgot by lia.
Qed.

(** Witness for X30: chunk 1 arrives first, then chunk 0, then chunk 1
    again. *)
Lemma chunks_in_any_order_reassemble_witness :
  Receiver.downloads
    (receive [frame1; ReceiverScenario.frame0; frame1]
       (ReceiverScenario.receiving ReceiverScenario.two_chunk_meta))
  = Receiver.downloads (ReceiverScenario.receiving ReceiverScenario.two_chunk_meta)
    ++ [(name ReceiverScenario.two_chunk_meta, concat [[xaa]; [xbb; xcc]])].
Proof.
  assert (H0 : carries [[xaa]; [xbb; xcc]] ReceiverScenario.frame0 0).
  { eexists. split; [vm_compute; reflexivity|]. split; reflexivity. }
  assert (H1 : carries [[xaa]; [xbb; xcc]] frame1 1).
  { eexists. split; [vm_compute; reflexivity|]. split; reflexivity. }
  apply (chunks_in_any_order_reassemble
           (ReceiverScenario.receiving ReceiverScenario.two_chunk_meta)
           ReceiverScenario.two_chunk_meta [[xaa]; [xbb; xcc]]
           [frame1; ReceiverScenario.frame0; frame1]).
  - reflexivity.
  - reflexivity.
  - intros dc Hdc. vm_compute in Hdc. injection Hdc as <-. reflexivity.
  - reflexivity.
  - reflexivity.
  - reflexivity.
  - discriminate.
  - repeat constructor; eauto.
  - intros [|[|i]] Hi.
    + exists ReceiverScenario.frame0.
      split; [apply list_elem_of_further, list_elem_of_here | exact H0].
    + exists frame1. split; [apply list_elem_of_here | exact H1].
    + cbn in Hi. lia.
Defined.

(** The channel matters: when it has closed, [completeTransfer] stops at
    its [sendAcks] and the complete file is not downloaded. *)
Example closed_channel_no_download :
  Receiver.downloads
    (receive [ReceiverScenario.frame0; frame1]
       (Receiver.set_dataChannel (Some (mkRTCDataChannel rs_closed 0 0 []))
          (ReceiverScenario.receiving ReceiverScenario.two_chunk_meta)))
  = [].
Proof. vm_compute. reflexivity. Qed.

End Reassembly.
